(** * Skinner: transfer of skin weights between meshes

    A shallow embedding of the weight-transfer core of [skinner]
    ([utils.py], [core.py]) and the properties its specification states.

    Number model.  Python floats and numpy [float64] values are embedded as
    rationals ([Q]); comparisons are exact, as they are on floats.  Where a
    rounding decides what the code does, the rounded operation is a
    parameter of the model: the division, the sums and the difference of
    [normalizeToOne] ([normalizeToOne_rounded]) and the product that gives
    the search distance of the closest-neighbors policy ([pointPool_with]);
    the definitions with the exact operations are their instances.  The
    blending of a pool is embedded with exact sums and products.  A
    division by zero is the exception [ZeroDivisionError], as it is on
    Python floats; on numpy floats the source gets [nan] or [inf] and goes
    on.  Vertex indices are [nat], host integers are [Z]. *)

From Stdlib Require Import Ascii String.
From Stdlib Require Import List ZArith QArith Qabs Lia Lqa Bool Permutation.
From Stdlib Require Import Sorted.
Import ListNotations.

Set Implicit Arguments.
Set Warnings "-register-all".

(** ** Python values, exceptions and list primitives *)

Module Py.

Inductive exn : Type :=
| IndexError
| AssertionError
| ZeroDivisionError
| ValueError
| TypeError
| ImportError
| NotImplementedError
| Exception.

Inductive result (A : Type) : Type :=
| Ok (a : A)
| Raise (e : exn).

Arguments Ok {A} a.
Arguments Raise {A} e.

Definition bind {A B} (c : result A) (k : A -> result B) : result B :=
  match c with
  | Ok a => k a
  | Raise e => Raise e
  end.

Definition raises {A} (c : result A) : Prop := exists e, c = Raise e.

Definition returns {A} (c : result A) : Prop := exists a, c = Ok a.

End Py.

Export Py.

Notation "x <- c ;; k" := (bind c (fun x => k))
  (at level 61, c at next level, right associativity).
Notation "' pat <- c ;; k" := (bind c (fun x => match x with pat => k end))
  (at level 61, pat pattern, c at next level, right associativity).

(** [assert cond] *)
Definition assert (b : bool) : result unit :=
  if b then Ok tt else Raise AssertionError.

(** A list comprehension whose body may raise. *)
Fixpoint mapM {A B} (f : A -> result B) (l : list A) : result (list B) :=
  match l with
  | [] => Ok []
  | a :: l' => b <- f a ;; bs <- mapM f l' ;; Ok (b :: bs)
  end.

(** [l[i]] for [0 <= i]. *)
Definition getitem {A} (l : list A) (i : nat) : result A :=
  match nth_error l i with
  | Some a => Ok a
  | None => Raise IndexError
  end.

(** [l[i] = x] for an index in range. *)
Fixpoint setitem {A} (l : list A) (i : nat) (x : A) : list A :=
  match l, i with
  | [], _ => []
  | _ :: l', O => x :: l'
  | a :: l', S i' => a :: setitem l' i' x
  end.

(** [l.pop(i)], the list that is left. *)
Fixpoint pop {A} (l : list A) (i : nat) : list A :=
  match l, i with
  | [], _ => []
  | _ :: l', O => l'
  | a :: l', S i' => a :: pop l' i'
  end.

Definition Qlt_bool (x y : Q) : bool := negb (Qle_bool y x).

(** [sum(l)]: the left-to-right sum starting from 0. *)
Definition sum (l : list Q) : Q := fold_left Qplus l 0.

(** [min(l)] keeps the first of the smallest items, [max(l)] the first of
    the largest; both raise [ValueError] on an empty list. *)
Definition py_min (l : list Q) : result Q :=
  match l with
  | [] => Raise ValueError
  | x :: l' => Ok (fold_left (fun best y => if Qlt_bool y best then y else best) l' x)
  end.

Definition py_max (l : list Q) : result Q :=
  match l with
  | [] => Raise ValueError
  | x :: l' => Ok (fold_left (fun best y => if Qlt_bool best y then y else best) l' x)
  end.

(** [l.index(x)]: the first position holding a value equal to [x]. *)
Fixpoint index (l : list Q) (x : Q) : result nat :=
  match l with
  | [] => Raise ValueError
  | y :: l' => if Qeq_bool y x then Ok O else i <- index l' x ;; Ok (S i)
  end.

(** [any(l)] on numbers: some item is not zero. *)
Definition any (l : list Q) : bool := existsb (fun x => negb (Qeq_bool x 0)) l.

(** [range(start, stop, step)] *)
Definition py_range (start stop step : Z) : result (list Z) :=
  if (step =? 0)%Z then Raise ValueError
  else
    let n := if (0 <? step)%Z
             then ((stop - start + step - 1) / step)%Z
             else ((start - stop - step - 1) / (- step))%Z in
    Ok (map (fun k => (start + Z.of_nat k * step)%Z) (seq 0 (Z.to_nat n))).

(** ** utils.py *)

Module Utils.

Section Normalize.

(** The float division, addition and subtraction, whatever their
    rounding. *)
Variable fdiv : Q -> Q -> Q.
Variables fadd fsub : Q -> Q -> Q.

Definition truediv (x y : Q) : result Q :=
  if Qeq_bool y 0 then Raise ZeroDivisionError else Ok (fdiv x y).

(** [sum(l)] on floats: the additions from left to right, each rounded. *)
Definition fsum (l : list Q) : Q := fold_left fadd l 0.

Definition normalizeToOne_rounded (vals : list Q) : result (list Q) :=
  if Qeq_bool (fsum vals) 1 then Ok vals
  else
    normed <- mapM (fun val => truediv val (fsum vals)) vals ;;
    let normSum := fsum normed in
    if negb (Qeq_bool normSum 1) then
      m <- py_min normed ;;
      minIndex <- index normed m ;;
      let normBuffer := pop normed minIndex in
      let sumAllButMin := fsum normBuffer in
      let newMinVal := fsub 1 sumAllButMin in
      if Qle_bool 0 newMinVal then Ok (setitem normed minIndex newMinVal)
      else
        let normed := setitem normed minIndex 0 in
        mx <- py_max normed ;;
        maxIndex <- index normed mx ;;
        cur <- getitem normed maxIndex ;;
        Ok (setitem normed maxIndex (fadd cur newMinVal))
    else Ok normed.

End Normalize.

(** [normalizeToOne] with exact sums and differences, and with exact
    division. *)
Definition normalizeToOne_with (fdiv : Q -> Q -> Q) : list Q -> result (list Q) :=
  normalizeToOne_rounded fdiv Qplus Qminus.

Definition normalizeToOne : list Q -> result (list Q) := normalizeToOne_with Qdiv.

(** [name in names] *)
Definition contains (names : list string) (name : string) : bool :=
  existsb (String.eqb name) names.

(** [names.index(name)] *)
Fixpoint index_of (names : list string) (name : string) : result nat :=
  match names with
  | [] => Raise ValueError
  | y :: names' => if String.eqb y name then Ok O else i <- index_of names' name ;; Ok (S i)
  end.

Definition transposeWeights (skinChunkWeights : list (list Q))
    (skinChunkInfNames skinClusterInfNames : list string) : result (list (list Q)) :=
  first <- getitem skinChunkWeights 0 ;;
  _ <- assert (length first =? length skinChunkInfNames)%nat ;;
  let missingSkinChunk :=
    filter (fun name => negb (contains skinClusterInfNames name)) skinChunkInfNames in
  _ <- assert (match missingSkinChunk with [] => true | _ => false end) ;;
  let missingSkinCluster :=
    filter (fun name => negb (contains skinChunkInfNames name)) skinChunkInfNames in
  _ <- assert (match missingSkinCluster with [] => true | _ => false end) ;;
  mapM (fun chunkWeights =>
          mapM (fun skinClusterInf =>
                  if contains skinChunkInfNames skinClusterInf then
                    chunkIndex <- index_of skinChunkInfNames skinClusterInf ;;
                    getitem chunkWeights chunkIndex
                  else Ok 0)
               skinClusterInfNames)
       skinChunkWeights.

(** A dict with integer keys, in insertion order. *)
Fixpoint dict_set {V} (d : list (Z * V)) (k : Z) (v : V) : list (Z * V) :=
  match d with
  | [] => [(k, v)]
  | (k', v') :: d' => if (k' =? k)%Z then (k, v) :: d' else (k', v') :: dict_set d' k v
  end.

Section Fingerprint.

(** The host's answers: [mc.polyEvaluate(meshShape, vertex=True)] and
    [getConnectedVertIDs] of one vertex of the mesh. *)
Variable totalMeshVerts : Z.
Variable getConnectedVertIDs : Z -> list Z.

(** [int(totalMeshVerts/neighborSamples)]: a true division truncated
    towards zero (exact for vertex counts, which are far below 2^53). *)
Definition getVertNeighborSamples_step (neighborSamples : Z) : result Z :=
  if (neighborSamples =? 0)%Z then Raise ZeroDivisionError
  else
    let step := (totalMeshVerts ÷ neighborSamples)%Z in
    Ok (if (step =? 0)%Z then (totalMeshVerts - 1)%Z else step).

Definition getVertNeighborSamples (neighborSamples : Z) : result (list (Z * list Z)) :=
  step <- getVertNeighborSamples_step neighborSamples ;;
  keys <- py_range 0 totalMeshVerts step ;;
  Ok (fold_left (fun vertNeighbors i => dict_set vertNeighbors i (getConnectedVertIDs i))
                keys []).

End Fingerprint.

End Utils.


(** ** core.py *)

Module Core.

(** A 3D point or an [om2.MVector] normal. *)
Definition vec : Type := (Q * Q * Q)%type.

(** [point - targPoint] *)
Definition vsub (a b : vec) : vec :=
  let '(ax, ay, az) := a in
  let '(bx, by_, bz) := b in
  (ax - bx, ay - by_, az - bz).

(** [MVector * MVector]: the dot product. *)
Definition dot (a b : vec) : Q :=
  let '(ax, ay, az) := a in
  let '(bx, by_, bz) := b in
  ax * bx + ay * by_ + az * bz.

(** [enumerate(l)] *)
Definition enumerate {A} (l : list A) : list (nat * A) :=
  combine (seq 0 (length l)) l.

(** An array of any nesting depth, as numpy or nested lists give it. *)
Inductive pyarr (A : Type) : Type :=
| Item (a : A)
| Arr (l : list (pyarr A)).

Arguments Item {A} a.
Arguments Arr {A} l.

(** The flat shape [[n]] and the shape [[n][k]]. *)
Definition of_flat {A} (l : list A) : pyarr A := Arr (map Item l).

Definition of_rows {A} (rows : list (list A)) : pyarr A := Arr (map of_flat rows).

(** [[[item] for item in arr]] *)
Definition wrap_items {A} (arr : pyarr A) : result (pyarr A) :=
  match arr with
  | Item _ => Raise TypeError
  | Arr items => Ok (Arr (map (fun item => Arr [item]) items))
  end.

(** The signature of [closestPointExample]: [(distances, indexes)], both of
    shape [[x][y]]. *)
Definition closestPoint : Type :=
  list vec -> list vec -> Z -> result (list (list Q) * list (list nat)).

Definition closestPointExample : closestPoint :=
  fun _ _ _ => Raise NotImplementedError.

(** [sorted] on [[dist, j]] pairs: lists compare lexicographically. *)
Definition pair_lt (a b : Q * nat) : bool :=
  if Qeq_bool (fst a) (fst b) then (snd a <? snd b)%nat else Qlt_bool (fst a) (fst b).

Fixpoint insert (x : Q * nat) (l : list (Q * nat)) : list (Q * nat) :=
  match l with
  | [] => [x]
  | y :: l' => if pair_lt y x then y :: insert x l' else x :: l
  end.

Definition sorted (l : list (Q * nat)) : list (Q * nat) :=
  fold_right insert [] l.

Section ClosestPoint.

(** [np.linalg.norm], whatever its rounding. *)
Variable norm : vec -> Q.

(** [KDTree(targets).query(points, k)] of scipy, [None] when scipy could
    not be imported.  The number of workers ([gMultiThread]) changes no
    result, and the retry without [workers] asks the same query, so the
    model asks it once. *)
Variable KDTree : option (list vec -> list vec -> Z -> result (pyarr Q * pyarr nat)).

Definition clampNeighbors (targets : list vec) (numNeighbors : Z) : Z :=
  if (Z.of_nat (length targets) <? numNeighbors)%Z
  then Z.of_nat (length targets) else numNeighbors.

Definition closestPointKdTree (points targets : list vec) (numNeighbors : Z)
  : result (pyarr Q * pyarr nat) :=
  match KDTree with
  | None => Raise ImportError
  | Some query =>
      let numNeighbors := clampNeighbors targets numNeighbors in
      '(distances, indexes) <- query targets points numNeighbors ;;
      if (numNeighbors =? 1)%Z then
        distances <- wrap_items distances ;;
        indexes <- wrap_items indexes ;;
        Ok (distances, indexes)
      else Ok (distances, indexes)
  end.

(** The body of the loop over [points]. *)
Definition bruteForceRow (targets : list vec) (numNeighbors : Z) (point : vec)
  : list Q * list nat :=
  let distIndices :=
    map (fun jt : nat * vec => (norm (vsub point (snd jt)), fst jt)) (enumerate targets) in
  let distIndices := sorted distIndices in
  let trim := if (Z.of_nat (length distIndices) <? numNeighbors)%Z
              then Z.of_nat (length distIndices) else numNeighbors in
  let picked := firstn (Z.to_nat trim) distIndices in
  (map fst picked, map snd picked).

Definition closestPointBruteForce : closestPoint :=
  fun points targets numNeighbors =>
    let numNeighbors := clampNeighbors targets numNeighbors in
    let found := map (bruteForceRow targets numNeighbors) points in
    Ok (map fst found, map snd found).

(** The [allSavedBlendWeights] argument as a Python object. *)
Inductive pyobj : Type :=
| PyList (l : list Q)
| NdArray (l : list Q)
| BuiltinFunction.

(** [isinstance(obj, type(np.array))]: [np.array] is a built-in function,
    so its type is [builtin_function_or_method], not the array class. *)
Definition isinstance_type_np_array (obj : pyobj) : bool :=
  match obj with
  | BuiltinFunction => true
  | _ => false
  end.

Definition py_len (obj : pyobj) : result nat :=
  match obj with
  | PyList l | NdArray l => Ok (length l)
  | BuiltinFunction => Raise TypeError
  end.

Definition py_getitem (obj : pyobj) (i : nat) : result Q :=
  match obj with
  | PyList l | NdArray l => getitem l i
  | BuiltinFunction => Raise TypeError
  end.

(** An entry of the returned ["blendWeights"] list. *)
Inductive blendval : Type :=
| Scalar (x : Q)
| Vector (v : list Q).

Record weightData : Type := {
  weights : list (list Q);
  blendWeights : list blendval
}.

(** The checks both policies start with; the result is [useBlendWeights]. *)
Definition validate (allSavedWeights : list (list Q)) (allSavedBlendWeights : pyobj)
    (importVertPositions importVertNormals : list vec) (filterByVertNormal : bool)
  : result bool :=
  _ <- match importVertNormals with
       | [] => Ok tt
       | _ => assert (length importVertNormals =? length importVertPositions)%nat
       end ;;
  _ <- match importVertNormals with
       | [] => if filterByVertNormal then Raise Exception else Ok tt
       | _ => Ok tt
       end ;;
  if isinstance_type_np_array allSavedBlendWeights then
    n <- py_len allSavedBlendWeights ;;
    _ <- assert (length allSavedWeights =? n)%nat ;;
    Ok true
  else Ok false.

(** [l[:stop]] *)
Definition slice_to {A} (l : list A) (stop : Z) : list A :=
  if (stop <? 0)%Z then firstn (Z.to_nat (Z.of_nat (length l) + stop)) l
  else firstn (Z.to_nat stop) l.

(** [np.sum(rows, axis=0)].  Of no row at all numpy gives the scalar
    [0.0], which the next call cannot iterate. *)
Definition np_sum_axis0 (rows : list (list Q)) : result (list Q) :=
  match rows with
  | [] => Raise TypeError
  | r :: rows' =>
      if forallb (fun r' => (length r' =? length r)%nat) rows'
      then Ok (fold_left (fun acc r' => map (fun ab : Q * Q => fst ab + snd ab) (combine acc r')) rows' r)
      else Raise ValueError
  end.

Definition index_as_number (k : nat) : Q := inject_Z (Z.of_nat k).

Section Policies.

Variable allSavedWeights : list (list Q).
Variable allSavedBlendWeights : pyobj.
Variable importVertNormals savedVertNormals : list vec.
Variable filterByVertNormal : bool.
Variable vertNormalTolerance : Q.
Variable useBlendWeights : bool.
Variable distancesArr : list (list Q).
Variable indexArr : list (list nat).

(** [importVertNormals[i] * savedVertNormals[checkIndex]] *)
Definition normalDot (i checkIndex : nat) : result Q :=
  ni <- getitem importVertNormals i ;;
  ns <- getitem savedVertNormals checkIndex ;;
  Ok (dot ni ns).

Section Neighbors.

(** [closestNeighborCount] after the replacement of a value below 1. *)
Variable closestNeighborCount : Z.
Variable closestNeighborDistMult : Q.

Record pool : Type := {
  closestIndices : list nat;
  closestDistances : list Q;
  rejectedIndices : list nat;
  rejectedDistnaces : list Q
}.

(** The loop [for j in range(0, len(distancesArr[i]))], [js] being the
    values of [j] still to come. *)
Fixpoint walk (i : nat) (searchDist : Q) (js : list nat) (p : pool) : result pool :=
  match js with
  | [] => Ok p
  | j :: js' =>
      if (closestNeighborCount <=? Z.of_nat (length (closestIndices p)))%Z then Ok p
      else
        indexRow <- getitem indexArr i ;;
        checkIndex <- getitem indexRow j ;;
        distRow <- getitem distancesArr i ;;
        checkDist <- getitem distRow j ;;
        if Qlt_bool searchDist checkDist && negb filterByVertNormal then Ok p
        else
          normalReject <- (if filterByVertNormal then
                             d <- normalDot i checkIndex ;;
                             Ok (Qlt_bool d vertNormalTolerance)
                           else Ok false) ;;
          walk i searchDist js'
               (if normalReject : bool then
                  {| closestIndices := closestIndices p;
                     closestDistances := closestDistances p;
                     rejectedIndices := rejectedIndices p ++ [checkIndex];
                     rejectedDistnaces := rejectedDistnaces p ++ [checkDist] |}
                else
                  {| closestIndices := closestIndices p ++ [checkIndex];
                     closestDistances := closestDistances p ++ [checkDist];
                     rejectedIndices := rejectedIndices p;
                     rejectedDistnaces := rejectedDistnaces p |})
  end.

(** The pool of target point [i]: [(closestIndices, closestDistances)] as
    they stand before the weights are computed.  [fmul] is the float
    product that gives the search distance, whatever its rounding. *)
Definition pointPool_with (fmul : Q -> Q -> Q) (i : nat) : result (list nat * list Q) :=
  distRow <- getitem distancesArr i ;;
  first <- getitem distRow 0 ;;
  let searchDist := fmul first closestNeighborDistMult in
  p <- walk i searchDist (seq 0 (length distRow))
            {| closestIndices := []; closestDistances := [];
               rejectedIndices := []; rejectedDistnaces := [] |} ;;
  match closestIndices p with
  | [] =>
      if filterByVertNormal then
        let maxIndex := Z.min closestNeighborCount (Z.of_nat (length (rejectedIndices p))) in
        Ok (slice_to (rejectedIndices p) maxIndex,
            map index_as_number (slice_to (rejectedIndices p) maxIndex))
      else Ok (closestIndices p, closestDistances p)
  | _ => Ok (closestIndices p, closestDistances p)
  end.

(** The pool with the exact product. *)
Definition pointPool : nat -> result (list nat * list Q) := pointPool_with Qmult.

(** The weights (and blend weight) of a target point from its pool. *)
Definition pointWeights (closestIndices : list nat) (closestDistances : list Q)
  : result (list Q * option blendval) :=
  if (length closestIndices =? 1)%nat then
    first <- getitem closestIndices 0 ;;
    w <- getitem allSavedWeights first ;;
    if useBlendWeights then
      b <- py_getitem allSavedBlendWeights first ;;
      Ok (w, Some (Scalar b))
    else Ok (w, None)
  else
    closesetIndexWeights <- mapM (getitem allSavedWeights) closestIndices ;;
    closestDistances <-
      (if negb (any closestDistances) then
         avg <- Utils.truediv Qdiv 1 (index_as_number (length closestDistances)) ;;
         Ok (repeat avg (length closestDistances))
       else Ok closestDistances) ;;
    normalizedDistances <- Utils.normalizeToOne closestDistances ;;
    let normalizedDistances := rev normalizedDistances in
    weightByDist <-
      mapM (fun iw : nat * list Q =>
              mapM (fun weight => nd <- getitem normalizedDistances (fst iw) ;;
                                  Ok (weight * nd))
                   (snd iw))
           (enumerate closesetIndexWeights) ;;
    sumedWeights <- np_sum_axis0 weightByDist ;;
    normalizedWeights <- Utils.normalizeToOne sumedWeights ;;
    if useBlendWeights then
      weightByDist <-
        mapM (fun iw : nat * list Q =>
                nd <- getitem normalizedDistances (fst iw) ;;
                Ok (map (fun weight => weight * nd) (snd iw)))
             (enumerate closesetIndexWeights) ;;
      sumedWeights <- np_sum_axis0 weightByDist ;;
      Ok (normalizedWeights, Some (Vector sumedWeights))
    else Ok (normalizedWeights, None).

(** The body of the loop over the target points. *)
Definition neighborsPoint_with (fmul : Q -> Q -> Q) (i : nat)
  : result (list Q * option blendval) :=
  '(closestIndices, closestDistances) <- pointPool_with fmul i ;;
  pointWeights closestIndices closestDistances.

Definition neighborsPoint : nat -> result (list Q * option blendval) :=
  neighborsPoint_with Qmult.

End Neighbors.

(** The loop of [closestPointWeights] over the candidates of target [i]:
    [closestNormalMatch] when it ends. *)
Fixpoint closestNormalMatch (i : nat) (js : list nat) : result (option nat) :=
  match js with
  | [] => Ok None
  | j :: js' =>
      indexRow <- getitem indexArr i ;;
      checkIndex <- getitem indexRow j ;;
      d <- normalDot i checkIndex ;;
      if Qle_bool vertNormalTolerance d then Ok (Some checkIndex)
      else closestNormalMatch i js'
  end.

(** [if closestNormalMatch:] — [None] and the index 0 are both false. *)
Definition truthy (o : option nat) : bool :=
  match o with
  | Some (S _) => true
  | _ => false
  end.

Definition closestPoint_point (i : nat) : result (list Q * option blendval) :=
  indexRow <- getitem indexArr i ;;
  closestIndex <- getitem indexRow 0 ;;
  closestIndex <-
    (if filterByVertNormal then
       distRow <- getitem distancesArr i ;;
       found <- closestNormalMatch i (seq 0 (length distRow)) ;;
       if truthy found then
         match found with Some m => Ok m | None => Ok closestIndex end
       else Ok closestIndex
     else Ok closestIndex) ;;
  w <- getitem allSavedWeights closestIndex ;;
  if useBlendWeights then
    b <- py_getitem allSavedBlendWeights closestIndex ;;
    Ok (w, Some (Scalar b))
  else Ok (w, None).

End Policies.

(** [{"weights": newWeights, "blendWeights": newBlendWeights}] from what
    each turn of the loop appended. *)
Definition collect (perPoint : list (list Q * option blendval)) : weightData :=
  {| weights := map fst perPoint;
     blendWeights := flat_map (fun wb => match snd wb with
                                         | Some b => [b]
                                         | None => []
                                         end) perPoint |}.

Definition closestNeighborsWeights (allSavedWeights : list (list Q))
    (allSavedBlendWeights : pyobj)
    (importVertPositions savedVertPositions : list vec)
    (importVertNormals savedVertNormals : list vec)
    (closestNeighborCount : Z) (closestNeighborDistMult : Q)
    (closestPointFunc : option closestPoint)
    (filterByVertNormal : bool) (vertNormalTolerance : Q) : result weightData :=
  useBlendWeights <- validate allSavedWeights allSavedBlendWeights
                              importVertPositions importVertNormals filterByVertNormal ;;
  let closestPointFunc := match closestPointFunc with
                          | None => closestPointBruteForce
                          | Some f => f
                          end in
  let closestNeighborCount :=
    if (closestNeighborCount <? 1)%Z then Z.of_nat (length importVertPositions)
    else closestNeighborCount in
  let closestNeighborCountOverride :=
    if filterByVertNormal then Z.of_nat (length importVertNormals)
    else closestNeighborCount in
  '(distancesArr, indexArr) <-
    closestPointFunc importVertPositions savedVertPositions closestNeighborCountOverride ;;
  perPoint <- mapM (neighborsPoint allSavedWeights allSavedBlendWeights
                                   importVertNormals savedVertNormals
                                   filterByVertNormal vertNormalTolerance useBlendWeights
                                   distancesArr indexArr
                                   closestNeighborCount closestNeighborDistMult)
                   (seq 0 (length importVertPositions)) ;;
  Ok (collect perPoint).

Definition closestPointWeights (allSavedWeights : list (list Q))
    (allSavedBlendWeights : pyobj)
    (importVertPositions savedVertPositions : list vec)
    (importVertNormals savedVertNormals : list vec)
    (closestPointFunc : option closestPoint)
    (filterByVertNormal : bool) (vertNormalTolerance : Q) : result weightData :=
  useBlendWeights <- validate allSavedWeights allSavedBlendWeights
                              importVertPositions importVertNormals filterByVertNormal ;;
  let closestPointFunc := match closestPointFunc with
                          | None => closestPointBruteForce
                          | Some f => f
                          end in
  let numNeighbors :=
    if filterByVertNormal then Z.of_nat (length importVertPositions) else 1%Z in
  '(distancesArr, indexArr) <-
    closestPointFunc importVertPositions savedVertPositions numNeighbors ;;
  perPoint <- mapM (closestPoint_point allSavedWeights allSavedBlendWeights
                                       importVertNormals savedVertNormals
                                       filterByVertNormal vertNormalTolerance useBlendWeights
                                       distancesArr indexArr)
                   (seq 0 (length importVertPositions)) ;;
  Ok (collect perPoint).

End ClosestPoint.

End Core.

(** ** core.py: the chunks *)

Module Chunks.

Import Utils Core.

(** [s.split(sep)] for a separator of one character: the fields between
    the separators, at least one. *)
Fixpoint split (sep : ascii) (s : string) : list string :=
  match s with
  | EmptyString => [EmptyString]
  | String c s' =>
      if Ascii.eqb c sep then EmptyString :: split sep s'
      else match split sep s' with
           | [] => [String c EmptyString]
           | field :: fields => String c field :: fields
           end
  end.

(** [s.split(sep)[-1]] *)
Definition lastField (sep : ascii) (s : string) : string :=
  last (split sep s) EmptyString.

(** [name.split("|")[-1].split(":")[-1]]: the leaf name of a node, without
    its path and its namespace. *)
Definition leafName (name : string) : string :=
  lastField ":" (lastField "|" name).

(** A [for] loop that updates a state and may raise. *)
Fixpoint foldM {A S} (f : S -> A -> result S) (l : list A) (s : S) : result S :=
  match l with
  | [] => Ok s
  | a :: l' => s' <- f s a ;; foldM f l' s'
  end.

(** [x in l] and [l.index(x)] on vertex ids. *)
Definition contains_id (l : list Z) (x : Z) : bool := existsb (Z.eqb x) l.

Fixpoint index_id (l : list Z) (x : Z) : result nat :=
  match l with
  | [] => Raise ValueError
  | y :: l' => if (y =? x)%Z then Ok O else i <- index_id l' x ;; Ok (S i)
  end.

(** [l[i] = x], which raises out of range. *)
Definition setitem_checked {A} (l : list A) (i : nat) (x : A) : result (list A) :=
  if (i <? length l)%nat then Ok (setitem l i x) else Raise IndexError.

(** The attributes of [Chunk], the superclass.  An influence has a
    world matrix (16 floats), local transforms (a dict from attribute name
    to xyz), a rotate order and the leaf name of its parent ([None] for
    the world). *)
Record Chunk : Type := {
  totalMeshVerts : Z;
  influences : list string;
  influenceMatrices : list (list Q);
  influenceLocalTransforms : list (list (string * vec));
  influenceRotateOrders : list Z;
  influenceParents : list (option string);
  weights : list (list Q);
  blendWeights : list Q;
  normals : list vec;
  normalsPreDeformed : list vec;
  vertPositions : list vec;
  vertPositionsPreDeformed : list vec
}.

(** [Chunk.__init__] *)
Definition Chunk_init : Chunk :=
  {| totalMeshVerts := 0;
     influences := [];
     influenceMatrices := [];
     influenceLocalTransforms := [];
     influenceRotateOrders := [];
     influenceParents := [];
     weights := [];
     blendWeights := [];
     normals := [];
     normalsPreDeformed := [];
     vertPositions := [];
     vertPositionsPreDeformed := [] |}.

(** [Chunk.hasInfluence] *)
Definition hasInfluence (self : Chunk) (influence : string) : bool :=
  let inf := leafName influence in
  if contains (influences self) inf then true else false.

(** A [SkinChunk]: a [Chunk] and what [SkinChunk.__init__] adds to it that
    the methods below read.  The attributes added in later versions
    ([normalsPreDeformed], [influenceLocalTransforms], ...) are present, as
    on every chunk this version creates. *)
Record SkinChunk : Type := {
  chunk :> Chunk;
  meshShape : string;
  meshVertCount : Z;
  vertIds : list Z;
  skinningMethod : Z;
  neighborSamples : Z;
  vertNeighbors : list (Z * list Z)
}.

(** [SkinChunk.getByMeshName]: the loop over [skinChunks], left at the
    first match. *)
Fixpoint getByMeshName_loop (shapeLeaf : string) (skinChunks : list SkinChunk)
  : option SkinChunk :=
  match skinChunks with
  | [] => None
  | skinChunk :: skinChunks' =>
      if String.eqb shapeLeaf (meshShape skinChunk) then Some skinChunk
      else getByMeshName_loop shapeLeaf skinChunks'
  end.

Definition getByMeshName (meshShape : string) (skinChunks : list SkinChunk)
  : option SkinChunk :=
  let shapeLeaf := leafName meshShape in
  getByMeshName_loop shapeLeaf skinChunks.

(** [SkinChunk.getVertWeight], [getVertBlendWeight] and [getVertNormal] *)
Definition getVertWeight (self : SkinChunk) (vertId : Z) : result (list Q) :=
  if negb (contains_id (vertIds self) vertId) then Raise Exception
  else
    index <- index_id (vertIds self) vertId ;;
    getitem (weights self) index.

Definition getVertBlendWeight (self : SkinChunk) (vertId : Z) : result Q :=
  if negb (contains_id (vertIds self) vertId) then Raise Exception
  else
    index <- index_id (vertIds self) vertId ;;
    getitem (blendWeights self) index.

Definition getVertNormal (self : SkinChunk) (vertId : Z) (preDeformed : bool)
  : result vec :=
  if negb (contains_id (vertIds self) vertId) then Raise Exception
  else
    index <- index_id (vertIds self) vertId ;;
    if negb preDeformed then getitem (normals self) index
    else getitem (normalsPreDeformed self) index.

(** An [UberChunk]: a [Chunk] and the skin chunks it was made from. *)
Record UberChunk : Type := {
  uberChunk :> Chunk;
  skinChunks : list SkinChunk
}.

(** [UberChunk.__init__], first loop, the body of
    [for i,inf in enumerate(chunkInfs)]. *)
Definition addInfluence (skinChunk : SkinChunk) (self : Chunk) (item : nat * string)
  : result Chunk :=
  let '(i, inf) := item in
  if negb (contains (influences self) inf) then
    infMatrix <- getitem (influenceMatrices skinChunk) i ;;
    infLocalTransform <- getitem (influenceLocalTransforms skinChunk) i ;;
    infRotateOrder <- getitem (influenceRotateOrders skinChunk) i ;;
    infParent <- getitem (influenceParents skinChunk) i ;;
    Ok {| totalMeshVerts := totalMeshVerts self;
          influences := influences self ++ [inf];
          influenceMatrices := influenceMatrices self ++ [infMatrix];
          influenceLocalTransforms := influenceLocalTransforms self ++ [infLocalTransform];
          influenceRotateOrders := influenceRotateOrders self ++ [infRotateOrder];
          influenceParents := influenceParents self ++ [infParent];
          weights := weights self;
          blendWeights := blendWeights self;
          normals := normals self;
          normalsPreDeformed := normalsPreDeformed self;
          vertPositions := vertPositions self;
          vertPositionsPreDeformed := vertPositionsPreDeformed self |}
  else Ok self.

(** The body of the first [for skinChunk in self.skinChunks]. *)
Definition addPoints (self : Chunk) (skinChunk : SkinChunk) : result Chunk :=
  self <- foldM (addInfluence skinChunk) (enumerate (influences skinChunk)) self ;;
  Ok {| totalMeshVerts := totalMeshVerts self;
        influences := influences self;
        influenceMatrices := influenceMatrices self;
        influenceLocalTransforms := influenceLocalTransforms self;
        influenceRotateOrders := influenceRotateOrders self;
        influenceParents := influenceParents self;
        weights := weights self;
        blendWeights := blendWeights self;
        normals := normals self ++ normals skinChunk;
        normalsPreDeformed := normalsPreDeformed self ++ normalsPreDeformed skinChunk;
        vertPositions := vertPositions self ++ vertPositions skinChunk;
        vertPositionsPreDeformed :=
          vertPositionsPreDeformed self ++ vertPositionsPreDeformed skinChunk |}.

(** The weights of one saved vertex against the influences of the
    UberChunk: the body of [for cWeights in chunkWeights]. *)
Definition uberWeights (influences chunkInfs : list string) (zeroWeights cWeights : list Q)
  : result (list Q) :=
  foldM (fun weights i =>
           inf <- getitem chunkInfs i ;;
           weightIndex <- index_of influences inf ;;
           cWeight <- getitem cWeights i ;;
           setitem_checked weights weightIndex cWeight)
        (seq 0 (length cWeights)) zeroWeights.

(** The body of the second [for skinChunk in self.skinChunks]. *)
Definition addWeights (zeroWeights : list Q) (self : Chunk) (skinChunk : SkinChunk)
  : result Chunk :=
  let chunkWeights := weights skinChunk in
  let chunkInfs := influences skinChunk in
  newWeights <- mapM (uberWeights (influences self) chunkInfs zeroWeights) chunkWeights ;;
  Ok {| totalMeshVerts := totalMeshVerts self;
        influences := influences self;
        influenceMatrices := influenceMatrices self;
        influenceLocalTransforms := influenceLocalTransforms self;
        influenceRotateOrders := influenceRotateOrders self;
        influenceParents := influenceParents self;
        weights := weights self ++ newWeights;
        blendWeights := blendWeights self ++ blendWeights skinChunk;
        normals := normals self;
        normalsPreDeformed := normalsPreDeformed self;
        vertPositions := vertPositions self;
        vertPositionsPreDeformed := vertPositionsPreDeformed self |}.

(** [UberChunk.__init__], on a list of skin chunks. *)
Definition UberChunk_init (skinChunks : list SkinChunk) : result UberChunk :=
  self <- foldM addPoints skinChunks Chunk_init ;;
  let zeroWeights := repeat 0 (length (influences self)) in
  self <- foldM (addWeights zeroWeights) skinChunks self ;;
  Ok {| uberChunk :=
          {| totalMeshVerts := Z.of_nat (length (weights self));
             influences := influences self;
             influenceMatrices := influenceMatrices self;
             influenceLocalTransforms := influenceLocalTransforms self;
             influenceRotateOrders := influenceRotateOrders self;
             influenceParents := influenceParents self;
             weights := weights self;
             blendWeights := blendWeights self;
             normals := normals self;
             normalsPreDeformed := normalsPreDeformed self;
             vertPositions := vertPositions self;
             vertPositionsPreDeformed := vertPositionsPreDeformed self |};
        skinChunks := skinChunks |}.

End Chunks.

(** ** Definitions the statements use *)

(** The taxicab norm: the norm the examples run with (on points that differ
    along one axis it is the Euclidean distance). *)
Definition norm1 (v : Core.vec) : Q :=
  let '(x, y, z) := v in Qabs x + Qabs y + Qabs z.

(** The position [names.index(name)] finds. *)
Fixpoint position (names : list string) (name : string) : nat :=
  match names with
  | [] => O
  | y :: names' => if String.eqb y name then O else S (position names' name)
  end.

(** What [transposeWeights] puts in the column of the target label [t]. *)
Definition column (src : list string) (r : list Q) (t : string) : Q :=
  if Utils.contains src t then nth (position src t) r 0 else 0.

(** The indices [0, step, 2*step, ...] below [total]. *)
Definition strided (total step : Z) : list Z :=
  map (fun k => (Z.of_nat k * step)%Z) (seq 0 (Z.to_nat ((total + step - 1) / step))).

(** The fingerprint of the sampled indices [keys]. *)
Definition neighborsOf (adj : Z -> list Z) (keys : list Z) : list (Z * list Z) :=
  map (fun i => (i, adj i)) keys.

(** What a closest-point function owes its caller for [m] indexed points:
    a row of distances and a row of indices per query point, of equal
    length and not empty, the distances non-negative and the indices below
    [m]. *)
Definition neighborRows (m : nat) (D : list (list Q)) (I : list (list nat)) : Prop :=
  Forall2 (fun d i => length d = length i /\ d <> [] /\
                      Forall (fun x => 0 <= x) d /\
                      Forall (fun j => (j < m)%nat) i) D I.

Definition knnContract (f : Core.closestPoint) : Prop :=
  forall points targets k,
    targets <> [] -> (points = [] \/ (1 <= k)%Z) ->
    exists D I, f points targets k = Ok (D, I) /\
                length D = length points /\
                neighborRows (length targets) D I.

(** Saved weights: one vector of [c] non-negative entries per saved point,
    none of them all zero. *)
Definition weightVectors (c : nat) (W : list (list Q)) : Prop :=
  Forall (fun r => length r = c /\ Forall (fun x => 0 <= x) r /\ 0 < sum r) W.

(** The sums of the columns of a rectangular list of rows. *)
Definition zipadd (a b : list Q) : list Q :=
  map (fun ab : Q * Q => fst ab + snd ab) (combine a b).

Definition columnSums (rows : list (list Q)) : list Q :=
  match rows with
  | [] => []
  | r :: rows' => fold_left zipadd rows' r
  end.

(** The unweighted average of the rows, and a vector divided by its sum. *)
Definition average (rows : list (list Q)) : list Q :=
  map (fun x => x / inject_Z (Z.of_nat (length rows))) (columnSums rows).

Definition renormalized (v : list Q) : list Q :=
  map (fun x => x / sum v) v.

(** The saved weight vectors of the members of a pool. *)
Definition poolVectors (W : list (list Q)) (indices : list nat) : list (list Q) :=
  map (fun k => nth k W []) indices.

(** A query that behaves as scipy documents [KDTree.query]: the [k]
    nearest, the last dimension squeezed when [k] is 1. *)
Definition squeezingQuery (norm : Core.vec -> Q) (targets points : list Core.vec) (k : Z)
  : result (Core.pyarr Q * Core.pyarr nat) :=
  let found := map (Core.bruteForceRow norm targets k) points in
  if (k =? 1)%Z
  then Ok (Core.of_flat (concat (map fst found)), Core.of_flat (concat (map snd found)))
  else Ok (Core.of_rows (map fst found), Core.of_rows (map snd found)).

(** Each row of the pool scaled by its (reversed, normalized) distance. *)
Definition scaledRows (rows : list (list Q)) (nd : list Q) : list (list Q) :=
  map (fun rw : list Q * Q => map (fun weight => weight * snd rw) (fst rw)) (combine rows nd).

(** Two vectors with equal entries. *)
Abbreviation vec_eq := (Forall2 Qeq).

(** What the walk over the candidates keeps true of its pool: one distance
    per accepted point, distances non-negative, indices below [m]. *)
Definition poolOk (m : nat) (p : Core.pool) : Prop :=
  length (Core.closestDistances p) = length (Core.closestIndices p) /\
  Forall (fun j => (j < m)%nat) (Core.closestIndices p) /\
  Forall (fun x => 0 <= x) (Core.closestDistances p) /\
  Forall (fun j => (j < m)%nat) (Core.rejectedIndices p).

(** The order [sorted] puts [[dist, j]] pairs in: not after. *)
Definition pair_le (a b : Q * nat) : Prop := Core.pair_lt b a = false.

(** What a row of [closestPointBruteForce] is for the query point [p]:
    distances in ascending order, indices without repetition, each distance
    that of the indexed point, the first one the least distance to any
    indexed point when a neighbour is asked for, and every indexed point
    listed when as many neighbours are asked for as there are points. *)
Definition neighborRow (norm : Core.vec -> Q) (targets : list Core.vec) (k : Z)
    (p : Core.vec) (d : list Q) (r : list nat) : Prop :=
  StronglySorted Qle d /\
  NoDup r /\
  Forall2 (fun x j => exists t, nth_error targets j = Some t /\ x = norm (Core.vsub p t)) d r /\
  ((1 <= k)%Z -> forall t, In t targets ->
     exists d0, hd_error d = Some d0 /\ d0 <= norm (Core.vsub p t)) /\
  ((Z.of_nat (length targets) <= k)%Z ->
     forall j, (j < length targets)%nat -> In j r).

(** Points and norms: the zero vector, two points at the same place, a
    list of points all at different places, and a norm that is zero on the
    zero vector only. *)
Definition vzero (v : Core.vec) : Prop :=
  let '(x, y, z) := v in x == 0 /\ y == 0 /\ z == 0.

Definition samePoint (a b : Core.vec) : Prop := vzero (Core.vsub a b).

Definition distinctPoints (S : list Core.vec) : Prop :=
  forall i j a b, nth_error S i = Some a -> nth_error S j = Some b -> i <> j ->
                  ~ samePoint a b.

Definition definiteNorm (norm : Core.vec -> Q) : Prop :=
  (forall v, vzero v -> norm v == 0) /\ (forall v, ~ vzero v -> 0 < norm v).

(** What the walk over the candidates of a target point keeps true of its
    pool, for the neighbour count [count], the search radius [sd] and the
    candidates' rows [dr] (distances) and [ir] (indices): no more than
    [count] members, members and rejected points taken among the
    candidates, one distance per member and, when normals do not filter,
    each of these a candidate's distance within the radius. *)
Definition poolBounds (filter : bool) (count : Z) (sd : Q) (dr : list Q) (ir : list nat)
    (p : Core.pool) : Prop :=
  (Z.of_nat (length (Core.closestIndices p)) <= count)%Z /\
  incl (Core.closestIndices p) ir /\
  incl (Core.rejectedIndices p) ir /\
  length (Core.closestDistances p) = length (Core.closestIndices p) /\
  (filter = false -> Forall (fun d => In d dr /\ d <= sd) (Core.closestDistances p)).

(** The character [c] occurs in the string [s]. *)
Fixpoint occurs (c : ascii) (s : string) : Prop :=
  match s with
  | EmptyString => False
  | String c' s' => c' = c \/ occurs c s'
  end.

(** The names of [l] not yet in [acc], added to it in the order in which
    they first occur. *)
Definition firstSeen (acc l : list string) : list string :=
  fold_left (fun a x => if Utils.contains a x then a else a ++ [x]) l acc.

(** One matrix, dict of local transforms, rotate order and parent per
    influence. *)
Definition influencesAligned (self : Chunks.Chunk) : Prop :=
  length (Chunks.influenceMatrices self) = length (Chunks.influences self) /\
  length (Chunks.influenceLocalTransforms self) = length (Chunks.influences self) /\
  length (Chunks.influenceRotateOrders self) = length (Chunks.influences self) /\
  length (Chunks.influenceParents self) = length (Chunks.influences self).

(** Two chunks with the same weights and points, and two chunks with the
    same influences. *)
Definition sameData (self self' : Chunks.Chunk) : Prop :=
  Chunks.weights self' = Chunks.weights self /\
  Chunks.blendWeights self' = Chunks.blendWeights self /\
  Chunks.normals self' = Chunks.normals self /\
  Chunks.normalsPreDeformed self' = Chunks.normalsPreDeformed self /\
  Chunks.vertPositions self' = Chunks.vertPositions self /\
  Chunks.vertPositionsPreDeformed self' = Chunks.vertPositionsPreDeformed self.

Definition sameInfluences (self self' : Chunks.Chunk) : Prop :=
  Chunks.influences self' = Chunks.influences self /\
  Chunks.influenceMatrices self' = Chunks.influenceMatrices self /\
  Chunks.influenceLocalTransforms self' = Chunks.influenceLocalTransforms self /\
  Chunks.influenceRotateOrders self' = Chunks.influenceRotateOrders self /\
  Chunks.influenceParents self' = Chunks.influenceParents self.

(** A skin chunk as [SkinChunk.__init__] leaves it: influence names
    without repetition, one matrix, one dict of local transforms, one
    rotate order and one parent per influence, and one weight per influence
    in every row of weights. *)
Definition chunkOk (c : Chunks.SkinChunk) : Prop :=
  let self := Chunks.chunk c in
  NoDup (Chunks.influences self) /\
  influencesAligned self /\
  Forall (fun r => length r = length (Chunks.influences self)) (Chunks.weights self).

(** Skin chunks for the examples: the chunk of a mesh with the given
    influences, rows of weights and points, saved on all its vertices, and
    two chunks that share an influence. *)
Definition exampleChunk (name : string) (infs : list string) (rows : list (list Q))
    (points : list Core.vec) : Chunks.SkinChunk :=
  {| Chunks.chunk :=
       {| Chunks.totalMeshVerts := Z.of_nat (length points);
          Chunks.influences := infs;
          Chunks.influenceMatrices := map (fun _ => []) infs;
          Chunks.influenceLocalTransforms := map (fun _ => []) infs;
          Chunks.influenceRotateOrders := map (fun _ => 0%Z) infs;
          Chunks.influenceParents := map (fun _ => None) infs;
          Chunks.weights := rows;
          Chunks.blendWeights := [];
          Chunks.normals := map (fun _ => (0, 0, 1)) points;
          Chunks.normalsPreDeformed := map (fun _ => (0, 0, 1)) points;
          Chunks.vertPositions := points;
          Chunks.vertPositionsPreDeformed := points |};
     Chunks.meshShape := name;
     Chunks.meshVertCount := Z.of_nat (length points);
     Chunks.vertIds := map Z.of_nat (seq 0 (length points));
     Chunks.skinningMethod := 0;
     Chunks.neighborSamples := 0;
     Chunks.vertNeighbors := [] |}.

Definition exampleChunks : list Chunks.SkinChunk :=
  [exampleChunk "bodyShape" ["hip"; "knee"]%string [[1; 0]; [1 # 2; 1 # 2]]
                [(0, 0, 0); (1, 0, 0)];
   exampleChunk "legShape" ["knee"; "ankle"]%string [[1 # 4; 3 # 4]] [(2, 0, 0)]].


(** * Properties *)

(** ** The exception monad and the list primitives *)

Lemma bind_Ok {A B} (c : result A) (k : A -> result B) (b : B) :
  bind c k = Ok b -> exists a, c = Ok a /\ k a = Ok b.
Proof.
  destruct c as [a|e]; simpl; intros H; [exists a; auto | discriminate].
Qed.

Lemma mapM_map {A B} (f : A -> result B) (g : A -> B) (l : list A) :
  (forall a, In a l -> f a = Ok (g a)) -> mapM f l = Ok (map g l).
Proof.
  induction l as [|a l IH]; simpl; intros H; [reflexivity|].
  rewrite (H a (or_introl eq_refl)); simpl.
  rewrite IH by (intros; apply H; now right). reflexivity.
Qed.

Lemma mapM_Ok_inv {A B} (f : A -> result B) (l : list A) (bs : list B) :
  mapM f l = Ok bs -> Forall2 (fun a b => f a = Ok b) l bs.
Proof.
  revert bs; induction l as [|a l IH]; simpl; intros bs H.
  - injection H as <-. constructor.
  - apply bind_Ok in H as (b & Hb & H).
    apply bind_Ok in H as (bs' & Hbs & H).
    injection H as <-. constructor; auto.
Qed.

Lemma mapM_Forall2 {A B} (f : A -> result B) (l : list A) (bs : list B) :
  Forall2 (fun a b => f a = Ok b) l bs -> mapM f l = Ok bs.
Proof.
  induction 1 as [|a b l bs Hab _ IH]; simpl; [reflexivity|].
  now rewrite Hab, IH.
Qed.

Lemma mapM_raises {A B} (f : A -> result B) (l : list A) (a : A) :
  In a l -> raises (f a) -> raises (mapM f l).
Proof.
  induction l as [|x l IH]; simpl; [tauto|].
  intros [->|Hin] Ha.
  - destruct Ha as [e ->]. now exists e.
  - destruct (f x) as [b|e]; simpl; [|now exists e].
    destruct (IH Hin Ha) as [e ->]. now exists e.
Qed.

Lemma getitem_Ok {A} (l : list A) (i : nat) (a : A) :
  getitem l i = Ok a <-> nth_error l i = Some a.
Proof.
  unfold getitem. destruct (nth_error l i); split; intros H;
    try discriminate; now inversion H.
Qed.

Lemma getitem_lt {A} (l : list A) (i : nat) :
  (i < length l)%nat -> exists a, getitem l i = Ok a /\ In a l.
Proof.
  intros H. unfold getitem.
  destruct (nth_error l i) as [a|] eqn:E.
  - exists a. split; [reflexivity|]. eapply nth_error_In; eauto.
  - apply nth_error_None in E. lia.
Qed.

Lemma length_setitem {A} (l : list A) (i : nat) (x : A) :
  length (setitem l i x) = length l.
Proof.
  revert i; induction l as [|a l IH]; intros [|i]; simpl; auto.
Qed.

(** ** Sums *)

Lemma sum_acc (l : list Q) (a : Q) : fold_left Qplus l a == a + sum l.
Proof.
  unfold sum. revert a. induction l as [|x l IH]; intros a; simpl.
  - ring.
  - rewrite IH. rewrite (IH (0 + x)). ring.
Qed.

Lemma sum_cons (x : Q) (l : list Q) : sum (x :: l) == x + sum l.
Proof.
  unfold sum at 1. simpl. rewrite sum_acc. ring.
Qed.

Lemma sum_app (l1 l2 : list Q) : sum (l1 ++ l2) == sum l1 + sum l2.
Proof.
  induction l1 as [|x l1 IH]; simpl.
  - unfold sum at 2. simpl. ring.
  - rewrite !sum_cons, IH. ring.
Qed.

Lemma sum_nonneg (l : list Q) : Forall (fun x => 0 <= x) l -> 0 <= sum l.
Proof.
  induction 1 as [|x l Hx _ IH].
  - unfold sum; simpl. lra.
  - rewrite sum_cons. lra.
Qed.



Lemma sum_repeat (x : Q) (n : nat) : sum (repeat x n) == inject_Z (Z.of_nat n) * x.
Proof.
  induction n as [|n IH].
  - unfold sum; simpl. ring.
  - cbn [repeat]. rewrite sum_cons, IH, Nat2Z.inj_succ.
    unfold Z.succ. rewrite inject_Z_plus. ring.
Qed.

(** ** [min], [max] and [index] *)

Lemma fold_pick_In (pick : Q -> Q -> bool) (l : list Q) (x : Q) :
  let r := fold_left (fun best y => if pick best y then y else best) l x in
  r = x \/ In r l.
Proof.
  revert x; induction l as [|y l IH]; intros x; simpl; [now left|].
  destruct (IH (if pick x y then y else x)) as [H|H]; [|now right; right].
  destruct (pick x y); rewrite H; [right|]; now left.
Qed.

Lemma py_min_In (l : list Q) :
  l <> [] -> exists m, py_min l = Ok m /\ In m l.
Proof.
  destruct l as [|x l]; [congruence|]. intros _. simpl.
  eexists; split; [reflexivity|].
  destruct (fold_pick_In (fun best y => Qlt_bool y best) l x) as [H|H].
  - left. now rewrite H.
  - now right.
Qed.

Lemma py_max_In (l : list Q) :
  l <> [] -> exists m, py_max l = Ok m /\ In m l.
Proof.
  destruct l as [|x l]; [congruence|]. intros _. simpl.
  eexists; split; [reflexivity|].
  destruct (fold_pick_In (fun best y => Qlt_bool best y) l x) as [H|H].
  - left. now rewrite H.
  - now right.
Qed.

Lemma index_In (l : list Q) (x : Q) :
  In x l -> exists i c, index l x = Ok i /\ nth_error l i = Some c.
Proof.
  induction l as [|y l IH]; simpl; [tauto|]. intros H.
  destruct (Qeq_bool y x) eqn:E.
  - exists O, y. auto.
  - destruct H as [->|H].
    + apply Qeq_bool_neq in E. exfalso. apply E. reflexivity.
    + destruct (IH H) as (i & c & Hi & Hc). exists (S i), c.
      rewrite Hi. auto.
Qed.

Import Utils Core.

(** Reading the pool with the exact product as [pointPool] again. *)
Ltac fold_pointPool :=
  repeat match goal with
         | |- context [pointPool_with ?a ?b ?c ?d ?e ?f ?g ?h Qmult] =>
             change (pointPool_with a b c d e f g h Qmult) with (pointPool a b c d e f g h)
         end.

(** ** [normalizeToOne] *)

Lemma mapM_truediv (fdiv : Q -> Q -> Q) (s : Q) (vals : list Q) :
  ~ s == 0 ->
  mapM (fun val => truediv fdiv val s) vals = Ok (map (fun val => fdiv val s) vals).
Proof.
  intros Hs. apply mapM_map. intros a _. unfold truediv.
  destruct (Qeq_bool s 0) eqn:E; [|reflexivity].
  apply Qeq_bool_iff in E. contradiction.
Qed.






(** ** [transposeWeights] *)

Lemma contains_In (names : list string) (name : string) :
  contains names name = true <-> In name names.
Proof.
  unfold contains. rewrite existsb_exists. split.
  - intros (y & Hy & E). apply String.eqb_eq in E. now subst.
  - intros H. exists name. split; [assumption|apply String.eqb_refl].
Qed.

Lemma contains_not_In (names : list string) (name : string) :
  contains names name = false <-> ~ In name names.
Proof.
  rewrite <- contains_In. destruct (contains names name); split; congruence.
Qed.

Lemma filter_nil {A} (f : A -> bool) (l : list A) :
  (forall a, In a l -> f a = false) -> filter f l = [].
Proof.
  induction l as [|a l IH]; simpl; intros H; [reflexivity|].
  rewrite (H a (or_introl eq_refl)). apply IH. intros; apply H; now right.
Qed.

Lemma index_of_In (names : list string) (name : string) :
  In name names ->
  index_of names name = Ok (position names name) /\
  (position names name < length names)%nat.
Proof.
  induction names as [|y names IH]; simpl; [tauto|]. intros H.
  destruct (String.eqb y name) eqn:E; [split; [reflexivity|lia]|].
  destruct H as [->|H]; [rewrite String.eqb_refl in E; discriminate|].
  destruct (IH H) as [-> Hlt]. split; [reflexivity|lia].
Qed.

Lemma transposeRow (src tgt : list string) (r : list Q) :
  length r = length src ->
  mapM (fun skinClusterInf =>
          if contains src skinClusterInf then
            chunkIndex <- index_of src skinClusterInf ;;
            getitem r chunkIndex
          else Ok 0) tgt
  = Ok (map (column src r) tgt).
Proof.
  intros Hlen. apply mapM_map. intros t _. unfold column.
  destruct (contains src t) eqn:E; [|reflexivity].
  apply contains_In in E. destruct (index_of_In _ _ E) as [-> Hlt]. cbn [bind].
  apply getitem_Ok. rewrite <- Hlen in Hlt.
  now apply nth_error_nth'.
Qed.

Lemma sum_map_zero {A} (l : list A) (h : A -> Q) :
  (forall a, In a l -> h a == 0) -> sum (map h l) == 0.
Proof.
  induction l as [|a l IH]; simpl; intros H.
  - reflexivity.
  - rewrite sum_cons, (H a (or_introl eq_refl)), IH; [ring|].
    intros; apply H; now right.
Qed.

Lemma sum_map_ext {A} (l : list A) (h k : A -> Q) :
  (forall a, In a l -> h a == k a) -> sum (map h l) == sum (map k l).
Proof.
  induction l as [|a l IH]; simpl; intros H.
  - reflexivity.
  - rewrite !sum_cons, (H a (or_introl eq_refl)), IH; [ring|].
    intros; apply H; now right.
Qed.

Lemma sum_map_single (l : list string) (s : string) (x : Q) (h : string -> Q) :
  NoDup l -> In s l -> h s == 0 ->
  sum (map (fun t => if String.eqb s t then x else h t) l) == x + sum (map h l).
Proof.
  intros Hnd Hin Hs. induction Hnd as [|t l Hnotin Hnd IH]; [destruct Hin|].
  simpl. rewrite !sum_cons. destruct (String.eqb s t) eqn:E.
  - apply String.eqb_eq in E. subst t. rewrite Hs.
    rewrite (sum_map_ext l (fun t => if String.eqb s t then x else h t) h); [ring|].
    intros a Ha. destruct (String.eqb s a) eqn:E'; [|reflexivity].
    apply String.eqb_eq in E'. subst a. contradiction.
  - destruct Hin as [->|Hin]; [rewrite String.eqb_refl in E; discriminate|].
    rewrite (IH Hin). ring.
Qed.

Lemma column_cons (s : string) (src : list string) (x : Q) (r : list Q) (t : string) :
  column (s :: src) (x :: r) t = if String.eqb s t then x else column src r t.
Proof.
  unfold column, contains. simpl. rewrite (String.eqb_sym t s).
  destruct (String.eqb s t); reflexivity.
Qed.

Lemma sum_columns (src : list string) :
  forall (r : list Q) (tgt : list string),
    length r = length src -> NoDup src -> NoDup tgt -> incl src tgt ->
    sum (map (column src r) tgt) == sum r.
Proof.
  induction src as [|s src IH]; intros r tgt Hlen Hsrc Htgt Hincl.
  - destruct r; [|discriminate]. apply sum_map_zero. reflexivity.
  - destruct r as [|x r]; [discriminate|].
    inversion Hsrc as [|? ? Hnotin Hsrc']; subst.
    rewrite (sum_map_ext tgt (column (s :: src) (x :: r))
               (fun t => if String.eqb s t then x else column src r t))
      by (intros; rewrite column_cons; reflexivity).
    rewrite sum_map_single; auto.
    + rewrite sum_cons, IH; auto; [reflexivity|].
      intros a Ha. apply Hincl. now right.
    + apply Hincl. now left.
    + unfold column. apply contains_not_In in Hnotin. rewrite Hnotin. reflexivity.
Qed.

Lemma transposeWeights_value (rows : list (list Q)) (first : list Q)
    (src tgt : list string) :
  incl src tgt -> Forall (fun r => length r = length src) (first :: rows) ->
  transposeWeights (first :: rows) src tgt
  = Ok (map (fun r => map (column src r) tgt) (first :: rows)).
Proof.
  intros Hincl Hrows. unfold transposeWeights. cbn [getitem nth_error bind].
  inversion Hrows as [|? ? Hfirst _]; subst.
  rewrite Hfirst, Nat.eqb_refl. cbn [assert bind].
  rewrite filter_nil.
  2:{ intros a Ha. apply negb_false_iff, contains_In, Hincl, Ha. }
  cbn [assert bind]. rewrite filter_nil.
  2:{ intros a Ha. now apply negb_false_iff, contains_In. }
  cbn [assert bind]. apply mapM_map. intros r Hr.
  apply transposeRow. rewrite Forall_forall in Hrows. now apply Hrows.
Qed.

(** C9: a source influence that the target list lacks makes
    [transposeWeights] raise; no row is returned. *)
Theorem transposeWeights_missing_influence_raises (rows : list (list Q))
    (src tgt : list string) :
  (exists name, In name src /\ ~ In name tgt) ->
  raises (transposeWeights rows src tgt) /\
  forall out, transposeWeights rows src tgt <> Ok out.
Proof.
  intros (name & Hsrc & Htgt).
  assert (R : raises (transposeWeights rows src tgt)).
  { unfold transposeWeights.
    destruct (getitem rows 0) as [first|e]; [|now exists e]. cbn [bind].
    destruct (length first =? length src)%nat; [|now exists AssertionError].
    cbn [assert bind].
    destruct (filter (fun n => negb (contains tgt n)) src) as [|m ms] eqn:E.
    - exfalso. assert (H : In name (filter (fun n => negb (contains tgt n)) src)).
      { apply filter_In. split; [assumption|].
        apply negb_true_iff. now apply contains_not_In. }
      rewrite E in H. destruct H.
    - now exists AssertionError. }
  split; [assumption|]. intros out H. destruct R as [e He]. congruence.
Qed.

Lemma transposeWeights_missing_influence_raises_witness :
  raises (transposeWeights [[1 # 2; 1 # 2]] ["A"; "Z"]%string ["A"; "B"]%string) /\
  forall out,
    transposeWeights [[1 # 2; 1 # 2]] ["A"; "Z"]%string ["A"; "B"]%string <> Ok out.
Proof.
  apply transposeWeights_missing_influence_raises.
  exists "Z"%string. split.
  - simpl. auto.
  - simpl. intros [H|[H|[]]]; discriminate.
Defined.

(** C10: when every source label is among the target labels, labels are
    unique within each list and every row has one entry per source label,
    [transposeWeights] returns (given at least one row) one row per input
    row, each with one entry per target label and with the sum of the row
    it comes from. *)
Theorem transposeWeights_preserves_mass (rows : list (list Q))
    (src tgt : list string) :
  NoDup src -> NoDup tgt -> incl src tgt ->
  Forall (fun r => length r = length src) rows ->
  (rows <> [] -> returns (transposeWeights rows src tgt)) /\
  forall out, transposeWeights rows src tgt = Ok out ->
    Forall2 (fun r o => length o = length tgt /\ sum o == sum r) rows out.
Proof.
  intros Hsrc Htgt Hincl Hrows. destruct rows as [|first rows].
  { split; [congruence|]. intros out H. discriminate. }
  rewrite (transposeWeights_value Hincl Hrows). split.
  - intros _. eexists; reflexivity.
  - intros out H. injection H as <-.
    assert (G : forall l, Forall (fun r => length r = length src) l ->
                Forall2 (fun r o => length o = length tgt /\ sum o == sum r)
                        l (map (fun r => map (column src r) tgt) l)).
    { induction 1 as [|r rs Hr _ IH]; simpl; constructor; auto.
      split; [apply length_map|]. now apply sum_columns. }
    now apply (G (first :: rows)).
Qed.

Lemma transposeWeights_preserves_mass_witness :
  (([[3 # 10; 7 # 10]] : list (list Q)) <> [] ->
   returns (transposeWeights [[3 # 10; 7 # 10]] ["A"; "B"]%string ["B"; "A"; "C"]%string)) /\
  forall out,
    transposeWeights [[3 # 10; 7 # 10]] ["A"; "B"]%string ["B"; "A"; "C"]%string = Ok out ->
    Forall2 (fun r o => length o = 3%nat /\ sum o == sum r) [[3 # 10; 7 # 10]] out.
Proof.
  apply (@transposeWeights_preserves_mass [[3 # 10; 7 # 10]]
           ["A"; "B"]%string ["B"; "A"; "C"]%string).
  - repeat constructor; simpl; intuition discriminate.
  - repeat constructor; simpl; intuition discriminate.
  - intros a [<-|[<-|[]]]; simpl; auto.
  - repeat constructor.
Defined.

(** ** [getVertNeighborSamples] *)

Lemma dict_set_fresh {V} (d : list (Z * V)) (k : Z) (v : V) :
  ~ In k (map fst d) -> dict_set d k v = d ++ [(k, v)].
Proof.
  induction d as [|[k' v'] d IH]; simpl; intros H; [reflexivity|].
  destruct (Z.eqb_spec k' k) as [->|_]; [tauto|].
  rewrite IH by tauto. reflexivity.
Qed.

Lemma fold_dict_set {V} (f : Z -> V) (keys : list Z) :
  NoDup keys ->
  forall d, (forall k, In k keys -> ~ In k (map fst d)) ->
    fold_left (fun acc i => dict_set acc i (f i)) keys d
    = d ++ map (fun i => (i, f i)) keys.
Proof.
  induction 1 as [|k keys Hk Hnd IH]; intros d Hd; simpl.
  - now rewrite app_nil_r.
  - rewrite dict_set_fresh by (apply Hd; now left).
    rewrite IH.
    + now rewrite <- app_assoc.
    + intros k' Hk'. rewrite map_app, in_app_iff. simpl.
      intros [H|[H|[]]]; [|subst; contradiction].
      apply (Hd k'); [now right|assumption].
Qed.

Lemma NoDup_strided (total step : Z) : (0 < step)%Z -> NoDup (strided total step).
Proof.
  intros Hs. unfold strided. apply Finite.Injective_map_NoDup; [|apply seq_NoDup].
  intros a b H. apply Z.mul_cancel_r in H; lia.
Qed.

Lemma In_strided (total step i : Z) :
  (0 < step)%Z ->
  In i (strided total step) <-> (0 <= i < total)%Z /\ (i mod step = 0)%Z.
Proof.
  intros Hs. unfold strided. rewrite in_map_iff. split.
  - intros (k & <- & Hk). apply in_seq in Hk. split; [|now apply Z.mod_mul; lia].
    destruct (Z.le_gt_cases total 0) as [Hle|Hgt].
    + assert ((total + step - 1) / step <= 0)%Z.
      { assert ((total + step - 1) / step < 1)%Z; [|lia].
        apply Z.div_lt_upper_bound; lia. }
      lia.
    + assert (Z.of_nat k < (total + step - 1) / step)%Z by lia.
      assert (step * ((total + step - 1) / step) <= total + step - 1)%Z
        by (apply Z.mul_div_le; lia).
      nia.
  - intros [Hi Hm]. apply Z.mod_divide in Hm; [|lia]. destruct Hm as [q ->].
    assert (0 <= q)%Z by nia.
    exists (Z.to_nat q). split; [lia|]. apply in_seq. split; [lia|]. simpl.
    assert (q + 1 <= (total + step - 1) / step)%Z; [|lia].
    apply Z.div_le_lower_bound; nia.
Qed.

Lemma getVertNeighborSamples_of_step (total : Z) (adj : Z -> list Z) (samples step : Z) :
  getVertNeighborSamples_step total samples = Ok step -> (0 < step)%Z ->
  getVertNeighborSamples total adj samples = Ok (neighborsOf adj (strided total step)).
Proof.
  intros Hstep Hpos. unfold getVertNeighborSamples. rewrite Hstep. cbn [bind].
  unfold py_range. destruct (Z.eqb_spec step 0) as [->|_]; [lia|].
  destruct (Z.ltb_spec 0 step) as [_|]; [|lia]. cbn [bind].
  replace (total - 0 + step - 1)%Z with (total + step - 1)%Z by lia.
  rewrite (map_ext (fun k => (0 + Z.of_nat k * step)%Z) (fun k => (Z.of_nat k * step)%Z))
    by (intros; lia).
  fold (strided total step).
  rewrite fold_dict_set; [reflexivity|now apply NoDup_strided|auto].
Qed.

(** C3, as the code has it: for a positive [sampleCount] the stride is
    [totalPoints / sampleCount] (rounded down) while [sampleCount] is at
    most [totalPoints], so it is at least 1, and it is 1 with every index
    sampled when the two are equal; when [sampleCount] exceeds [totalPoints]
    (of at least 2) the stride is [totalPoints - 1] and only the first and
    the last index are sampled. *)
Theorem getVertNeighborSamples_stride (total : Z) (adj : Z -> list Z) (samples : Z) :
  (0 < samples)%Z -> (0 <= total)%Z ->
  (samples <= total ->
     1 <= total / samples /\
     getVertNeighborSamples_step total samples = Ok (total / samples) /\
     getVertNeighborSamples total adj samples
     = Ok (neighborsOf adj (strided total (total / samples))))%Z /\
  (samples = total ->
     getVertNeighborSamples total adj samples
     = Ok (neighborsOf adj (map Z.of_nat (seq 0 (Z.to_nat total))))) /\
  (total < samples -> 2 <= total ->
     getVertNeighborSamples_step total samples = Ok (total - 1) /\
     getVertNeighborSamples total adj samples
     = Ok (neighborsOf adj [0; total - 1]))%Z.
Proof.
  intros Hs Ht.
  assert (A : (samples <= total ->
     1 <= total / samples /\
     getVertNeighborSamples_step total samples = Ok (total / samples) /\
     getVertNeighborSamples total adj samples
     = Ok (neighborsOf adj (strided total (total / samples))))%Z).
  { intros Hle.
    assert (H1 : (1 <= total / samples)%Z) by (apply Z.div_le_lower_bound; lia).
    assert (H2 : getVertNeighborSamples_step total samples = Ok (total / samples)%Z).
    { unfold getVertNeighborSamples_step.
      destruct (Z.eqb_spec samples 0); [lia|].
      rewrite Z.quot_div_nonneg by lia.
      destruct (Z.eqb_spec (total / samples) 0) as [E|_]; [|reflexivity].
      rewrite E in H1. lia. }
    repeat split; auto. apply getVertNeighborSamples_of_step; auto.
    apply Z.lt_le_trans with (m := 1%Z); [reflexivity|exact H1]. }
  split; [exact A|]. split.
  - intros ->. destruct A as (_ & _ & ->); [lia|].
    rewrite Z.div_same by lia. unfold strided. f_equal. f_equal.
    replace ((total + 1 - 1) / 1)%Z with total by (rewrite Z.div_1_r; lia).
    apply map_ext. intros; lia.
  - intros Hlt H2.
    assert (Hq : getVertNeighborSamples_step total samples = Ok (total - 1)%Z).
    { unfold getVertNeighborSamples_step.
      destruct (Z.eqb_spec samples 0); [lia|].
      rewrite Z.quot_small by lia. reflexivity. }
    split; [exact Hq|].
    rewrite (getVertNeighborSamples_of_step total adj samples Hq) by lia.
    unfold strided. f_equal. f_equal.
    replace (total + (total - 1) - 1)%Z with (2 * (total - 1))%Z by lia.
    rewrite Z.div_mul by lia. change (Z.to_nat 2) with 2%nat. cbn [seq map].
    replace (Z.of_nat 0 * (total - 1))%Z with 0%Z by lia.
    replace (Z.of_nat 1 * (total - 1))%Z with (total - 1)%Z by lia.
    reflexivity.
Qed.

Lemma getVertNeighborSamples_stride_witness :
  (3 <= 10 ->
     1 <= 10 / 3 /\
     getVertNeighborSamples_step 10 3 = Ok (10 / 3) /\
     getVertNeighborSamples 10 (fun i => [i + 1]) 3
     = Ok (neighborsOf (fun i => [i + 1]) (strided 10 (10 / 3))))%Z /\
  (3 = 10 ->
     getVertNeighborSamples 10 (fun i => [i + 1]) 3
     = Ok (neighborsOf (fun i => [i + 1]) (map Z.of_nat (seq 0 (Z.to_nat 10)))))%Z /\
  (10 < 3 -> 2 <= 10 ->
     getVertNeighborSamples_step 10 3 = Ok (10 - 1) /\
     getVertNeighborSamples 10 (fun i => [i + 1]) 3
     = Ok (neighborsOf (fun i => [i + 1]) [0; 10 - 1]))%Z.
Proof.
  apply (@getVertNeighborSamples_stride 10 (fun i => [i + 1]%Z) 3); lia.
Defined.

(** C3 as stated fails when [sampleCount] exceeds [totalPoints]: with 5
    points and 10 samples the stride is 4, not 1, and the indices 1, 2 and
    3 are not sampled. *)
Lemma getVertNeighborSamples_oversampled :
  (5 <= 10)%Z /\
  getVertNeighborSamples_step 5 10 = Ok 4%Z /\
  getVertNeighborSamples 5 (fun _ => []) 10 = Ok [(0, []); (4, [])]%Z /\
  ~ (getVertNeighborSamples_step 5 10 = Ok 1%Z /\
     forall i, (0 <= i < 5)%Z ->
       exists d, getVertNeighborSamples 5 (fun _ => []) 10 = Ok d /\ In i (map fst d)).
Proof.
  split; [lia|]. split; [reflexivity|]. split; [reflexivity|].
  intros [H _]. discriminate.
Qed.

(** ** The closest-point functions *)

Lemma In_firstn {A} (n : nat) (l : list A) (x : A) :
  In x (firstn n l) -> In x l.
Proof.
  intros H. rewrite <- (firstn_skipn n l). apply in_or_app. now left.
Qed.

Lemma length_insert (x : Q * nat) (l : list (Q * nat)) :
  length (insert x l) = S (length l).
Proof.
  induction l as [|y l IH]; simpl; [reflexivity|].
  destruct (pair_lt y x); simpl; auto.
Qed.

Lemma length_sorted (l : list (Q * nat)) : length (sorted l) = length l.
Proof.
  induction l as [|x l IH]; simpl; [reflexivity|].
  now rewrite length_insert, IH.
Qed.

Lemma In_insert (x y : Q * nat) (l : list (Q * nat)) :
  In y (insert x l) -> y = x \/ In y l.
Proof.
  induction l as [|z l IH]; simpl.
  - intros [<-|[]]. now left.
  - destruct (pair_lt z x); simpl.
    + intros [<-|H]; [right; now left|]. destruct (IH H); auto.
    + intros [<-|H]; auto.
Qed.

Lemma In_sorted (y : Q * nat) (l : list (Q * nat)) : In y (sorted l) -> In y l.
Proof.
  induction l as [|x l IH]; simpl; [tauto|].
  intros H. apply In_insert in H as [->|H]; auto.
Qed.

Lemma length_enumerate {A} (l : list A) : length (enumerate l) = length l.
Proof.
  unfold enumerate. rewrite length_combine, length_seq. apply Nat.min_id.
Qed.

Lemma In_combine_seq {A} (l : list A) :
  forall (s k : nat) (a : A),
    In (k, a) (combine (seq s (length l)) l) ->
    (s <= k < s + length l)%nat /\ nth_error l (k - s) = Some a.
Proof.
  induction l as [|x l IH]; intros s k a; simpl; [tauto|].
  intros [E|H].
  - injection E as <- <-. rewrite Nat.sub_diag. split; [lia|reflexivity].
  - apply IH in H as [Hk Hn]. split; [lia|].
    replace (k - s)%nat with (S (k - S s)) by lia. exact Hn.
Qed.

Lemma In_enumerate {A} (l : list A) (k : nat) (a : A) :
  In (k, a) (enumerate l) -> (k < length l)%nat /\ nth_error l k = Some a.
Proof.
  intros H. apply In_combine_seq in H as [Hk Hn].
  rewrite Nat.sub_0_r in Hn. split; [lia|assumption].
Qed.

Lemma clampNeighbors_le (targets : list vec) (k : Z) :
  targets <> [] -> (1 <= k)%Z -> (1 <= clampNeighbors targets k)%Z.
Proof.
  intros Ht Hk. unfold clampNeighbors.
  destruct (Z.ltb_spec (Z.of_nat (length targets)) k); [|assumption].
  destruct targets; [congruence|]. simpl length. lia.
Qed.

Section BruteForce.

Variable norm : vec -> Q.

Lemma bruteForceRow_lengths (targets : list vec) (k : Z) (point : vec) :
  let row := bruteForceRow norm targets k point in
  length (fst row) = length (snd row) /\
  length (fst row) = Z.to_nat (Z.min k (Z.of_nat (length targets))).
Proof.
  unfold bruteForceRow. cbn [fst snd]. rewrite !length_map. split; [reflexivity|].
  rewrite length_firstn, length_sorted, length_map, length_enumerate.
  destruct (Z.ltb_spec (Z.of_nat (length targets)) k); lia.
Qed.

Lemma bruteForceRow_indices (targets : list vec) (k : Z) (point : vec) :
  Forall (fun j => (j < length targets)%nat) (snd (bruteForceRow norm targets k point)).
Proof.
  unfold bruteForceRow. cbn [snd]. apply Forall_forall. intros j Hj.
  apply in_map_iff in Hj as ([d j'] & <- & Hin). apply In_firstn in Hin.
  apply In_sorted in Hin. apply in_map_iff in Hin as ([j'' t] & E & Hin).
  injection E as _ <-. now apply In_enumerate in Hin.
Qed.

Lemma bruteForceRow_distances (targets : list vec) (k : Z) (point : vec) :
  (forall v, 0 <= norm v) ->
  Forall (fun x => 0 <= x) (fst (bruteForceRow norm targets k point)).
Proof.
  intros Hn. unfold bruteForceRow. cbn [fst]. apply Forall_forall. intros d Hd.
  apply in_map_iff in Hd as ([d' j'] & <- & Hin). apply In_firstn in Hin.
  apply In_sorted in Hin. apply in_map_iff in Hin as ([j'' t] & E & Hin).
  injection E as <- _. apply Hn.
Qed.

Lemma closestPointBruteForce_contract :
  (forall v, 0 <= norm v) -> knnContract (closestPointBruteForce norm).
Proof.
  intros Hn points targets k Ht Hk. unfold closestPointBruteForce.
  eexists; eexists; split; [reflexivity|]. split; [now rewrite !length_map|].
  unfold neighborRows. destruct Hk as [->|Hk]; [constructor|].
  pose proof (clampNeighbors_le Ht Hk) as Hc.
  induction points as [|p points IH]; cbn [map]; constructor; auto.
  destruct (bruteForceRow_lengths targets (clampNeighbors targets k) p) as [L1 L2].
  repeat split.
  - exact L1.
  - intros E. rewrite E in L2. simpl in L2.
    destruct targets; [congruence|]. simpl length in L2. lia.
  - now apply bruteForceRow_distances.
  - apply bruteForceRow_indices.
Qed.

End BruteForce.

Lemma of_rows_not_flat {A} (D : list (list A)) (l : list A) :
  D <> [] -> of_rows D <> of_flat l.
Proof.
  destruct D as [|r D]; [congruence|]. intros _ H.
  unfold of_rows, of_flat in H. destruct l; simpl in H; inversion H.
Qed.

Lemma wrap_items_flat {A} (l : list A) :
  wrap_items (of_flat l) = Ok (of_rows (map (fun x => [x]) l)).
Proof.
  unfold wrap_items, of_rows, of_flat. now rewrite !map_map.
Qed.

(** C8: with one neighbour asked for, both closest-point functions return
    one single-element row per query point, a shape [[n][1]]: the tree
    version wraps what scipy returns (scipy squeezes the last dimension
    when [k] is 1), and the result is not a flat array. *)
Theorem closestPoint_k1_shape (norm : vec -> Q)
    (query : list vec -> list vec -> Z -> result (pyarr Q * pyarr nat))
    (points targets : list vec) :
  points <> [] -> targets <> [] ->
  (exists d i, query targets points 1%Z = Ok (of_flat d, of_flat i) /\
               length d = length points /\ length i = length points) ->
  (exists D I,
      closestPointKdTree (Some query) points targets 1%Z = Ok (of_rows D, of_rows I) /\
      length D = length points /\ length I = length points /\
      Forall (fun r => length r = 1%nat) D /\ Forall (fun r => length r = 1%nat) I /\
      (forall l, of_rows D <> of_flat l) /\ (forall l, of_rows I <> of_flat l)) /\
  (exists D I,
      closestPointBruteForce norm points targets 1%Z = Ok (D, I) /\
      length D = length points /\ length I = length points /\
      Forall (fun r => length r = 1%nat) D /\ Forall (fun r => length r = 1%nat) I).
Proof.
  intros Hp Ht (d & i & Hq & Ld & Li).
  assert (Hc : clampNeighbors targets 1 = 1%Z).
  { unfold clampNeighbors. destruct (Z.ltb_spec (Z.of_nat (length targets)) 1); [|reflexivity].
    destruct targets; [congruence|]. simpl length in *. lia. }
  split.
  - exists (map (fun x => [x]) d), (map (fun x => [x]) i).
    unfold closestPointKdTree. rewrite Hc, Hq. cbn [bind Z.eqb Pos.eqb].
    rewrite !wrap_items_flat. cbn [bind].
    split; [reflexivity|]. rewrite !length_map.
    repeat split; auto.
    + apply Forall_forall. intros r Hr. apply in_map_iff in Hr as (x & <- & _). reflexivity.
    + apply Forall_forall. intros r Hr. apply in_map_iff in Hr as (x & <- & _). reflexivity.
    + intros l. apply (@of_rows_not_flat Q (map (fun x => [x]) d)).
      destruct d; [|discriminate]. destruct points; [congruence|discriminate].
    + intros l. apply (@of_rows_not_flat nat (map (fun x => [x]) i)).
      destruct i; [|discriminate]. destruct points; [congruence|discriminate].
  - unfold closestPointBruteForce. rewrite Hc.
    eexists; eexists; split; [reflexivity|]. rewrite !length_map.
    assert (L : forall p, length (fst (bruteForceRow norm targets 1 p)) = 1%nat /\
                          length (snd (bruteForceRow norm targets 1 p)) = 1%nat).
    { intros p. destruct (bruteForceRow_lengths norm targets 1 p) as [L1 L2].
      rewrite <- L1, L2. destruct targets; [congruence|]. simpl length. lia. }
    repeat split; auto.
    + apply Forall_forall. intros r Hr. apply in_map_iff in Hr as (x & <- & Hx).
      apply in_map_iff in Hx as (p & <- & _). apply L.
    + apply Forall_forall. intros r Hr. apply in_map_iff in Hr as (x & <- & Hx).
      apply in_map_iff in Hx as (p & <- & _). apply L.
Qed.

Lemma closestPoint_k1_shape_witness :
  (exists D I,
      closestPointKdTree (Some (squeezingQuery norm1))
        [(1, 0, 0); (8, 0, 0)] [(0, 0, 0); (10, 0, 0)] 1%Z = Ok (of_rows D, of_rows I) /\
      length D = 2%nat /\ length I = 2%nat /\
      Forall (fun r => length r = 1%nat) D /\ Forall (fun r => length r = 1%nat) I /\
      (forall l, of_rows D <> of_flat l) /\ (forall l, of_rows I <> of_flat l)) /\
  (exists D I,
      closestPointBruteForce norm1 [(1, 0, 0); (8, 0, 0)] [(0, 0, 0); (10, 0, 0)] 1%Z
      = Ok (D, I) /\
      length D = 2%nat /\ length I = 2%nat /\
      Forall (fun r => length r = 1%nat) D /\ Forall (fun r => length r = 1%nat) I).
Proof.
  apply (@closestPoint_k1_shape norm1 (squeezingQuery norm1)
           [(1, 0, 0); (8, 0, 0)] [(0, 0, 0); (10, 0, 0)]).
  - discriminate.
  - discriminate.
  - exists [1; 2], [0%nat; 1%nat]. split; [vm_compute; reflexivity|]. split; reflexivity.
Defined.

(** ** The checks of the two policies *)

Lemma validate_Ok (W : list (list Q)) (B : pyobj) (P N : list vec) (f b : bool) :
  validate W B P N f = Ok b -> b = false.
Proof.
  unfold validate. intros H.
  apply bind_Ok in H as (_ & _ & H). apply bind_Ok in H as (_ & _ & H).
  destruct B; simpl in H; try discriminate; now injection H.
Qed.

Lemma validate_arrays (W : list (list Q)) (B : pyobj) (P N : list vec) (f : bool) :
  B <> BuiltinFunction -> (N = [] \/ length N = length P) -> (f = true -> N <> []) ->
  validate W B P N f = Ok false.
Proof.
  intros HB HN Hf. unfold validate. destruct N as [|n N].
  - destruct f; [now destruct Hf|]. destruct B; simpl; congruence.
  - destruct HN as [HN|HN]; [discriminate|]. rewrite HN, Nat.eqb_refl.
    destruct B; simpl; congruence.
Qed.

(** The part of C5 that holds: normal filtering without target normals is
    refused by both policies before anything is computed. *)
Lemma policies_require_normals (norm : vec -> Q) (W : list (list Q)) (B : pyobj)
    (P S N2 : list vec) (count : Z) (mult : Q) (f : option closestPoint) (tol : Q) :
  closestNeighborsWeights norm W B P S [] N2 count mult f true tol = Raise Exception /\
  closestPointWeights norm W B P S [] N2 f true tol = Raise Exception.
Proof.
  split; reflexivity.
Qed.

(** A blend-weight array, whatever its length, passes the checks and is
    left unused. *)
Lemma validate_ignores_blendWeights (W : list (list Q)) (l : list Q) (P N : list vec)
    (f : bool) :
  validate W (NdArray l) P N f = validate W (NdArray []) P N f /\
  validate W (PyList l) P N f = validate W (NdArray []) P N f.
Proof.
  unfold validate. split; reflexivity.
Qed.

(** Neither policy looks at the blend-weight array it is given: any two
    arrays give the same result. *)
Lemma policies_ignore_blendWeights (norm : vec -> Q) (W : list (list Q))
    (l l' : list Q) (P S N1 N2 : list vec) (count : Z) (mult : Q)
    (f : option closestPoint) (filter : bool) (tol : Q) :
  closestNeighborsWeights norm W (NdArray l) P S N1 N2 count mult f filter tol
  = closestNeighborsWeights norm W (NdArray l') P S N1 N2 count mult f filter tol /\
  closestPointWeights norm W (NdArray l) P S N1 N2 f filter tol
  = closestPointWeights norm W (NdArray l') P S N1 N2 f filter tol.
Proof.
  unfold closestNeighborsWeights, closestPointWeights.
  destruct (validate_ignores_blendWeights W l P N1 filter) as [-> _].
  destruct (validate_ignores_blendWeights W l' P N1 filter) as [-> _].
  destruct (validate W (NdArray []) P N1 filter) as [b|e] eqn:E; [|split; reflexivity].
  apply validate_Ok in E. subst b. split; reflexivity.
Qed.

(** C5, the part the code misses: a blend-weight array of length 1 given
    with two weight vectors is not refused; both policies return their
    resampled weights. *)
Theorem policies_accept_mismatched_blendWeights :
  closestNeighborsWeights norm1 [[1; 0]; [0; 1]] (NdArray [1 # 2])
    [(1, 0, 0)] [(0, 0, 0); (10, 0, 0)] [] [] 2 2 None false 0
  = Ok {| weights := [[1; 0]]; blendWeights := [] |} /\
  closestPointWeights norm1 [[1; 0]; [0; 1]] (NdArray [1 # 2])
    [(1, 0, 0)] [(0, 0, 0); (10, 0, 0)] [] [] None false 0
  = Ok {| weights := [[1; 0]]; blendWeights := [] |}.
Proof.
  split; vm_compute; reflexivity.
Qed.

(** ** Blend weights *)

Lemma pointWeights_no_blend (W : list (list Q)) (B : pyobj)
    (idxs : list nat) (dists w : list Q) (b : option blendval) :
  pointWeights W B false idxs dists = Ok (w, b) -> b = None.
Proof.
  unfold pointWeights. destruct (length idxs =? 1)%nat.
  - intros H. apply bind_Ok in H as (? & _ & H). apply bind_Ok in H as (? & _ & H).
    now injection H.
  - intros H. repeat (apply bind_Ok in H as (? & _ & H)). now injection H.
Qed.

Lemma collect_no_blend (perPoint : list (list Q * option blendval)) :
  Forall (fun wb => snd wb = None) perPoint ->
  blendWeights (collect perPoint) = [] /\
  length (weights (collect perPoint)) = length perPoint.
Proof.
  intros H. unfold collect. cbn [blendWeights weights]. split; [|apply length_map].
  induction H as [|[w b] l Hb _ IH]; simpl; [reflexivity|].
  simpl in Hb. now rewrite Hb, IH.
Qed.

(** Whatever is passed as blend weights, a call of the closest-neighbors
    policy that returns has an empty ["blendWeights"] list. *)
Lemma closestNeighborsWeights_no_blendWeights (norm : vec -> Q) (W : list (list Q))
    (B : pyobj) (P S N1 N2 : list vec) (count : Z) (mult : Q)
    (f : option closestPoint) (filter : bool) (tol : Q) (r : weightData) :
  closestNeighborsWeights norm W B P S N1 N2 count mult f filter tol = Ok r ->
  blendWeights r = [].
Proof.
  unfold closestNeighborsWeights. intros H.
  apply bind_Ok in H as (b & Hb & H). apply validate_Ok in Hb. subst b.
  apply bind_Ok in H as ([D I] & _ & H).
  apply bind_Ok in H as (perPoint & Hp & H). injection H as <-.
  apply collect_no_blend. apply mapM_Ok_inv in Hp.
  induction Hp as [|i [w b] l l' Hi _ IH]; constructor; auto.
  unfold neighborsPoint in Hi. apply bind_Ok in Hi as ([idxs dists] & _ & Hi).
  simpl. eapply pointWeights_no_blend; eauto.
Qed.

(** C1, on the code: two saved points with the blend weights 1/2 and 1/3
    lie at the distances 1 and 3 of the target; the pool has both, the
    weights are blended, and no blend weight comes back where one entry,
    1/2 * 3/4 + 1/3 * 1/4, is due. *)
Theorem closestNeighborsWeights_drops_blendWeights :
  pointPool [] [] false 0 [[1; 3]] [[0; 1]]%nat 2 4 0 = Ok ([0; 1]%nat, [1; 3]) /\
  exists w,
    closestNeighborsWeights norm1 [[1; 0]; [0; 1]] (NdArray [1 # 2; 1 # 3])
      [(1, 0, 0)] [(0, 0, 0); (4, 0, 0)] [] [] 2 4 None false 0
    = Ok {| weights := [w]; blendWeights := [] |} /\
    Forall2 Qeq w [3 # 4; 1 # 4].
Proof.
  split; [vm_compute; reflexivity|].
  eexists. split; [vm_compute; reflexivity|].
  repeat constructor.
Qed.

(** Were the flag set, the entry appended for a blended pool would be the
    summed weight vectors of the pool, not a number: the blend branch reads
    [closesetIndexWeights], never [allSavedBlendWeights]. *)
Lemma pointWeights_blend_branch :
  exists v,
    pointWeights [[1; 0]; [0; 1]] (NdArray [1 # 2; 1 # 3]) true [0; 1]%nat [1; 3]
    = Ok (v, Some (Vector v)) /\
    vec_eq v [3 # 4; 1 # 4].
Proof.
  eexists. split; [vm_compute; reflexivity|]. repeat constructor.
Qed.

(** ** The closest-point policy with normal filtering *)

(** What the filtered closest-point policy returns for a target: the row
    of the match found if its index is not 0, else the row of the nearest
    saved point. *)
Lemma closestPoint_point_filtered (W : list (list Q)) (B : pyobj) (N1 N2 : list vec)
    (tol : Q) (D : list (list Q)) (I : list (list nat)) (i nearest : nat)
    (indexRow : list nat) (distRow : list Q) (found : option nat) :
  getitem I i = Ok indexRow -> getitem indexRow 0 = Ok nearest ->
  getitem D i = Ok distRow ->
  closestNormalMatch N1 N2 tol I i (seq 0 (length distRow)) = Ok found ->
  closestPoint_point W B N1 N2 true tol false D I i
  = (w <- getitem W (match found with
                     | Some (S k) => S k
                     | _ => nearest
                     end) ;;
     Ok (w, None)).
Proof.
  intros HI H0 HD Hf. unfold closestPoint_point.
  rewrite HI. cbn [bind]. rewrite H0. cbn [bind]. rewrite HD. cbn [bind].
  rewrite Hf. cbn [bind]. destruct found as [[|k]|]; reflexivity.
Qed.

(** C4, on the code: saved point 0 is far and faces the way of the target,
    saved point 1 is nearest and faces the other way.  The first candidate
    that passes the filter is point 0, but the row returned is that of
    point 1: the match found is the index 0, which tests false. *)
Theorem closestPointWeights_index_zero_match :
  closestPointBruteForce norm1 [(1, 0, 0); (1, 0, 0)] [(10, 0, 0); (0, 0, 0)] 2%Z
  = Ok ([[1; 9]; [1; 9]], [[1; 0]; [1; 0]]%nat) /\
  normalDot [(0, 0, 1); (0, 0, 1)] [(0, 0, 1); (0, 0, -1)] 0 1 = Ok (-1) /\
  normalDot [(0, 0, 1); (0, 0, 1)] [(0, 0, 1); (0, 0, -1)] 0 0 = Ok 1 /\
  closestNormalMatch [(0, 0, 1); (0, 0, 1)] [(0, 0, 1); (0, 0, -1)] 0
    [[1; 0]; [1; 0]]%nat 0 [0; 1]%nat = Ok (Some 0%nat) /\
  closestPointWeights norm1 [[1; 0]; [0; 1]] (PyList [])
    [(1, 0, 0); (1, 0, 0)] [(10, 0, 0); (0, 0, 0)]
    [(0, 0, 1); (0, 0, 1)] [(0, 0, 1); (0, 0, -1)] None true 0
  = Ok {| weights := [[0; 1]; [0; 1]]; blendWeights := [] |}.
Proof.
  repeat split; vm_compute; reflexivity.
Qed.

(** ** Arithmetic of vectors *)

Lemma sum_map_scale (c : Q) (v : list Q) : sum (map (fun x => x * c) v) == sum v * c.
Proof.
  induction v as [|x v IH]; simpl.
  - unfold sum; simpl. ring.
  - rewrite !sum_cons, IH. ring.
Qed.

Lemma sum_vec_eq (v w : list Q) : vec_eq v w -> sum v == sum w.
Proof.
  induction 1 as [|x y v w Hxy _ IH]; [reflexivity|].
  rewrite !sum_cons, Hxy, IH. reflexivity.
Qed.

Lemma vec_eq_refl (v : list Q) : vec_eq v v.
Proof.
  induction v; constructor; auto. reflexivity.
Qed.

Lemma vec_eq_trans (u v w : list Q) : vec_eq u v -> vec_eq v w -> vec_eq u w.
Proof.
  intros H. revert w. induction H as [|x y u v Hxy _ IH]; intros w Hw.
  - inversion Hw. constructor.
  - inversion Hw as [|? z ? w' Hyz Hvw]; subst.
    constructor; [now rewrite Hxy|auto].
Qed.

Lemma vec_eq_sym (v w : list Q) : vec_eq v w -> vec_eq w v.
Proof.
  induction 1; constructor; auto. now symmetry.
Qed.

Lemma vec_eq_length (v w : list Q) : vec_eq v w -> length v = length w.
Proof.
  induction 1; simpl; auto.
Qed.

Lemma vec_eq_map (f g : Q -> Q) (v w : list Q) :
  (forall x y, x == y -> f x == g y) -> vec_eq v w -> vec_eq (map f v) (map g w).
Proof.
  intros Hfg. induction 1; simpl; constructor; auto.
Qed.

Lemma sum_rev (v : list Q) : sum (rev v) == sum v.
Proof.
  induction v as [|x v IH]; simpl; [reflexivity|].
  rewrite sum_app, !sum_cons, IH. change (sum []) with 0. ring.
Qed.

Lemma sum_pos_nonzero (v : list Q) :
  Forall (fun x => 0 <= x) v -> any v = true -> 0 < sum v.
Proof.
  induction 1 as [|x v Hx Hv IH]; simpl; [discriminate|].
  rewrite sum_cons. pose proof (sum_nonneg Hv) as Hs.
  destruct (Qeq_bool x 0) eqn:E; simpl.
  - intros H. apply IH in H. lra.
  - intros _. apply Qeq_bool_neq in E. lra.
Qed.

Lemma any_false_zero (v : list Q) : any v = false -> Forall (fun x => x == 0) v.
Proof.
  induction v as [|x v IH]; simpl; [constructor|].
  destruct (Qeq_bool x 0) eqn:E; simpl; [|discriminate].
  intros H. constructor; auto. now apply Qeq_bool_iff.
Qed.

Lemma zero_any_false (v : list Q) : Forall (fun x => x == 0) v -> any v = false.
Proof.
  induction 1 as [|x v Hx _ IH]; simpl; [reflexivity|].
  apply Qeq_bool_iff in Hx. now rewrite Hx.
Qed.

Lemma index_as_number_pos (n : nat) : (0 < n)%nat -> 0 < index_as_number n.
Proof.
  intros H. unfold index_as_number. change 0 with (inject_Z 0).
  rewrite <- Zlt_Qlt. lia.
Qed.

Lemma index_as_number_nonneg (n : nat) : 0 <= index_as_number n.
Proof.
  unfold index_as_number. change 0 with (inject_Z 0).
  rewrite <- Zle_Qle. lia.
Qed.

(** With exact division nothing is left to repair. *)
Lemma normalizeToOne_exact (v : list Q) :
  ~ sum v == 0 ->
  normalizeToOne v
  = Ok (if Qeq_bool (sum v) 1 then v else map (fun x => x / sum v) v).
Proof.
  intros Hs. unfold normalizeToOne, normalizeToOne_with, normalizeToOne_rounded.
  change (fsum Qplus) with sum.
  destruct (Qeq_bool (sum v) 1); [reflexivity|].
  rewrite (mapM_truediv Qdiv _ Hs). cbn [bind].
  assert (E : sum (map (fun val => val / sum v) v) == 1).
  { unfold Qdiv. rewrite sum_map_scale. now apply Qmult_inv_r. }
  apply Qeq_bool_iff in E. now rewrite E.
Qed.

Lemma normalizeToOne_renormalized (v w : list Q) :
  ~ sum v == 0 -> normalizeToOne v = Ok w ->
  vec_eq w (renormalized v) /\ sum w == 1.
Proof.
  intros Hs H. rewrite normalizeToOne_exact in H by assumption. injection H as <-.
  destruct (Qeq_bool (sum v) 1) eqn:E.
  - apply Qeq_bool_iff in E. split; [|assumption].
    unfold renormalized. rewrite <- (map_id v) at 1.
    apply vec_eq_map; [|apply vec_eq_refl].
    intros x y Hxy. rewrite Hxy, E. field.
  - split; [apply vec_eq_refl|].
    unfold Qdiv. rewrite sum_map_scale. now apply Qmult_inv_r.
Qed.

(** ** The weights of a pool *)

Lemma mapM_getitem {A} (d : A) (W : list A) (idxs : list nat) :
  Forall (fun k => (k < length W)%nat) idxs ->
  mapM (getitem W) idxs = Ok (map (fun k => nth k W d) idxs).
Proof.
  intros H. apply mapM_map. intros k Hk. rewrite Forall_forall in H.
  apply getitem_Ok. now apply nth_error_nth', H.
Qed.

Lemma combine_map_S {A} (l : list nat) (rows : list A) :
  combine (map S l) rows = map (fun p => (S (fst p), snd p)) (combine l rows).
Proof.
  revert rows; induction l as [|k l IH]; intros [|r rows]; simpl; auto.
  now rewrite IH.
Qed.

Lemma enumerate_nth {A B} (f : A -> Q -> B) (rows : list A) :
  forall nd : list Q, length nd = length rows ->
    map (fun iw => f (snd iw) (nth (fst iw) nd 0)) (enumerate rows)
    = map (fun rw => f (fst rw) (snd rw)) (combine rows nd).
Proof.
  unfold enumerate. induction rows as [|r rows IH]; intros [|x nd] H;
    try discriminate; [reflexivity|].
  cbn [length seq combine map fst snd nth]. f_equal.
  rewrite <- seq_shift, combine_map_S, map_map. cbn [fst snd nth].
  apply IH. now injection H.
Qed.

Lemma weightByDist_value (rows : list (list Q)) (nd : list Q) :
  length nd = length rows ->
  mapM (fun iw : nat * list Q =>
          mapM (fun weight => x <- getitem nd (fst iw) ;; Ok (weight * x)) (snd iw))
       (enumerate rows)
  = Ok (scaledRows rows nd).
Proof.
  intros H. unfold scaledRows.
  rewrite <- (enumerate_nth (fun r x => map (fun weight => weight * x) r) rows nd H).
  apply mapM_map. intros [k r] Hk. apply In_enumerate in Hk as [Hk _].
  cbn [fst snd]. apply mapM_map. intros w _.
  assert (E : getitem nd k = Ok (nth k nd 0)).
  { apply getitem_Ok. apply nth_error_nth'. lia. }
  now rewrite E.
Qed.

Lemma np_sum_axis0_value (rows : list (list Q)) (c : nat) :
  rows <> [] -> Forall (fun r => length r = c) rows ->
  np_sum_axis0 rows = Ok (columnSums rows).
Proof.
  destruct rows as [|r rows]; [congruence|]. intros _ H.
  inversion H as [|? ? Hr Hrows]; subst. unfold np_sum_axis0, columnSums.
  assert (E : forallb (fun r' => (length r' =? length r)%nat) rows = true).
  { apply forallb_forall. intros r' Hr'. rewrite Forall_forall in Hrows.
    apply Nat.eqb_eq. now apply Hrows. }
  now rewrite E.
Qed.

Lemma length_zipadd (a b : list Q) :
  length a = length b -> length (zipadd a b) = length a.
Proof.
  intros H. unfold zipadd. rewrite length_map, length_combine. lia.
Qed.

Lemma sum_zipadd (a : list Q) :
  forall b, length a = length b -> sum (zipadd a b) == sum a + sum b.
Proof.
  unfold zipadd. induction a as [|x a IH]; intros [|y b] H; try discriminate.
  - simpl. change (sum []) with 0. ring.
  - cbn [combine map fst snd]. rewrite !sum_cons, IH by (now injection H). ring.
Qed.

Lemma sum_fold_zipadd (rs : list (list Q)) :
  forall acc, Forall (fun r => length r = length acc) rs ->
    sum (fold_left zipadd rs acc) == sum acc + sum (map sum rs).
Proof.
  induction rs as [|r rs IH]; intros acc H; simpl.
  - change (sum []) with 0. ring.
  - inversion H as [|? ? Hr Hrs]; subst.
    rewrite IH.
    + rewrite sum_zipadd, sum_cons by congruence. ring.
    + rewrite length_zipadd by congruence. assumption.
Qed.

Lemma sum_columnSums (rows : list (list Q)) (c : nat) :
  Forall (fun r => length r = c) rows ->
  sum (columnSums rows) == sum (map sum rows).
Proof.
  destruct rows as [|r rows]; [reflexivity|]. intros H.
  inversion H as [|? ? Hr Hrows]; subst. unfold columnSums.
  rewrite sum_fold_zipadd by assumption. cbn [map]. now rewrite sum_cons.
Qed.

Lemma scaledRows_shape (rows : list (list Q)) (c : nat) :
  forall nd, length nd = length rows ->
    Forall (fun r => length r = c) rows ->
    Forall (fun r => length r = c) (scaledRows rows nd) /\
    length (scaledRows rows nd) = length rows.
Proof.
  unfold scaledRows. induction rows as [|r rows IH]; intros [|x nd] H Hc;
    try discriminate; [split; [constructor|reflexivity]|].
  inversion Hc as [|? ? Hr Hrows]; subst.
  destruct (IH nd) as [I1 I2]; [now injection H|assumption|].
  split.
  - cbn [combine map fst snd]. constructor; [now rewrite length_map|assumption].
  - cbn [combine map length]. now rewrite I2.
Qed.

Lemma sum_scaledRows (rows : list (list Q)) :
  forall nd,
    sum (map sum (scaledRows rows nd))
    == sum (map (fun rw : list Q * Q => sum (fst rw) * snd rw) (combine rows nd)).
Proof.
  unfold scaledRows. intros nd. rewrite map_map.
  apply sum_map_ext. intros [r x] _. cbn [fst snd]. apply sum_map_scale.
Qed.

Lemma weighted_total_pos (rows : list (list Q)) :
  forall nd, length nd = length rows ->
    Forall (fun r => 0 < sum r) rows -> Forall (fun x => 0 <= x) nd ->
    0 <= sum (map (fun rw : list Q * Q => sum (fst rw) * snd rw) (combine rows nd)) /\
    (0 < sum nd ->
     0 < sum (map (fun rw : list Q * Q => sum (fst rw) * snd rw) (combine rows nd))).
Proof.
  induction rows as [|r rows IH]; intros [|x nd] H Hr Hx; try discriminate.
  - simpl. change (sum []) with 0. split; lra.
  - inversion Hr as [|? ? Hr1 Hr2]; subst. inversion Hx as [|? ? Hx1 Hx2]; subst.
    destruct (IH nd) as [I1 I2]; [now injection H|assumption|assumption|].
    cbn [combine map fst snd]. rewrite !sum_cons.
    assert (P : 0 <= sum r * x) by (apply Qmult_le_0_compat; lra).
    split; [lra|]. intros Hs.
    destruct (Qlt_le_dec 0 x) as [Hpos|Hle].
    + assert (0 < sum r * x) by (apply Qmult_lt_0_compat; assumption). lra.
    + assert (0 < sum nd) by lra. apply I2 in H0. lra.
Qed.

Lemma poolVectors_weightVectors (c : nat) (W : list (list Q)) (idxs : list nat) :
  weightVectors c W -> Forall (fun k => (k < length W)%nat) idxs ->
  weightVectors c (poolVectors W idxs).
Proof.
  unfold weightVectors, poolVectors. intros HW Hi. apply Forall_forall.
  intros r Hr. apply in_map_iff in Hr as (k & <- & Hk).
  rewrite Forall_forall in HW, Hi. apply HW, nth_In, Hi, Hk.
Qed.

(** The distances of a pool after the replacement of an all-zero list, and
    their normalization. *)
Lemma pool_distances (dists : list Q) :
  dists <> [] -> Forall (fun x => 0 <= x) dists ->
  exists ds nd,
    (if negb (any dists) then
       avg <- truediv Qdiv 1 (index_as_number (length dists)) ;;
       Ok (repeat avg (length dists))
     else Ok dists) = Ok ds /\
    normalizeToOne ds = Ok nd /\
    length nd = length dists /\ Forall (fun x => 0 <= x) nd /\ sum nd == 1 /\
    (any dists = false -> nd = repeat (1 / index_as_number (length dists)) (length dists)).
Proof.
  intros Hne Hpos.
  assert (Hlen : (0 < length dists)%nat) by (destruct dists; simpl; [congruence|lia]).
  pose proof (index_as_number_pos Hlen) as Hp.
  destruct (any dists) eqn:Ha; cbn [negb].
  - pose proof (sum_pos_nonzero Hpos Ha) as Hs.
    exists dists. eexists. split; [reflexivity|].
    rewrite normalizeToOne_exact by lra. split; [reflexivity|].
    destruct (Qeq_bool (sum dists) 1) eqn:E.
    + apply Qeq_bool_iff in E. repeat split; auto. discriminate.
    + rewrite length_map. repeat split; try discriminate.
      * apply Forall_forall. intros y Hy. apply in_map_iff in Hy as (x & <- & Hx).
        rewrite Forall_forall in Hpos. apply Hpos in Hx.
        apply Qle_shift_div_l; lra.
      * unfold Qdiv. rewrite sum_map_scale. apply Qmult_inv_r. lra.
  - unfold truediv.
    destruct (Qeq_bool (index_as_number (length dists)) 0) eqn:E.
    { apply Qeq_bool_iff in E. lra. }
    cbn [bind]. eexists. eexists. split; [reflexivity|].
    assert (S1 : sum (repeat (1 / index_as_number (length dists)) (length dists)) == 1).
    { rewrite sum_repeat. fold (index_as_number (length dists)). field. lra. }
    rewrite normalizeToOne_exact by lra.
    apply Qeq_bool_iff in S1 as S2. rewrite S2.
    split; [reflexivity|]. rewrite repeat_length. repeat split; auto.
    apply Forall_forall. intros y Hy. apply repeat_spec in Hy. subst y.
    apply Qle_shift_div_l; lra.
Qed.

Lemma pointWeights_single (W : list (list Q)) (B : pyobj) (k : nat) (dists : list Q) :
  (k < length W)%nat ->
  pointWeights W B false [k] dists = Ok (nth k W [], None).
Proof.
  intros H. unfold pointWeights.
  assert (E : getitem W k = Ok (nth k W [])).
  { apply getitem_Ok. now apply nth_error_nth'. }
  change (length [k] =? 1)%nat with true. cbv iota.
  change (getitem [k] 0) with (Ok k). cbn [bind]. now rewrite E.
Qed.

Lemma pointWeights_blend (c : nat) (W : list (list Q)) (B : pyobj)
    (idxs : list nat) (dists ds nd : list Q) :
  (length idxs =? 1)%nat = false -> idxs <> [] ->
  Forall (fun k => (k < length W)%nat) idxs -> weightVectors c W ->
  (if negb (any dists) then
     avg <- truediv Qdiv 1 (index_as_number (length dists)) ;;
     Ok (repeat avg (length dists))
   else Ok dists) = Ok ds ->
  normalizeToOne ds = Ok nd -> length nd = length idxs ->
  pointWeights W B false idxs dists
  = (normalizedWeights <-
       normalizeToOne (columnSums (scaledRows (poolVectors W idxs) (rev nd))) ;;
     Ok (normalizedWeights, None)).
Proof.
  intros H1 Hne Hi HW Hds Hnd Hlen. unfold pointWeights. rewrite H1.
  rewrite (mapM_getitem [] W Hi). fold (poolVectors W idxs). cbn [bind].
  rewrite Hds. cbn [bind]. rewrite Hnd. cbn [bind].
  assert (L : length (rev nd) = length (poolVectors W idxs)).
  { unfold poolVectors. now rewrite length_rev, length_map. }
  rewrite (weightByDist_value _ _ L). cbn [bind].
  pose proof (poolVectors_weightVectors HW Hi) as HP.
  assert (R : Forall (fun r => length r = c) (poolVectors W idxs)).
  { eapply Forall_impl; [|exact HP]. intros r Hr. apply Hr. }
  destruct (@scaledRows_shape (poolVectors W idxs) c (rev nd) L R) as [S1 S2].
  rewrite (@np_sum_axis0_value _ c); [reflexivity| |assumption].
  intros E. rewrite E in S2. unfold poolVectors in S2. rewrite length_map in S2.
  destruct idxs; [congruence|discriminate].
Qed.

Lemma blend_sum_pos (c : nat) (W : list (list Q)) (idxs : list nat) (nd : list Q) :
  Forall (fun k => (k < length W)%nat) idxs -> weightVectors c W ->
  length nd = length idxs -> Forall (fun x => 0 <= x) nd -> sum nd == 1 ->
  0 < sum (columnSums (scaledRows (poolVectors W idxs) (rev nd))).
Proof.
  intros Hi HW Hlen Hpos Hsum.
  pose proof (poolVectors_weightVectors HW Hi) as HP.
  assert (L : length (rev nd) = length (poolVectors W idxs)).
  { unfold poolVectors. now rewrite length_rev, length_map. }
  assert (R : Forall (fun r => length r = c) (poolVectors W idxs)).
  { eapply Forall_impl; [|exact HP]. intros r Hr. apply Hr. }
  destruct (@scaledRows_shape (poolVectors W idxs) c (rev nd) L R) as [S1 _].
  rewrite (sum_columnSums S1), sum_scaledRows.
  apply weighted_total_pos; auto.
  - eapply Forall_impl; [|exact HP]. intros r Hr. apply Hr.
  - apply Forall_rev. assumption.
  - rewrite sum_rev, Hsum. lra.
Qed.

(** A pool of saved points with one non-negative distance each gets
    weights, and they sum to one when blended. *)
Lemma pointWeights_total (c : nat) (W : list (list Q)) (B : pyobj)
    (idxs : list nat) (dists : list Q) :
  weightVectors c W -> idxs <> [] -> length dists = length idxs ->
  Forall (fun k => (k < length W)%nat) idxs -> Forall (fun x => 0 <= x) dists ->
  exists w, pointWeights W B false idxs dists = Ok (w, None).
Proof.
  intros HW Hne Hlen Hi Hd.
  destruct (length idxs =? 1)%nat eqn:E1.
  - destruct idxs as [|k [|k' idxs]]; try discriminate.
    inversion Hi; subst. eexists. now apply pointWeights_single.
  - assert (Hdne : dists <> []).
    { intros E. rewrite E in Hlen. destruct idxs; [congruence|discriminate]. }
    destruct (pool_distances Hdne Hd) as (ds & nd & Hds & Hnd & L & Hpos & Hsum & _).
    rewrite (@pointWeights_blend c W B idxs dists ds nd E1 Hne Hi HW Hds Hnd) by congruence.
    assert (P : 0 < sum (columnSums (scaledRows (poolVectors W idxs) (rev nd)))).
    { apply (@blend_sum_pos c W idxs nd Hi HW); auto. congruence. }
    rewrite normalizeToOne_exact by lra. cbn [bind]. eexists; reflexivity.
Qed.

(** ** The pool of a target point *)

Lemma Qlt_bool_iff (x y : Q) : Qlt_bool x y = true <-> x < y.
Proof.
  unfold Qlt_bool. rewrite negb_true_iff. split.
  - intros H. apply Qnot_le_lt. intros Hle. apply Qle_bool_iff in Hle. congruence.
  - intros H. destruct (Qle_bool y x) eqn:E; [|reflexivity].
    apply Qle_bool_iff in E. lra.
Qed.

Lemma mapM_total {A B} (f : A -> result B) (l : list A) :
  (forall a, In a l -> exists b, f a = Ok b) ->
  exists bs, mapM f l = Ok bs /\ length bs = length l.
Proof.
  induction l as [|a l IH]; intros H; simpl.
  - exists []. auto.
  - destruct (H a (or_introl eq_refl)) as [b ->].
    destruct IH as (bs & -> & L); [intros; apply H; now right|].
    exists (b :: bs). simpl. auto.
Qed.

Lemma Forall2_getitem {A B} (R : A -> B -> Prop) (l : list A) (l' : list B) (i : nat) :
  Forall2 R l l' -> (i < length l)%nat ->
  exists a b, getitem l i = Ok a /\ getitem l' i = Ok b /\ R a b.
Proof.
  intros H. revert i. induction H as [|a b l l' Hab _ IH]; intros i Hi; simpl in Hi.
  - lia.
  - destruct i as [|i].
    + exists a, b. auto.
    + destruct (IH i) as (a' & b' & Ha & Hb & Hr); [lia|].
      exists a', b'. auto.
Qed.

Lemma getitem_Forall {A} (P : A -> Prop) (l : list A) (i : nat) :
  Forall P l -> (i < length l)%nat -> exists a, getitem l i = Ok a /\ P a.
Proof.
  intros H Hi. destruct (getitem_lt l Hi) as (a & Ha & Hin).
  exists a. split; [assumption|]. rewrite Forall_forall in H. auto.
Qed.

Section Walk.

Variables (N1 N2 : list vec) (filter : bool) (tol : Q).
Variables (D : list (list Q)) (I : list (list nat)) (count : Z) (mult : Q).
Variables (m i : nat) (distRow : list Q) (indexRow : list nat).

Hypothesis HD : getitem D i = Ok distRow.
Hypothesis HI : getitem I i = Ok indexRow.
Hypothesis Hlen : length distRow = length indexRow.
Hypothesis Hdist : Forall (fun x => 0 <= x) distRow.
Hypothesis Hidx : Forall (fun j => (j < m)%nat) indexRow.
Hypothesis Hnormals : filter = true -> (i < length N1)%nat /\ (m <= length N2)%nat.

Lemma normalDot_total (j : nat) :
  filter = true -> (j < m)%nat -> exists d, normalDot N1 N2 i j = Ok d.
Proof.
  intros Hf Hj. destruct (Hnormals Hf) as [H1 H2]. unfold normalDot.
  destruct (getitem_lt N1 H1) as (ni & -> & _).
  destruct (@getitem_lt _ N2 j) as (ns & -> & _); [lia|].
  cbn [bind]. eexists; reflexivity.
Qed.

Lemma walk_total (searchDist : Q) (js : list nat) :
  Forall (fun j => (j < length distRow)%nat) js ->
  forall p, poolOk m p ->
    exists p', walk N1 N2 filter tol D I count i searchDist js p = Ok p' /\
               poolOk m p' /\
               (length (closestIndices p) <= length (closestIndices p'))%nat /\
               (length (rejectedIndices p) <= length (rejectedIndices p'))%nat.
Proof.
  induction 1 as [|j js Hj _ IH]; intros p Hp; cbn [walk].
  - exists p. auto.
  - destruct (count <=? Z.of_nat (length (closestIndices p)))%Z; [exists p; auto|].
    rewrite HI. cbn [bind].
    destruct (@getitem_Forall _ _ indexRow j Hidx) as (checkIndex & -> & Hci); [lia|].
    cbn [bind]. rewrite HD. cbn [bind].
    destruct (@getitem_Forall _ _ distRow j Hdist) as (checkDist & -> & Hcd); [lia|].
    cbn [bind].
    destruct (Qlt_bool searchDist checkDist && negb filter); [exists p; auto|].
    destruct Hp as (P1 & P2 & P3 & P4).
    assert (Hrej : exists b, (if filter then
                                d <- normalDot N1 N2 i checkIndex ;;
                                Ok (Qlt_bool d tol)
                              else Ok false) = Ok b).
    { destruct (bool_dec filter true) as [Ef|Ef].
      - destruct (normalDot_total Ef Hci) as [d Hd]. rewrite Ef, Hd.
        eexists; reflexivity.
      - apply not_true_is_false in Ef. rewrite Ef. eexists; reflexivity. }
    destruct Hrej as [b ->]. cbn [bind]. destruct b.
    + edestruct IH as (p' & Hw & Hok & L1 & L2); [|exists p'; split; [exact Hw|]].
      * unfold poolOk; cbn. repeat split; auto.
        apply Forall_app; split; auto.
      * cbn in L1, L2. rewrite length_app in L2. cbn in L2.
        split; [exact Hok|]. split; lia.
    + edestruct IH as (p' & Hw & Hok & L1 & L2); [|exists p'; split; [exact Hw|]].
      * unfold poolOk; cbn. rewrite !length_app. cbn.
        repeat split; auto; try (apply Forall_app; split; auto); try lia.
      * cbn in L1, L2. rewrite length_app in L1. cbn in L1.
        split; [exact Hok|]. split; lia.
Qed.

Lemma seq_lt (n : nat) : Forall (fun j => (j < n)%nat) (seq 0 n).
Proof.
  apply Forall_forall. intros j Hj. apply in_seq in Hj. lia.
Qed.

Lemma pointPool_total :
  distRow <> [] -> (1 <= count)%Z -> 1 <= mult ->
  exists idxs dists,
    pointPool N1 N2 filter tol D I count mult i = Ok (idxs, dists) /\
    idxs <> [] /\ length dists = length idxs /\
    Forall (fun j => (j < m)%nat) idxs /\ Forall (fun x => 0 <= x) dists.
Proof.
  intros Hne Hcount Hmult. unfold pointPool, pointPool_with. rewrite HD. cbn [bind].
  assert (Hpos : (0 < length distRow)%nat).
  { destruct distRow; [congruence|simpl; lia]. }
  destruct (@getitem_Forall _ _ distRow 0 Hdist Hpos) as (d0 & Hg0 & Hd0).
  destruct (@getitem_Forall _ _ indexRow 0 Hidx) as (i0 & Hgi0 & Hi0); [lia|].
  rewrite Hg0. cbn [bind].
  assert (Hn : exists n, length distRow = S n) by (exists (pred (length distRow)); lia).
  destruct Hn as [n En]. rewrite En.
  cbn [seq walk closestIndices length]. rewrite HI. cbn [bind].
  destruct (Z.leb_spec count (Z.of_nat 0)) as [Hc|_]; [simpl in Hc; lia|].
  rewrite Hgi0. cbn [bind]. rewrite HD. cbn [bind]. rewrite Hg0. cbn [bind].
  assert (Hsd : Qlt_bool (d0 * mult) d0 = false).
  { destruct (Qlt_bool (d0 * mult) d0) eqn:E; [|reflexivity].
    apply Qlt_bool_iff in E.
    assert (0 <= d0 * (mult - 1)) by (apply Qmult_le_0_compat; lra). lra. }
  rewrite Hsd. cbn [andb].
  assert (Hrej : exists b, (if filter then
                              d <- normalDot N1 N2 i i0 ;;
                              Ok (Qlt_bool d tol)
                            else Ok false) = Ok b /\ (b = true -> filter = true)).
  { destruct (bool_dec filter true) as [Ef|Ef].
    - destruct (normalDot_total Ef Hi0) as [d Hd]. rewrite Ef, Hd.
      eexists; split; [reflexivity|auto].
    - apply not_true_is_false in Ef. rewrite Ef.
      exists false; split; [reflexivity|discriminate]. }
  destruct Hrej as (b & -> & Hb). cbn [bind].
  assert (Hjs : Forall (fun j => (j < length distRow)%nat) (seq 1 n)).
  { apply Forall_forall. intros j Hj. apply in_seq in Hj. lia. }
  destruct b.
  - edestruct (@walk_total (d0 * mult) _ Hjs) as (p' & -> & Hok & L1 & L2).
    { unfold poolOk; cbn. repeat split; auto. }
    cbn [bind]. cbn in L2. destruct Hok as (P1 & P2 & P3 & P4).
    destruct (closestIndices p') as [|k ks] eqn:Ec.
    + rewrite (Hb eq_refl).
      assert (Hmin : (1 <= Z.min count (Z.of_nat (length (rejectedIndices p'))))%Z) by lia.
      eexists; eexists; split; [reflexivity|].
      unfold slice_to.
      destruct (Z.ltb_spec (Z.min count (Z.of_nat (length (rejectedIndices p')))) 0); [lia|].
      repeat split.
      * destruct (rejectedIndices p') as [|r rs]; [simpl in L2; lia|].
        destruct (Z.to_nat (Z.min count (Z.of_nat (length (r :: rs))))) eqn:Et; [lia|].
        discriminate.
      * apply length_map.
      * apply Forall_forall. intros x Hx. apply In_firstn in Hx.
        rewrite Forall_forall in P4. auto.
      * apply Forall_forall. intros x Hx. apply in_map_iff in Hx as (k & <- & _).
        apply index_as_number_nonneg.
    + eexists; eexists; split; [reflexivity|].
      repeat split; auto. discriminate.
  - edestruct (@walk_total (d0 * mult) _ Hjs) as (p' & -> & Hok & L1 & L2).
    { unfold poolOk; cbn. repeat split; auto. }
    cbn [bind]. cbn in L1. destruct Hok as (P1 & P2 & P3 & P4).
    destruct (closestIndices p') as [|k ks] eqn:Ec; [simpl in L1; lia|].
    eexists; eexists; split; [reflexivity|].
    repeat split; auto. discriminate.
Qed.

End Walk.

(** ** The closest-neighbors policy returns *)

Lemma neighborsPoint_total (c : nat) (W : list (list Q)) (B : pyobj) (N1 N2 : list vec)
    (filter : bool) (tol : Q) (D : list (list Q)) (I : list (list nat))
    (count : Z) (mult : Q) (i : nat) :
  weightVectors c W -> neighborRows (length W) D I -> (i < length D)%nat ->
  (filter = true -> (i < length N1)%nat /\ (length W <= length N2)%nat) ->
  (1 <= count)%Z -> 1 <= mult ->
  exists w, neighborsPoint W B N1 N2 filter tol false D I count mult i = Ok (w, None).
Proof.
  intros HW HR Hi Hn Hc Hm.
  destruct (Forall2_getitem HR Hi) as (dr & ir & HD & HI & L & Hne & Hd & Hidx).
  destruct (@pointPool_total N1 N2 filter tol D I count mult (length W) i dr ir
              HD HI L Hd Hidx Hn Hne Hc Hm)
    as (idxs & dists & Hp & Hne' & L' & Hi' & Hd').
  unfold neighborsPoint, neighborsPoint_with. fold_pointPool. rewrite Hp. cbn [bind].
  now apply (@pointWeights_total c).
Qed.

(** C2, as the code has it: with saved points and their weight vectors
    (one per saved point, non-negative, not all zero), a closest-point
    function that keeps its contract (the brute-force one does), normals
    for every target and saved point when normal filtering is on, any
    [closestNeighborCount] and a [closestNeighborDistMult] of at least 1,
    the policy returns, with one weight row per target point. *)
Theorem closestNeighborsWeights_total (norm : vec -> Q) (c : nat)
    (W : list (list Q)) (B : pyobj) (P S N1 N2 : list vec)
    (count : Z) (mult : Q) (f : option closestPoint) (filter : bool) (tol : Q) :
  (forall v, 0 <= norm v) ->
  match f with Some g => knnContract g | None => True end ->
  S <> [] -> length W = length S -> weightVectors c W ->
  B <> BuiltinFunction ->
  (N1 = [] \/ length N1 = length P) ->
  (filter = true -> N1 <> [] /\ length N2 = length S) ->
  1 <= mult ->
  exists r,
    closestNeighborsWeights norm W B P S N1 N2 count mult f filter tol = Ok r /\
    length (weights r) = length P.
Proof.
  intros Hnorm Hf HS HWS HW HB HN Hfil Hmult. unfold closestNeighborsWeights.
  rewrite validate_arrays by (auto; intros E; now apply Hfil). cbn [bind].
  set (g := match f with None => closestPointBruteForce norm | Some h => h end).
  assert (Hg : knnContract g).
  { unfold g. destruct f; [assumption|now apply closestPointBruteForce_contract]. }
  set (count' := if (count <? 1)%Z then Z.of_nat (length P) else count).
  set (k := if filter then Z.of_nat (length N1) else count').
  assert (Hcount : P <> [] -> (1 <= count')%Z).
  { intros HP. unfold count'. destruct (Z.ltb_spec count 1); [|assumption].
    destruct P; [congruence|]. simpl length. lia. }
  assert (Hk : P = [] \/ (1 <= k)%Z).
  { destruct P as [|p P'] eqn:EP; [now left|right]. unfold k.
    destruct filter eqn:Ef; [|apply Hcount; discriminate].
    destruct (Hfil eq_refl) as [Hne _]. destruct N1; [congruence|]. simpl length. lia. }
  destruct (Hg P S k HS Hk) as (D & I & -> & LD & HR). cbn [bind].
  rewrite <- HWS in HR.
  destruct (@mapM_total _ _
              (neighborsPoint W B N1 N2 filter tol false D I count' mult)
              (seq 0 (length P))) as (bs & -> & Lbs).
  { intros i Hi. apply in_seq in Hi.
    destruct (@neighborsPoint_total c W B N1 N2 filter tol D I count' mult i)
      as [w Hw]; auto; try lia.
    - intros Ef. destruct (Hfil Ef) as [Hne HN2].
      destruct HN as [HN|HN]; [congruence|]. lia.
    - apply Hcount. destruct P; [simpl in Hi; lia|discriminate].
    - eexists; exact Hw. }
  cbn [bind]. eexists. split; [reflexivity|].
  unfold collect. cbn [weights]. now rewrite length_map, Lbs, length_seq.
Qed.

Lemma norm1_nonneg (v : vec) : 0 <= norm1 v.
Proof.
  destruct v as [[x y] z]. unfold norm1.
  pose proof (Qabs_nonneg x). pose proof (Qabs_nonneg y). pose proof (Qabs_nonneg z).
  lra.
Qed.

Lemma closestNeighborsWeights_total_witness :
  exists r,
    closestNeighborsWeights norm1 [[1; 0]; [0; 1]] (NdArray [])
      [(1, 0, 0); (6, 0, 0)] [(0, 0, 0); (4, 0, 0)]
      [(0, 0, 1); (0, 0, 1)] [(0, 0, 1); (0, 0, -1)] 0 2 None true 0 = Ok r /\
    length (weights r) = 2%nat.
Proof.
  apply (@closestNeighborsWeights_total norm1 2 [[1; 0]; [0; 1]] (NdArray [])
           [(1, 0, 0); (6, 0, 0)] [(0, 0, 0); (4, 0, 0)]
           [(0, 0, 1); (0, 0, 1)] [(0, 0, 1); (0, 0, -1)] 0 2 None true 0).
  - exact norm1_nonneg.
  - exact Logic.I.
  - discriminate.
  - reflexivity.
  - repeat constructor; vm_compute; congruence.
  - discriminate.
  - right. reflexivity.
  - intros _. split; [discriminate|reflexivity].
  - vm_compute. discriminate.
Defined.

(** C2 as stated fails for a positive multiplier below 1: the radius is
    smaller than the nearest distance, the pool stays empty, and the
    average over it divides by zero. *)
Lemma closestNeighborsWeights_small_multiplier :
  0 < 1 # 2 /\
  closestNeighborsWeights norm1 [[1; 0]; [0; 1]] (PyList [])
    [(1, 0, 0)] [(0, 0, 0); (10, 0, 0)] [] [] 2 (1 # 2) None false 0
  = Raise ZeroDivisionError /\
  ~ (exists r,
       closestNeighborsWeights norm1 [[1; 0]; [0; 1]] (PyList [])
         [(1, 0, 0)] [(0, 0, 0); (10, 0, 0)] [] [] 2 (1 # 2) None false 0 = Ok r /\
       length (weights r) = 1%nat).
Proof.
  split; [reflexivity|]. split; [vm_compute; reflexivity|].
  intros (r & H & _). vm_compute in H. discriminate.
Qed.

(** ** Coincident points *)

Lemma rev_repeat_same {A} (x : A) (n : nat) : rev (repeat x n) = repeat x n.
Proof.
  induction n as [|n IH]; simpl; [reflexivity|].
  rewrite IH. symmetry. apply repeat_cons.
Qed.

Lemma scaledRows_repeat (a : Q) (rows : list (list Q)) :
  scaledRows rows (repeat a (length rows)) = map (map (fun w => w * a)) rows.
Proof.
  unfold scaledRows. induction rows as [|r rows IH]; simpl; [reflexivity|].
  now rewrite IH.
Qed.

Lemma zipadd_scale (a : Q) (acc' : list Q) :
  forall acc r, vec_eq acc (map (fun x => x * a) acc') -> length r = length acc' ->
    vec_eq (zipadd acc (map (fun x => x * a) r)) (map (fun x => x * a) (zipadd acc' r)).
Proof.
  unfold zipadd. induction acc' as [|y acc' IH]; intros acc r H L.
  - inversion H. constructor.
  - destruct r as [|z r]; [discriminate|].
    inversion H as [|x ? acc0 ? Hxy Hrest]; subst.
    cbn [map combine fst snd]. constructor.
    + rewrite Hxy. ring.
    + apply IH; [assumption|now injection L].
Qed.

Lemma fold_zipadd_scale (a : Q) (rs : list (list Q)) :
  forall acc acc', vec_eq acc (map (fun x => x * a) acc') ->
    Forall (fun r => length r = length acc') rs ->
    vec_eq (fold_left zipadd (map (map (fun x => x * a)) rs) acc)
           (map (fun x => x * a) (fold_left zipadd rs acc')).
Proof.
  induction rs as [|r rs IH]; intros acc acc' H Hr; simpl; [assumption|].
  inversion Hr as [|? ? Hr1 Hr2]; subst. apply IH.
  - now apply zipadd_scale.
  - rewrite length_zipadd by congruence. assumption.
Qed.

Lemma columnSums_scale (a : Q) (c : nat) (rows : list (list Q)) :
  Forall (fun r => length r = c) rows ->
  vec_eq (columnSums (map (map (fun x => x * a)) rows))
         (map (fun x => x * a) (columnSums rows)).
Proof.
  destruct rows as [|r rows]; [constructor|]. intros H.
  inversion H as [|? ? Hr Hrows]; subst. unfold columnSums. cbn [map].
  apply fold_zipadd_scale; [apply vec_eq_refl|assumption].
Qed.

Lemma renormalized_vec_eq (v w : list Q) :
  vec_eq v w -> vec_eq (renormalized v) (renormalized w).
Proof.
  intros H. unfold renormalized. apply vec_eq_map; [|assumption].
  intros x y Hxy. now rewrite Hxy, (sum_vec_eq H).
Qed.

(** When the normal filter rejects every candidate the pool is taken from
    the rejected ones, and its distances are their indices (line 510 reads
    [rejectedIndices] twice): such a pool at the distance zero of the target
    does not have the distances zero. *)
Lemma pointPool_fallback_distances :
  pointPool [(0, 0, 1)] [(0, 0, -1); (0, 0, -1)] true 0 [[0; 0]] [[0; 1]]%nat 2 2 0
  = Ok ([0; 1]%nat, [0; 1]).
Proof.
  vm_compute. reflexivity.
Qed.

(** Where the list of distances the code holds for a pool of two or more
    saved points is all zero (which leaves out the pools taken from the
    rejected points, whose list holds indices), and the saved weight
    vectors are non-negative and none all zero, the pool is blended
    without an exception: with exact sums and divisions the row is the
    unweighted average of the pool's weight vectors, divided by its sum. *)
Lemma coincident_pool_average (c : nat) (W : list (list Q)) (B : pyobj)
    (N1 N2 : list vec) (filter : bool) (tol : Q) (D : list (list Q))
    (I : list (list nat)) (count : Z) (mult : Q) (i : nat)
    (idxs : list nat) (dists : list Q) :
  weightVectors c W ->
  pointPool N1 N2 filter tol D I count mult i = Ok (idxs, dists) ->
  (2 <= length idxs)%nat -> length dists = length idxs ->
  Forall (fun k => (k < length W)%nat) idxs ->
  Forall (fun d => d == 0) dists ->
  exists w,
    neighborsPoint W B N1 N2 filter tol false D I count mult i = Ok (w, None) /\
    vec_eq w (renormalized (average (poolVectors W idxs))) /\
    sum w == 1.
Proof.
  intros HW Hp H2 L Hi Hz. unfold neighborsPoint, neighborsPoint_with. fold_pointPool. rewrite Hp. cbn [bind].
  assert (Hne : idxs <> []) by (destruct idxs; [simpl in H2; lia|discriminate]).
  assert (Hdne : dists <> []) by (destruct dists; [simpl in L; lia|discriminate]).
  assert (E1 : (length idxs =? 1)%nat = false) by (apply Nat.eqb_neq; lia).
  assert (Hd : Forall (fun x => 0 <= x) dists).
  { eapply Forall_impl; [|exact Hz]. intros x Hx. simpl in Hx. rewrite Hx. lra. }
  destruct (pool_distances Hdne Hd) as (ds & nd & Hds & Hnd & Ln & Hpos & Hsum & Hrep).
  specialize (Hrep (zero_any_false Hz)).
  rewrite (@pointWeights_blend c W B idxs dists ds nd E1 Hne Hi HW Hds Hnd) by congruence.
  assert (P : 0 < sum (columnSums (scaledRows (poolVectors W idxs) (rev nd)))).
  { apply (@blend_sum_pos c W idxs nd Hi HW); auto. congruence. }
  set (sw := columnSums (scaledRows (poolVectors W idxs) (rev nd))) in *.
  assert (Hsw : ~ sum sw == 0) by lra.
  destruct (normalizeToOne sw) as [w|e] eqn:Ew;
    [|rewrite normalizeToOne_exact in Ew by assumption; discriminate].
  cbn [bind]. exists w. split; [reflexivity|].
  destruct (@normalizeToOne_renormalized sw w Hsw Ew) as [V1 V2]. split; [|assumption].
  eapply vec_eq_trans; [exact V1|]. apply renormalized_vec_eq.
  unfold sw, average. rewrite Hrep, rev_repeat_same.
  assert (Lp : length (poolVectors W idxs) = length dists).
  { unfold poolVectors. rewrite length_map. congruence. }
  rewrite <- Lp, scaledRows_repeat.
  pose proof (poolVectors_weightVectors HW Hi) as HP.
  assert (R : Forall (fun r => length r = c) (poolVectors W idxs)).
  { eapply Forall_impl; [|exact HP]. intros r Hr. apply Hr. }
  eapply vec_eq_trans; [apply (@columnSums_scale _ c _ R)|].
  apply vec_eq_map; [|apply vec_eq_refl].
  intros x y Hxy. rewrite Hxy. unfold index_as_number. field.
  assert (0 < index_as_number (length (poolVectors W idxs))).
  { apply index_as_number_pos. rewrite Lp. destruct dists; [congruence|simpl; lia]. }
  unfold index_as_number in H. lra.
Qed.

Lemma coincident_pool_average_witness :
  exists w,
    neighborsPoint [[1; 0]; [0; 1]] (NdArray []) [] [] false 0 false
      [[0; 0]] [[0; 1]]%nat 2 2 0 = Ok (w, None) /\
    vec_eq w (renormalized (average (poolVectors [[1; 0]; [0; 1]] [0; 1]%nat))) /\
    sum w == 1.
Proof.
  apply (@coincident_pool_average 2 [[1; 0]; [0; 1]] (NdArray []) [] [] false 0
           [[0; 0]] [[0; 1]]%nat 2 2 0 [0; 1]%nat [0; 0]).
  - repeat constructor; vm_compute; congruence.
  - vm_compute. reflexivity.
  - simpl. lia.
  - reflexivity.
  - repeat constructor.
  - repeat constructor.
Defined.

(** C7, on the code: two saved points at the very place of the target
    points, both facing away from them, so that the normal filter rejects
    both and the pool is taken from the rejected points.  All distances of
    the pool are zero ([closestPointBruteForce] gives [0; 0]), yet the row
    returned is that of saved point 0 and not the average of the two rows:
    line 510 stores the rejected indices [0; 1] as the distances, they sum
    to 1, are reversed, and weigh the rows by 1 and 0. *)
Theorem closestNeighborsWeights_coincident_fallback :
  closestPointBruteForce norm1 [(0, 0, 0); (0, 0, 0)] [(0, 0, 0); (0, 0, 0)] 2%Z
  = Ok ([[0; 0]; [0; 0]], [[0; 1]; [0; 1]]%nat) /\
  pointPool [(0, 0, 1); (0, 0, 1)] [(0, 0, -1); (0, 0, -1)] true 0
    [[0; 0]; [0; 0]] [[0; 1]; [0; 1]]%nat 2 2 0
  = Ok ([0; 1]%nat, [0; 1]) /\
  closestNeighborsWeights norm1 [[1; 0]; [0; 1]] (PyList [])
    [(0, 0, 0); (0, 0, 0)] [(0, 0, 0); (0, 0, 0)]
    [(0, 0, 1); (0, 0, 1)] [(0, 0, -1); (0, 0, -1)] 2 2 None true 0
  = Ok {| weights := [[1; 0]; [1; 0]]; blendWeights := [] |} /\
  vec_eq (renormalized (average (poolVectors [[1; 0]; [0; 1]] [0; 1]%nat)))
         [1 # 2; 1 # 2] /\
  ~ vec_eq [1; 0] [1 # 2; 1 # 2].
Proof.
  split; [vm_compute; reflexivity|]. split; [vm_compute; reflexivity|].
  split; [vm_compute; reflexivity|]. split.
  - repeat constructor; vm_compute; reflexivity.
  - intros H. inversion H as [|? ? ? ? H1 _]; subst. vm_compute in H1. discriminate.
Qed.

(** * Further properties of the code *)

(** ** [normalizeToOne]: domain, entries, proportions *)

Lemma nth_error_setitem_other {A} (l : list A) (i k : nat) (x : A) :
  k <> i -> nth_error (setitem l i x) k = nth_error l k.
Proof.
  revert i k. induction l as [|a l IH]; intros [|i] [|k] H; simpl; auto; try congruence.
Qed.

Section Rounded.

Variables fdiv fadd fsub : Q -> Q -> Q.



(** What is returned for a list that is not empty and whose sum, as the
    code computes it, is not zero. *)
Lemma normalizeToOne_rounded_cases (v : list Q) :
  v <> [] -> ~ fsum fadd v == 0 ->
  exists r,
    normalizeToOne_rounded fdiv fadd fsub v = Ok r /\ length r = length v /\
    ((fsum fadd v == 1 /\ r = v) \/
     (~ fsum fadd v == 1 /\
      exists i j, forall k, k <> i -> k <> j ->
        nth_error r k = nth_error (map (fun val => fdiv val (fsum fadd v)) v) k)).
Proof.
  intros Hne Hs. unfold normalizeToOne_rounded.
  destruct (Qeq_bool (fsum fadd v) 1) eqn:E1.
  { exists v. apply Qeq_bool_iff in E1. auto. }
  assert (N1 : ~ fsum fadd v == 1).
  { intros H. apply Qeq_bool_iff in H. congruence. }
  rewrite (mapM_truediv fdiv _ Hs). cbn [bind].
  set (normed := map (fun val => fdiv val (fsum fadd v)) v).
  assert (Hlen : length normed = length v) by apply length_map.
  assert (Hne' : normed <> []).
  { intros E. rewrite E in Hlen. destruct v; [congruence|discriminate]. }
  destruct (Qeq_bool (fsum fadd normed) 1) eqn:E2; cbn [negb].
  { exists normed. split; [reflexivity|]. split; [assumption|]. right.
    split; [assumption|]. exists 0%nat, 0%nat. reflexivity. }
  destruct (py_min_In Hne') as (m & -> & Hm). cbn [bind].
  destruct (index_In _ _ Hm) as (i & c & -> & Hc). cbn [bind].
  destruct (Qle_bool 0 (fsub 1 (fsum fadd (pop normed i)))).
  - eexists; split; [reflexivity|]. split; [now rewrite length_setitem|].
    right. split; [assumption|]. exists i, i. intros k Hk _.
    now apply nth_error_setitem_other.
  - set (normed' := setitem normed i 0).
    assert (Hne'' : normed' <> []).
    { intros E. assert (L : length normed' = length normed) by apply length_setitem.
      rewrite E in L. destruct normed; [congruence|discriminate]. }
    destruct (py_max_In Hne'') as (mx & -> & Hmx). cbn [bind].
    destruct (index_In _ _ Hmx) as (j & c' & -> & Hc'). cbn [bind].
    apply getitem_Ok in Hc' as Hg. rewrite Hg. cbn [bind].
    eexists; split; [reflexivity|]. split.
    + unfold normed'. now rewrite !length_setitem.
    + right. split; [assumption|]. exists i, j. intros k Hi Hj.
      rewrite nth_error_setitem_other by assumption.
      now apply nth_error_setitem_other.
Qed.

End Rounded.

(** Whatever the rounding of the divisions, of the sums and of the
    difference: [normalizeToOne] raises [ValueError] on the empty list
    (from [min] of an empty list), and it returns on every list that is not
    empty and whose sum, as the code computes it, is not zero: the repair
    of the rounding always finds the entries it changes. *)
Theorem normalizeToOne_domain (fdiv fadd fsub : Q -> Q -> Q) (v : list Q) :
  normalizeToOne_rounded fdiv fadd fsub [] = Raise ValueError /\
  (v <> [] -> ~ fsum fadd v == 0 -> returns (normalizeToOne_rounded fdiv fadd fsub v)).
Proof.
  split; [reflexivity|]. intros Hne Hs.
  destruct (@normalizeToOne_rounded_cases fdiv fadd fsub v Hne Hs) as (r & Hr & _).
  now exists r.
Qed.



(** With exact divisions each entry of the result is the entry of the
    argument divided by the sum of the argument; for non-negative
    arguments the entries of the result lie between 0 and 1. *)
Theorem normalizeToOne_proportional (v : list Q) :
  Forall (fun x => 0 <= x) v -> ~ sum v == 0 ->
  exists r, normalizeToOne v = Ok r /\
            vec_eq r (renormalized v) /\
            Forall (fun x => 0 <= x /\ x <= 1) r.
Proof.
  intros Hpos Hs.
  destruct (normalizeToOne v) as [r|e] eqn:E;
    [|rewrite normalizeToOne_exact in E by assumption; discriminate].
  exists r. split; [reflexivity|].
  destruct (@normalizeToOne_renormalized v r Hs E) as [V _]. split; [exact V|].
  pose proof (sum_nonneg Hpos) as Hs0.
  assert (Hsp : 0 < sum v) by lra.
  assert (B : Forall (fun x => 0 <= x /\ x <= 1) (renormalized v)).
  { unfold renormalized. apply Forall_forall. intros y Hy.
    apply in_map_iff in Hy as (x & <- & Hx).
    assert (Hx0 : 0 <= x) by (rewrite Forall_forall in Hpos; auto).
    assert (Hxs : x <= sum v).
    { clear - Hpos Hx. induction Hpos as [|a l Ha Hl IH]; [destruct Hx|].
      rewrite sum_cons. pose proof (sum_nonneg Hl). destruct Hx as [->|Hx].
      - lra.
      - specialize (IH Hx). lra. }
    split.
    - apply Qle_shift_div_l; lra.
    - apply Qle_shift_div_r; lra. }
  clear - V B. induction V as [|a b l l' Hab _ IH]; [constructor|].
  inversion B; subst. constructor; [rewrite Hab; assumption|auto].
Qed.

Lemma normalizeToOne_proportional_witness :
  exists r, normalizeToOne [1; 3] = Ok r /\
            vec_eq r (renormalized [1; 3]) /\
            Forall (fun x => 0 <= x /\ x <= 1) r.
Proof.
  apply (@normalizeToOne_proportional [1; 3]).
  - repeat constructor; unfold Qle; simpl; lia.
  - vm_compute. discriminate.
Defined.

(** ** [transposeWeights]: cells, identity, round trip, shapes *)

Lemma position_nth (names : list string) :
  NoDup names -> forall i t, nth_error names i = Some t -> position names t = i.
Proof.
  induction 1 as [|y names Hy Hnd IH]; intros [|i] t Ht; simpl in *; try discriminate.
  - injection Ht as ->. now rewrite String.eqb_refl.
  - destruct (String.eqb y t) eqn:E.
    + apply String.eqb_eq in E. subst. apply nth_error_In in Ht. contradiction.
    + f_equal. now apply IH.
Qed.

(** Whenever [transposeWeights] returns, every returned row has, at the
    place of a target label that is the [i]-th source label, the [i]-th
    entry of the row it comes from, and 0 at the place of a target label
    that is no source label. *)
Theorem transposeWeights_cells (rows out : list (list Q)) (src tgt : list string) :
  NoDup src -> transposeWeights rows src tgt = Ok out ->
  Forall2 (fun r o =>
             length o = length tgt /\
             forall j t, nth_error tgt j = Some t ->
               (forall i, nth_error src i = Some t -> nth_error o j = nth_error r i) /\
               (~ In t src -> nth_error o j = Some 0))
          rows out.
Proof.
  intros Hnd H. unfold transposeWeights in H.
  apply bind_Ok in H as (first & _ & H). apply bind_Ok in H as (_ & _ & H).
  apply bind_Ok in H as (_ & _ & H). apply bind_Ok in H as (_ & _ & H).
  apply mapM_Ok_inv in H.
  induction H as [|r o rows out Hro _ IH]; constructor; auto.
  apply mapM_Ok_inv in Hro. split; [symmetry; eapply Forall2_length; eauto|].
  clear - Hnd Hro. induction Hro as [|t' x tgt o Hx _ IH]; intros j t Ht.
  - destruct j; discriminate.
  - destruct j as [|j]; [|apply IH; exact Ht].
    simpl in Ht. injection Ht as ->. cbn [nth_error]. split.
    + intros i Hi. assert (Hin : In t src) by (eapply nth_error_In; eauto).
      apply contains_In in Hin as Hc. rewrite Hc in Hx.
      destruct (index_of_In _ _ Hin) as [E _]. rewrite E in Hx. cbn [bind] in Hx.
      apply getitem_Ok in Hx. rewrite (position_nth Hnd _ Hi) in Hx. now symmetry.
    + intros Hnot. apply contains_not_In in Hnot. rewrite Hnot in Hx. now injection Hx as <-.
Qed.

Lemma transposeWeights_cells_witness :
  Forall2 (fun r o =>
             length o = 3%nat /\
             forall j t, nth_error ["B"; "A"; "C"]%string j = Some t ->
               (forall i, nth_error ["A"; "B"]%string i = Some t ->
                          nth_error o j = nth_error r i) /\
               (~ In t ["A"; "B"]%string -> nth_error o j = Some 0))
          [[3 # 10; 7 # 10]] [[7 # 10; 3 # 10; 0]].
Proof.
  apply (@transposeWeights_cells [[3 # 10; 7 # 10]] [[7 # 10; 3 # 10; 0]]
           ["A"; "B"]%string ["B"; "A"; "C"]%string).
  - repeat constructor; simpl; intuition discriminate.
  - vm_compute. reflexivity.
Defined.

Lemma column_identity (names : list string) :
  NoDup names -> forall r, length r = length names -> map (column names r) names = r.
Proof.
  induction 1 as [|s names Hs Hnd IH]; intros [|x r] L; try discriminate; [reflexivity|].
  cbn [map]. rewrite column_cons, String.eqb_refl. f_equal.
  rewrite <- (IH r) at 2 by (now injection L).
  apply map_ext_in. intros t Ht. rewrite column_cons.
  destruct (String.eqb s t) eqn:E; [|reflexivity].
  apply String.eqb_eq in E. subst. contradiction.
Qed.

(** Reordering to the order the rows already have changes nothing. *)
Theorem transposeWeights_same_order (rows : list (list Q)) (names : list string) :
  NoDup names -> rows <> [] -> Forall (fun r => length r = length names) rows ->
  transposeWeights rows names names = Ok rows.
Proof.
  intros Hnd Hne Hrows. destruct rows as [|first rows]; [congruence|].
  rewrite (@transposeWeights_value rows first names names); auto; [|apply incl_refl].
  f_equal. rewrite <- (map_id (first :: rows)) at 2.
  apply map_ext_in. intros r Hr. apply column_identity; auto.
  rewrite Forall_forall in Hrows. auto.
Qed.

Lemma transposeWeights_same_order_witness :
  transposeWeights [[3 # 10; 7 # 10]; [1; 0]] ["A"; "B"]%string ["A"; "B"]%string
  = Ok [[3 # 10; 7 # 10]; [1; 0]].
Proof.
  apply (@transposeWeights_same_order [[3 # 10; 7 # 10]; [1; 0]] ["A"; "B"]%string).
  - repeat constructor; simpl; intuition discriminate.
  - discriminate.
  - repeat constructor.
Defined.

Lemma column_column (src tgt : list string) (r : list Q) (s : string) :
  In s src -> In s tgt ->
  column tgt (map (column src r) tgt) s = column src r s.
Proof.
  intros Hs Ht. unfold column at 1. apply contains_In in Ht as Hc. rewrite Hc.
  destruct (index_of_In _ _ Ht) as [_ Hlt].
  rewrite (nth_indep _ 0 (column src r s)) by (now rewrite length_map).
  rewrite map_nth. f_equal.
  clear - Ht. induction tgt as [|y tgt IH]; [destruct Ht|]. simpl.
  destruct (String.eqb y s) eqn:E; [now apply String.eqb_eq in E|].
  destruct Ht as [->|Ht]; [rewrite String.eqb_refl in E; discriminate|auto].
Qed.

(** Between two orderings of the same labels reordering is lossless:
    there and back gives the rows one started from. *)
Theorem transposeWeights_round_trip (rows out : list (list Q)) (src tgt : list string) :
  NoDup src -> incl src tgt -> incl tgt src ->
  Forall (fun r => length r = length src) rows ->
  transposeWeights rows src tgt = Ok out ->
  transposeWeights out tgt src = Ok rows.
Proof.
  intros Hsrc Hst Hts Hrows H. destruct rows as [|first rows]; [discriminate|].
  rewrite (@transposeWeights_value rows first src tgt Hst Hrows) in H.
  injection H as <-. cbn [map].
  rewrite (@transposeWeights_value
             (map (fun r => map (column src r) tgt) rows) (map (column src first) tgt)
             tgt src Hts).
  - f_equal. change (map (fun r => map (column tgt r) src)
                       (map (fun r => map (column src r) tgt) (first :: rows))
                     = first :: rows).
    rewrite map_map. rewrite <- (map_id (first :: rows)) at 2.
    apply map_ext_in. intros r Hr.
    rewrite <- (@column_identity src Hsrc r) at 2
      by (rewrite Forall_forall in Hrows; auto).
    apply map_ext_in. intros s Hs. apply column_column; auto.
  - change (Forall (fun r => length r = length tgt)
              (map (fun r => map (column src r) tgt) (first :: rows))).
    apply Forall_forall. intros o Ho. apply in_map_iff in Ho as (r & <- & _).
    apply length_map.
Qed.

Lemma transposeWeights_round_trip_witness :
  transposeWeights [[7 # 10; 3 # 10]] ["B"; "A"]%string ["A"; "B"]%string
  = Ok [[3 # 10; 7 # 10]].
Proof.
  apply (@transposeWeights_round_trip [[3 # 10; 7 # 10]] [[7 # 10; 3 # 10]]
           ["A"; "B"]%string ["B"; "A"]%string).
  - repeat constructor; simpl; intuition discriminate.
  - intros a [<-|[<-|[]]]; simpl; auto.
  - intros a [<-|[<-|[]]]; simpl; auto.
  - repeat constructor.
  - vm_compute. reflexivity.
Defined.

Lemma mapM_IndexError {A B} (f : A -> result B) (l : list A) :
  (forall a, In a l -> returns (f a) \/ f a = Raise IndexError) ->
  Exists (fun a => f a = Raise IndexError) l ->
  mapM f l = Raise IndexError.
Proof.
  induction l as [|a l IH]; intros Hall Hex; [inversion Hex|].
  cbn [mapM]. destruct (Hall a (or_introl eq_refl)) as [[b Hb]|Hb].
  - rewrite Hb. cbn [bind]. rewrite IH; [reflexivity| |].
    + intros; apply Hall; now right.
    + inversion Hex; subst; [congruence|assumption].
  - now rewrite Hb.
Qed.

(** Only the first row is measured against the source labels: no row at
    all raises [IndexError], a first row of another length fails the
    assertion, and a later row that is too short raises [IndexError] when
    its missing entry is read. *)
Theorem transposeWeights_row_shapes (first : list Q) (rows : list (list Q))
    (src tgt : list string) :
  transposeWeights [] src tgt = Raise IndexError /\
  (length first <> length src ->
   transposeWeights (first :: rows) src tgt = Raise AssertionError) /\
  (NoDup src -> incl src tgt -> length first = length src ->
   Exists (fun r => (length r < length src)%nat) rows ->
   transposeWeights (first :: rows) src tgt = Raise IndexError).
Proof.
  split; [reflexivity|]. split.
  - intros Hlen. unfold transposeWeights. cbn [getitem nth_error bind].
    apply Nat.eqb_neq in Hlen. now rewrite Hlen.
  - intros Hnd Hincl Hfirst Hex. unfold transposeWeights. cbn [getitem nth_error bind].
    rewrite Hfirst, Nat.eqb_refl. cbn [assert bind].
    rewrite filter_nil by (intros a Ha; apply negb_false_iff, contains_In, Hincl, Ha).
    cbn [assert bind].
    rewrite filter_nil by (intros a Ha; now apply negb_false_iff, contains_In).
    cbn [assert bind].
    set (f := fun (r : list Q) (t : string) =>
                if contains src t
                then chunkIndex <- index_of src t ;; getitem r chunkIndex
                else Ok 0).
    assert (Hcell : forall r t, returns (f r t) \/ f r t = Raise IndexError).
    { intros r t. unfold f. destruct (contains src t) eqn:E; [|left; eexists; reflexivity].
      apply contains_In in E. destruct (index_of_In _ _ E) as [-> _]. cbn [bind].
      unfold getitem.
      destruct (nth_error r (position src t)); [left; eexists|right]; reflexivity. }
    assert (Hshort : forall r, (length r < length src)%nat ->
                               mapM (f r) tgt = Raise IndexError).
    { intros r Hlt. apply mapM_IndexError; [intros; apply Hcell|].
      destruct (nth_error src (length r)) as [s|] eqn:Es;
        [|apply nth_error_None in Es; lia].
      assert (Hin : In s src) by (eapply nth_error_In; eauto).
      apply Exists_exists. exists s. split; [auto|]. unfold f.
      apply contains_In in Hin as Hc. rewrite Hc.
      destruct (index_of_In _ _ Hin) as [-> _]. cbn [bind].
      rewrite (position_nth Hnd _ Es). unfold getitem.
      assert (E : nth_error r (length r) = None) by (apply nth_error_None; lia).
      now rewrite E. }
    change (mapM (fun chunkWeights => mapM (f chunkWeights) tgt) (first :: rows)
            = Raise IndexError).
    apply mapM_IndexError.
    + intros r _. clear - Hcell. induction tgt as [|t tgt IH]; cbn [mapM].
      * left. eexists; reflexivity.
      * destruct (Hcell r t) as [[b ->] | ->]; [|now right]. cbn [bind].
        destruct IH as [[bs ->] | ->]; [left; eexists; reflexivity|now right].
    + right. eapply Exists_impl; [|exact Hex]. intros r Hr. now apply Hshort.
Qed.

(** ** [getVertNeighborSamples]: edges and sampled keys *)

(** Zero samples divide by zero; a mesh of one point asked for more than
    one sample gives [range] a step of zero, a [ValueError]; a mesh without
    points gives an empty fingerprint. *)
Theorem getVertNeighborSamples_edges (adj : Z -> list Z) (total samples : Z) :
  getVertNeighborSamples total adj 0 = Raise ZeroDivisionError /\
  ((1 < samples)%Z -> getVertNeighborSamples 1 adj samples = Raise ValueError) /\
  ((0 < samples)%Z -> getVertNeighborSamples 0 adj samples = Ok []).
Proof.
  split; [reflexivity|]. split.
  - intros Hs. unfold getVertNeighborSamples, getVertNeighborSamples_step.
    destruct (Z.eqb_spec samples 0); [lia|].
    rewrite Z.quot_small by lia. reflexivity.
  - intros Hs. unfold getVertNeighborSamples, getVertNeighborSamples_step.
    destruct (Z.eqb_spec samples 0); [lia|].
    rewrite Z.quot_0_l by lia. reflexivity.
Qed.

(** On a mesh of at least two points, or with no more samples than points,
    the fingerprint is returned; its keys are distinct point indices of the
    mesh, the index 0 among them, each with the neighbours the host gives
    for it; and with no more samples asked than there are points at least
    that many points are sampled. *)
Theorem getVertNeighborSamples_keys (total : Z) (adj : Z -> list Z) (samples : Z) :
  (0 < samples)%Z -> (1 <= total)%Z -> (samples <= total \/ 2 <= total)%Z ->
  exists d,
    getVertNeighborSamples total adj samples = Ok d /\
    NoDup (map fst d) /\
    In 0%Z (map fst d) /\
    (forall k v, In (k, v) d -> (0 <= k < total)%Z /\ v = adj k) /\
    ((samples <= total)%Z -> (samples <= Z.of_nat (length d))%Z).
Proof.
  intros Hs Ht Hor.
  assert (Hstep : exists step,
             getVertNeighborSamples_step total samples = Ok step /\ (0 < step)%Z /\
             ((samples <= total)%Z -> step = (total / samples)%Z)).
  { unfold getVertNeighborSamples_step. destruct (Z.eqb_spec samples 0); [lia|].
    rewrite Z.quot_div_nonneg by lia.
    destruct (Z.eqb_spec (total / samples) 0) as [E|E].
    - assert (total < samples)%Z.
      { destruct (Z.lt_ge_cases total samples); [assumption|].
        assert (1 <= total / samples)%Z by (apply Z.div_le_lower_bound; lia).
        rewrite E in H0. lia. }
      exists (total - 1)%Z. split; [reflexivity|]. split; lia.
    - exists (total / samples)%Z. split; [reflexivity|]. split; [|auto].
      assert (0 <= total / samples)%Z by (apply Z.div_pos; lia). 
      destruct (Z.eq_dec (total / samples) 0); [contradiction|].
      apply Z.le_neq. split; [assumption|]. intros E'. apply E. now symmetry. }
  destruct Hstep as (step & Hstep & Hpos & Hdiv).
  exists (neighborsOf adj (strided total step)).
  split; [now apply getVertNeighborSamples_of_step|].
  assert (Hfst : map fst (neighborsOf adj (strided total step)) = strided total step).
  { unfold neighborsOf. rewrite map_map. cbn [fst]. apply map_id. }
  rewrite Hfst. split; [now apply NoDup_strided|]. split.
  - apply In_strided; [assumption|]. split; [lia|]. apply Z.mod_0_l. lia.
  - split.
    + intros k v Hin. unfold neighborsOf in Hin.
      apply in_map_iff in Hin as (k' & E & Hk). injection E as -> <-.
      apply In_strided in Hk; [|assumption]. tauto.
    + intros Hle. unfold neighborsOf, strided. rewrite !length_map, length_seq.
      specialize (Hdiv Hle). subst step.
      assert (samples <= (total + total / samples - 1) / (total / samples))%Z.
      { apply Z.div_le_lower_bound; [assumption|].
        assert (samples * (total / samples) <= total)%Z by (apply Z.mul_div_le; lia).
        set (q := (total / samples)%Z) in *. nia. }
      lia.
Qed.

Lemma getVertNeighborSamples_keys_witness :
  exists d,
    getVertNeighborSamples 10 (fun i => [i + 1]%Z) 3 = Ok d /\
    NoDup (map fst d) /\
    In 0%Z (map fst d) /\
    (forall k v, In (k, v) d -> (0 <= k < 10)%Z /\ v = [k + 1]%Z) /\
    ((3 <= 10)%Z -> (3 <= Z.of_nat (length d))%Z).
Proof.
  apply (@getVertNeighborSamples_keys 10 (fun i => [i + 1]%Z) 3); lia.
Defined.

(** ** [closestPointBruteForce]: what its rows are *)

Lemma pair_lt_asym (a b : Q * nat) : pair_lt a b = true -> pair_lt b a = false.
Proof.
  unfold pair_lt. destruct a as [d1 j1], b as [d2 j2]. cbn [fst snd].
  destruct (Qeq_bool d1 d2) eqn:E.
  - apply Qeq_bool_iff in E. intros H. apply Nat.ltb_lt in H.
    assert (E' : Qeq_bool d2 d1 = true) by (apply Qeq_bool_iff; now symmetry).
    rewrite E'. apply Nat.ltb_ge. lia.
  - intros H. apply Qlt_bool_iff in H.
    destruct (Qeq_bool d2 d1) eqn:E'.
    + apply Qeq_bool_iff in E'. lra.
    + destruct (Qlt_bool d2 d1) eqn:L; [|reflexivity].
      apply Qlt_bool_iff in L. lra.
Qed.

Lemma pair_le_fst (a b : Q * nat) : pair_le a b -> fst a <= fst b.
Proof.
  unfold pair_le, pair_lt. destruct (Qeq_bool (fst b) (fst a)) eqn:E.
  - apply Qeq_bool_iff in E. intros _. lra.
  - intros H. destruct (Qlt_le_dec (fst b) (fst a)) as [L|L]; [|assumption].
    apply Qlt_bool_iff in L. congruence.
Qed.

Lemma Sorted_insert (x : Q * nat) (l : list (Q * nat)) :
  Sorted pair_le l -> Sorted pair_le (insert x l).
Proof.
  induction 1 as [|y l Hl IH Hhd]; simpl; [repeat constructor|].
  destruct (pair_lt y x) eqn:E.
  - constructor; [assumption|].
    destruct l as [|z l]; simpl.
    + constructor. now apply pair_lt_asym.
    + inversion Hhd; subst. destruct (pair_lt z x); constructor; auto.
      now apply pair_lt_asym.
  - constructor; [now constructor|]. constructor. exact E.
Qed.

Lemma Sorted_sorted (l : list (Q * nat)) : Sorted pair_le (sorted l).
Proof.
  induction l as [|x l IH]; simpl; [constructor|]. now apply Sorted_insert.
Qed.

Lemma Permutation_insert (x : Q * nat) (l : list (Q * nat)) :
  Permutation (insert x l) (x :: l).
Proof.
  induction l as [|y l IH]; simpl; [reflexivity|].
  destruct (pair_lt y x); [|reflexivity].
  rewrite IH. apply perm_swap.
Qed.

Lemma Permutation_sorted (l : list (Q * nat)) : Permutation (sorted l) l.
Proof.
  induction l as [|x l IH]; simpl; [reflexivity|].
  rewrite Permutation_insert. now constructor.
Qed.

Lemma Sorted_map {A B} (R : A -> A -> Prop) (R' : B -> B -> Prop) (f : A -> B)
    (l : list A) :
  (forall a b, R a b -> R' (f a) (f b)) -> Sorted R l -> Sorted R' (map f l).
Proof.
  intros HR. induction 1 as [|a l Hl IH Hhd]; simpl; constructor; auto.
  destruct Hhd; simpl; constructor; auto.
Qed.

Lemma StronglySorted_firstn {A} (R : A -> A -> Prop) (n : nat) (l : list A) :
  StronglySorted R l -> StronglySorted R (firstn n l).
Proof.
  intros H. revert n. induction H as [|a l Hl IH Ha]; intros [|n]; simpl;
    constructor; auto.
  apply Forall_forall. intros x Hx. apply In_firstn in Hx.
  rewrite Forall_forall in Ha. auto.
Qed.

Lemma NoDup_firstn {A} (n : nat) (l : list A) : NoDup l -> NoDup (firstn n l).
Proof.
  intros H. rewrite <- (firstn_skipn n l) in H. now apply NoDup_app_remove_r in H.
Qed.

Lemma map_snd_enumerate {A B} (f : nat * A -> B) (l : list A) :
  map fst (enumerate l) = seq 0 (length l).
Proof.
  unfold enumerate. generalize 0%nat. induction l as [|a l IH]; intros s; simpl;
    [reflexivity|]. now rewrite IH.
Qed.

Lemma combine_fst_snd {A B} (l : list (A * B)) : combine (map fst l) (map snd l) = l.
Proof.
  induction l as [|[a b] l IH]; simpl; [reflexivity|]. now rewrite IH.
Qed.

Lemma Forall2_fst_snd {A B} (P : A -> B -> Prop) (l : list (A * B)) :
  Forall (fun ab => P (fst ab) (snd ab)) l -> Forall2 P (map fst l) (map snd l).
Proof.
  induction 1; simpl; constructor; auto.
Qed.

Lemma combine_seq_In {A} (l : list A) :
  forall (s j : nat) (a : A),
    nth_error l j = Some a -> In ((s + j)%nat, a) (combine (seq s (length l)) l).
Proof.
  induction l as [|x l IH]; intros s [|j] a H; simpl in *; try discriminate.
  - injection H as ->. left. f_equal. lia.
  - right. replace (s + S j)%nat with (S s + j)%nat by lia. now apply IH.
Qed.

Lemma enumerate_In {A} (l : list A) (j : nat) (a : A) :
  nth_error l j = Some a -> In (j, a) (enumerate l).
Proof.
  intros H. apply (combine_seq_In l 0 j) in H. exact H.
Qed.

Section BruteForceRows.

Variable norm : vec -> Q.
Variable targets : list vec.
Variable k : Z.
Variable p : vec.

Let candidates : list (Q * nat) :=
  map (fun jt : nat * vec => (norm (vsub p (snd jt)), fst jt)) (enumerate targets).

Lemma candidates_spec (x : Q * nat) :
  In x candidates <->
  exists t, nth_error targets (snd x) = Some t /\ fst x = norm (vsub p t).
Proof.
  unfold candidates. rewrite in_map_iff. split.
  - intros ([j t] & <- & Hin). apply In_enumerate in Hin as [_ Hn].
    exists t. auto.
  - intros (t & Hn & Hx). exists (snd x, t). split.
    + destruct x as [d j]. simpl in *. now rewrite Hx.
    + now apply enumerate_In.
Qed.

Lemma candidates_indices : map snd candidates = seq 0 (length targets).
Proof.
  unfold candidates. rewrite map_map. cbn [snd].
  apply (map_snd_enumerate (fun x : nat * vec => x)).
Qed.

Lemma bruteForceRow_spec :
  let row := bruteForceRow norm targets k p in
  neighborRow norm targets k p (fst row) (snd row).
Proof.
  unfold bruteForceRow. fold candidates. cbn [fst snd].
  set (n := Z.to_nat (if (Z.of_nat (length (sorted candidates)) <? k)%Z
                      then Z.of_nat (length (sorted candidates)) else k)).
  assert (Hlen : length (sorted candidates) = length targets).
  { rewrite length_sorted. unfold candidates.
    now rewrite length_map, length_enumerate. }
  assert (HS : StronglySorted Qle (map fst (sorted candidates))).
  { apply Sorted_StronglySorted; [exact Qle_trans|].
    apply (Sorted_map (R := pair_le)); [exact pair_le_fst|apply Sorted_sorted]. }
  assert (HP : Permutation (map snd (sorted candidates)) (seq 0 (length targets))).
  { rewrite <- candidates_indices. apply Permutation_map, Permutation_sorted. }
  repeat split.
  - rewrite <- firstn_map. now apply StronglySorted_firstn.
  - rewrite <- firstn_map. apply NoDup_firstn.
    eapply Permutation_NoDup; [symmetry; exact HP|apply seq_NoDup].
  - apply Forall2_fst_snd. apply Forall_forall. intros x Hx.
    apply In_firstn in Hx. apply candidates_spec.
    eapply Permutation_in; [apply Permutation_sorted|exact Hx].
  - intros Hk t Ht.
    destruct (sorted candidates) as [|h rest] eqn:Es.
    { simpl in Hlen. destruct targets; [destruct Ht|discriminate]. }
    assert (Hn : (1 <= n)%nat).
    { unfold n. simpl length. destruct (Z.ltb_spec (Z.of_nat (S (length rest))) k); lia. }
    destruct n as [|n']; [lia|]. cbn [firstn map hd_error].
    exists (fst h). split; [reflexivity|].
    apply In_nth_error in Ht as [j Hj].
    assert (Hin : In (norm (vsub p t), j) (h :: rest)).
    { rewrite <- Es. eapply Permutation_in; [symmetry; apply Permutation_sorted|].
      apply candidates_spec. exists t. auto. }
    simpl in HS. inversion HS as [|? ? _ Hall]; subst.
    destruct Hin as [->|Hin]; [simpl; lra|].
    rewrite Forall_forall in Hall.
    apply (Hall (norm (vsub p t))). apply in_map_iff. exists (norm (vsub p t), j). auto.
  - intros Hk j Hj.
    assert (En : firstn n (sorted candidates) = sorted candidates).
    { apply firstn_all2. unfold n. rewrite Hlen.
      destruct (Z.ltb_spec (Z.of_nat (length targets)) k); lia. }
    rewrite En. eapply Permutation_in; [symmetry; exact HP|].
    apply in_seq. lia.
Qed.

End BruteForceRows.

(** [closestPointBruteForce] never raises: it returns one row of distances
    and one of indices per query point, each of as many entries as
    neighbours are asked for, at most the number of indexed points (none
    for a negative number). *)
Theorem closestPointBruteForce_shape (norm : vec -> Q) (points targets : list vec) (k : Z) :
  exists D I,
    closestPointBruteForce norm points targets k = Ok (D, I) /\
    length D = length points /\ length I = length points /\
    Forall (fun d => length d = Z.to_nat (Z.min k (Z.of_nat (length targets)))) D /\
    Forall (fun r => length r = Z.to_nat (Z.min k (Z.of_nat (length targets)))) I.
Proof.
  unfold closestPointBruteForce. eexists; eexists. split; [reflexivity|].
  rewrite !length_map. split; [reflexivity|]. split; [reflexivity|].
  assert (L : forall q,
             let row := bruteForceRow norm targets (clampNeighbors targets k) q in
             length (fst row) = Z.to_nat (Z.min k (Z.of_nat (length targets))) /\
             length (snd row) = Z.to_nat (Z.min k (Z.of_nat (length targets)))).
  { intros q.
    destruct (bruteForceRow_lengths norm targets (clampNeighbors targets k) q) as [L1 L2].
    cbn zeta. rewrite <- L1, L2. unfold clampNeighbors.
    destruct (Z.ltb_spec (Z.of_nat (length targets)) k); split; f_equal; lia. }
  split; apply Forall_forall; intros r Hr;
    apply in_map_iff in Hr as (x & <- & Hx);
    apply in_map_iff in Hx as (q & <- & _); apply L.
Qed.

(** The rows of [closestPointBruteForce] are what its docstring promises:
    for each query point the distances ascend, no index repeats, each
    distance is that of the indexed point, the first is the least distance
    to any indexed point, and all indexed points are listed when at least
    that many neighbours are asked for. *)
Theorem closestPointBruteForce_rows (norm : vec -> Q) (points targets : list vec) (k : Z) :
  exists D I,
    closestPointBruteForce norm points targets k = Ok (D, I) /\
    length D = length I /\
    Forall2 (fun q di => neighborRow norm targets k q (fst di) (snd di))
            points (combine D I).
Proof.
  unfold closestPointBruteForce. eexists; eexists. split; [reflexivity|].
  split; [now rewrite !length_map|]. rewrite combine_fst_snd.
  induction points as [|q points IH]; cbn [map]; constructor; auto.
  pose proof (bruteForceRow_spec norm targets (clampNeighbors targets k) q) as H.
  cbn zeta in H. destruct H as (H1 & H2 & H3 & H4 & H5).
  unfold neighborRow. repeat split; auto.
  - intros Hk t Ht. apply H4; [|assumption]. apply clampNeighbors_le; [|assumption].
    intros E. rewrite E in Ht. destruct Ht.
  - intros Hk j Hj. apply H5; [|assumption]. unfold clampNeighbors.
    destruct (Z.ltb_spec (Z.of_nat (length targets)) k); lia.
Qed.

(** ** The closest-point policy *)

Lemma Forall2_seq {A} (R : nat -> A -> Prop) (l : list A) :
  forall s, (forall i a, nth_error l i = Some a -> R (s + i)%nat a) ->
            Forall2 R (seq s (length l)) l.
Proof.
  induction l as [|x l IH]; intros s H; simpl; constructor.
  - specialize (H O x eq_refl). now rewrite Nat.add_0_r in H.
  - apply IH. intros i a Hi. replace (S s + i)%nat with (s + S i)%nat by lia.
    now apply H.
Qed.

Lemma mapM_ext_in {A B} (f g : A -> result B) (l : list A) :
  (forall a, In a l -> f a = g a) -> mapM f l = mapM g l.
Proof.
  induction l as [|a l IH]; intros H; simpl; [reflexivity|].
  rewrite (H a (or_introl eq_refl)), IH; [reflexivity|].
  intros; apply H; now right.
Qed.

Lemma closestPoint_point_unfiltered (W : list (list Q)) (B : pyobj) (N1 N2 : list vec)
    (tol : Q) (D : list (list Q)) (I : list (list nat)) (i : nat) (irow : list nat) :
  nth_error I i = Some irow -> irow <> [] ->
  Forall (fun j => (j < length W)%nat) irow ->
  closestPoint_point W B N1 N2 false tol false D I i
  = Ok (nth (hd 0%nat irow) W [], None).
Proof.
  intros HI Hne Hidx. unfold closestPoint_point.
  apply getitem_Ok in HI. rewrite HI. cbn [bind].
  destruct irow as [|i0 rest]; [congruence|].
  change (getitem (i0 :: rest) 0) with (Ok i0). cbn [bind hd].
  inversion Hidx; subst.
  assert (E : getitem W i0 = Ok (nth i0 W [])).
  { apply getitem_Ok. now apply nth_error_nth'. }
  now rewrite E.
Qed.

(** Without normal filtering the closest-point policy returns, for each
    target point in turn, the saved weight vector of the saved point that
    the closest-point function lists first for it, copied as it is, and no
    blend weights. *)
Theorem closestPointWeights_nearest (norm : vec -> Q) (W : list (list Q)) (B : pyobj)
    (P S N1 N2 : list vec) (f : option closestPoint) (tol : Q) :
  (forall v, 0 <= norm v) ->
  match f with Some g => knnContract g | None => True end ->
  S <> [] -> length W = length S -> B <> BuiltinFunction ->
  (N1 = [] \/ length N1 = length P) ->
  exists D I,
    match f with Some g => g | None => closestPointBruteForce norm end P S 1%Z
    = Ok (D, I) /\
    length I = length P /\
    closestPointWeights norm W B P S N1 N2 f false tol
    = Ok {| weights := map (fun irow => nth (hd 0%nat irow) W []) I;
            blendWeights := [] |}.
Proof.
  intros Hnorm Hf HS HWS HB HN. unfold closestPointWeights.
  rewrite validate_arrays by (auto; discriminate). cbn [bind].
  set (g := match f with None => closestPointBruteForce norm | Some h => h end).
  assert (Hg : knnContract g).
  { unfold g. destruct f; [assumption|now apply closestPointBruteForce_contract]. }
  destruct (Hg P S 1%Z HS) as (D & I & Hq & LD & HR); [right; lia|].
  exists D, I. split; [exact Hq|].
  assert (LI : length I = length P).
  { apply Forall2_length in HR. congruence. }
  split; [exact LI|]. rewrite Hq. cbn [bind].
  rewrite (@mapM_Forall2 _ _ _ _
             (map (fun irow => (nth (hd 0%nat irow) W [], @None blendval)) I)).
  - cbn [bind]. unfold collect. f_equal. f_equal.
    + rewrite map_map. reflexivity.
    + generalize I as l. induction l; simpl; auto.
  - rewrite <- LI. rewrite <- (length_map (fun irow => (nth (hd 0%nat irow) W [], @None blendval)) I).
    apply Forall2_seq. intros i wb Hi. cbn [Nat.add].
    rewrite nth_error_map in Hi.
    destruct (nth_error I i) as [irow|] eqn:Ei; [|discriminate].
    injection Hi as <-.
    assert (Hrow : irow <> [] /\ Forall (fun j => (j < length W)%nat) irow).
    { clear - HR Ei HWS. revert i Ei. induction HR as [|d r D I Hdr _ IH]; intros [|i] Ei;
        simpl in Ei; try discriminate.
      - injection Ei as ->. destruct Hdr as (L & Hne & _ & Hi). rewrite HWS. split; [|assumption].
        intros ->. destruct d; [congruence|discriminate].
      - eapply IH; eauto. }
    destruct Hrow as [Hne Hidx].
    now apply (@closestPoint_point_unfiltered W B N1 N2 tol D I i irow).
Qed.

Lemma closestPointWeights_nearest_witness :
  exists D I,
    closestPointBruteForce norm1 [(1, 0, 0); (9, 0, 0)] [(0, 0, 0); (10, 0, 0)] 1%Z
    = Ok (D, I) /\
    length I = 2%nat /\
    closestPointWeights norm1 [[1; 0]; [0; 1]] (NdArray [])
      [(1, 0, 0); (9, 0, 0)] [(0, 0, 0); (10, 0, 0)] [] [] None false 0
    = Ok {| weights := map (fun irow => nth (hd 0%nat irow) [[1; 0]; [0; 1]] []) I;
            blendWeights := [] |}.
Proof.
  apply (@closestPointWeights_nearest norm1 [[1; 0]; [0; 1]] (NdArray [])
           [(1, 0, 0); (9, 0, 0)] [(0, 0, 0); (10, 0, 0)] [] [] None 0).
  - exact norm1_nonneg.
  - exact Logic.I.
  - discriminate.
  - reflexivity.
  - discriminate.
  - now left.
Defined.

Lemma closestPoint_point_row (W : list (list Q)) (B : pyobj) (N1 N2 : list vec)
    (filter : bool) (tol : Q) (D : list (list Q)) (I : list (list nat)) (i : nat)
    (w : list Q) (b : option blendval) :
  closestPoint_point W B N1 N2 filter tol false D I i = Ok (w, b) ->
  In w W /\ b = None.
Proof.
  unfold closestPoint_point. intros H.
  apply bind_Ok in H as (irow & _ & H). apply bind_Ok in H as (i0 & _ & H).
  apply bind_Ok in H as (idx & _ & H). apply bind_Ok in H as (w' & Hw & H).
  injection H as <- <-. split; [|reflexivity].
  apply getitem_Ok in Hw. eapply nth_error_In; eauto.
Qed.

(** Whenever the closest-point policy returns, with or without normal
    filtering and whatever closest-point function it is given, it returns
    one row per target point, each of them one of the saved weight vectors
    unchanged, and an empty list of blend weights. *)
Theorem closestPointWeights_copies (norm : vec -> Q) (W : list (list Q)) (B : pyobj)
    (P S N1 N2 : list vec) (f : option closestPoint) (filter : bool) (tol : Q)
    (r : weightData) :
  closestPointWeights norm W B P S N1 N2 f filter tol = Ok r ->
  length (weights r) = length P /\
  Forall (fun w => In w W) (weights r) /\
  blendWeights r = [].
Proof.
  unfold closestPointWeights. intros H.
  apply bind_Ok in H as (b & Hb & H). apply validate_Ok in Hb. subst b.
  apply bind_Ok in H as ([D I] & _ & H).
  apply bind_Ok in H as (perPoint & Hp & H). injection H as <-.
  apply mapM_Ok_inv in Hp.
  assert (L : length perPoint = length P).
  { apply Forall2_length in Hp. now rewrite length_seq in Hp. }
  assert (A : Forall (fun wb => In (fst wb) W /\ snd wb = None) perPoint).
  { clear L. induction Hp as [|i [w b] l l' Hi _ IH]; constructor; auto.
    now apply closestPoint_point_row in Hi. }
  destruct (@collect_no_blend perPoint) as [C1 C2].
  { eapply Forall_impl; [|exact A]. intros wb Hwb. apply Hwb. }
  split; [congruence|]. split; [|assumption].
  unfold collect. cbn [weights]. apply Forall_forall. intros w Hw.
  apply in_map_iff in Hw as (wb & <- & Hwb). rewrite Forall_forall in A.
  now apply A.
Qed.

Lemma closestPointWeights_copies_witness :
  length (weights {| weights := [[0; 1]; [0; 1]]; blendWeights := [] |}) = 2%nat /\
  Forall (fun w => In w [[1; 0]; [0; 1]])
         (weights {| weights := [[0; 1]; [0; 1]]; blendWeights := [] |}) /\
  blendWeights {| weights := [[0; 1]; [0; 1]]; blendWeights := [] |} = [].
Proof.
  apply (@closestPointWeights_copies norm1 [[1; 0]; [0; 1]] (PyList [1 # 2; 1 # 2])
           [(1, 0, 0); (1, 0, 0)] [(10, 0, 0); (0, 0, 0)]
           [(0, 0, 1); (0, 0, 1)] [(0, 0, 1); (0, 0, -1)] None true 0).
  vm_compute. reflexivity.
Defined.

(** Target normals given in another number than there are target points
    are refused by both policies with the failed assertion, whether normal
    filtering is asked for or not. *)
Theorem policies_normals_count (norm : vec -> Q) (W : list (list Q)) (B : pyobj)
    (P S N1 N2 : list vec) (count : Z) (mult : Q) (f : option closestPoint)
    (filter : bool) (tol : Q) :
  N1 <> [] -> length N1 <> length P ->
  closestNeighborsWeights norm W B P S N1 N2 count mult f filter tol
  = Raise AssertionError /\
  closestPointWeights norm W B P S N1 N2 f filter tol = Raise AssertionError.
Proof.
  intros Hne Hlen. unfold closestNeighborsWeights, closestPointWeights, validate.
  destruct N1 as [|n N1]; [congruence|].
  apply Nat.eqb_neq in Hlen. rewrite Hlen. split; reflexivity.
Qed.

Lemma policies_normals_count_witness :
  closestNeighborsWeights norm1 [[1; 0]] (NdArray []) [(1, 0, 0); (2, 0, 0)] [(0, 0, 0)]
    [(0, 0, 1)] [(0, 0, 1)] 2 2 None false 0 = Raise AssertionError /\
  closestPointWeights norm1 [[1; 0]] (NdArray []) [(1, 0, 0); (2, 0, 0)] [(0, 0, 0)]
    [(0, 0, 1)] [(0, 0, 1)] None false 0 = Raise AssertionError.
Proof.
  apply (@policies_normals_count norm1 [[1; 0]] (NdArray [])
           [(1, 0, 0); (2, 0, 0)] [(0, 0, 0)] [(0, 0, 1)] [(0, 0, 1)] 2 2 None false 0).
  - discriminate.
  - simpl. lia.
Defined.

(** ** Resampling the saved points themselves *)

Lemma pair_lt_irrefl (a : Q * nat) : pair_lt a a = false.
Proof.
  unfold pair_lt. assert (E : Qeq_bool (fst a) (fst a) = true) by (apply Qeq_bool_iff; reflexivity).
  rewrite E. apply Nat.ltb_irrefl.
Qed.

Lemma sorted_head (x : Q * nat) (l : list (Q * nat)) :
  In x l -> (forall y, In y l -> y = x \/ pair_lt x y = true) ->
  exists rest, sorted l = x :: rest.
Proof.
  induction l as [|a l IH]; intros Hin Hmin; [destruct Hin|]. simpl.
  destruct Hin as [->|Hin].
  - destruct (sorted l) as [|y t] eqn:Es; [exists []; reflexivity|].
    assert (Hy : In y l) by (apply In_sorted; rewrite Es; now left).
    simpl. destruct (Hmin y (or_intror Hy)) as [->|Hlt].
    + rewrite pair_lt_irrefl. eexists; reflexivity.
    + rewrite (pair_lt_asym _ _ Hlt). eexists; reflexivity.
  - destruct IH as [rest ->]; [assumption|intros; apply Hmin; now right|].
    simpl. destruct (Hmin a (or_introl eq_refl)) as [->|Hlt].
    + rewrite pair_lt_irrefl. eexists; reflexivity.
    + rewrite Hlt. eexists; reflexivity.
Qed.

Lemma vsub_self (a : vec) : vzero (vsub a a).
Proof.
  destruct a as [[x y] z]. simpl. repeat split; ring.
Qed.

Lemma map_nth_seq {A} (d : A) (l : list A) :
  map (fun i => nth i l d) (seq 0 (length l)) = l.
Proof.
  induction l as [|a l IH]; simpl; [reflexivity|]. f_equal.
  rewrite <- seq_shift, map_map. exact IH.
Qed.

Section SamePoints.

Variable norm : vec -> Q.
Hypothesis Hnorm : definiteNorm norm.
Variable S : list vec.
Hypothesis Hdistinct : distinctPoints S.

(** Among the saved points the nearest to a saved point is itself, and
    every other one is at a positive distance. *)
Lemma sorted_self (k : nat) (p : vec) :
  nth_error S k = Some p ->
  exists rest,
    sorted (map (fun jt : nat * vec => (norm (vsub p (snd jt)), fst jt)) (enumerate S))
    = (norm (vsub p p), k) :: rest /\
    Forall (fun y => 0 < fst y) rest.
Proof.
  intros Hk. destruct Hnorm as [Hz Hp].
  set (l := map (fun jt : nat * vec => (norm (vsub p (snd jt)), fst jt)) (enumerate S)).
  assert (Hl : forall y, In y l ->
                 exists t, nth_error S (snd y) = Some t /\ fst y = norm (vsub p t)).
  { intros y Hy. unfold l in Hy. apply in_map_iff in Hy as ([j t] & <- & Hin).
    apply In_enumerate in Hin as [_ Hn]. exists t. auto. }
  assert (Hx : In (norm (vsub p p), k) l).
  { unfold l. apply in_map_iff. exists (k, p). split; [reflexivity|now apply enumerate_In]. }
  assert (Hother : forall y, In y l -> snd y <> k -> 0 < fst y).
  { intros y Hy Hne. destruct (Hl y Hy) as (t & Ht & ->). apply Hp.
    apply (Hdistinct Hk Ht). congruence. }
  destruct (@sorted_head (norm (vsub p p), k) l Hx) as [rest Hs].
  { intros [d j] Hy. destruct (Nat.eq_dec j k) as [->|Hne].
    - left. destruct (Hl _ Hy) as (t & Ht & E). simpl in *. congruence.
    - right. specialize (Hother _ Hy Hne). simpl in Hother.
      pose proof (Hz _ (vsub_self p)) as H0. unfold pair_lt. cbn [fst snd].
      destruct (Qeq_bool (norm (vsub p p)) d) eqn:E.
      + apply Qeq_bool_iff in E. lra.
      + apply Qlt_bool_iff. lra. }
  exists rest. split; [exact Hs|].
  assert (HP : Permutation (map snd (sorted l)) (seq 0 (length S))).
  { rewrite (Permutation_map snd (Permutation_sorted l)). unfold l.
    rewrite map_map. cbn [snd].
    now rewrite (map_snd_enumerate (fun x : nat * vec => x)). }
  assert (Hnd : NoDup (map snd (sorted l))).
  { eapply Permutation_NoDup; [symmetry; exact HP|apply seq_NoDup]. }
  rewrite Hs in Hnd. cbn [map snd] in Hnd. inversion Hnd as [|? ? Hnot _]; subst.
  apply Forall_forall. intros y Hy. apply Hother.
  - apply In_sorted. fold l. rewrite Hs. now right.
  - intros E. apply Hnot. rewrite <- E. now apply in_map.
Qed.

Lemma bruteForceRow_self (k : nat) (p : vec) (n : Z) :
  nth_error S k = Some p -> (1 <= n)%Z ->
  exists d0 drest irest,
    bruteForceRow norm S n p = (d0 :: drest, k :: irest) /\
    d0 == 0 /\ Forall (fun d => 0 < d) drest /\ length drest = length irest.
Proof.
  intros Hk Hn. destruct (sorted_self k Hk) as (rest & Hs & Hrest).
  unfold bruteForceRow. rewrite Hs.
  set (m := Z.to_nat (if (Z.of_nat (length ((norm (vsub p p), k) :: rest)) <? n)%Z
                      then Z.of_nat (length ((norm (vsub p p), k) :: rest)) else n)).
  assert (Hm : (1 <= m)%nat).
  { unfold m. simpl length.
    destruct (Z.ltb_spec (Z.of_nat (Datatypes.S (length rest))) n); lia. }
  destruct m as [|m']; [lia|]. cbn [firstn map fst snd].
  eexists; eexists; eexists. split; [reflexivity|]. split.
  - destruct Hnorm as [Hz _]. apply Hz, vsub_self.
  - split; [|now rewrite !length_map].
    apply Forall_forall. intros d Hd. apply in_map_iff in Hd as (y & <- & Hy).
    apply In_firstn in Hy. rewrite Forall_forall in Hrest. auto.
Qed.

End SamePoints.

(** Resampled onto the saved points themselves (all at different places),
    the closest-point policy with the brute-force search gives back the
    saved weight vectors, in order. *)
Theorem closestPointWeights_same_points (norm : vec -> Q) (W : list (list Q)) (B : pyobj)
    (S : list vec) (tol : Q) :
  definiteNorm norm -> distinctPoints S -> length W = length S ->
  B <> BuiltinFunction ->
  closestPointWeights norm W B S S [] [] None false tol
  = Ok {| weights := W; blendWeights := [] |}.
Proof.
  intros Hnorm Hdist HWS HB. unfold closestPointWeights.
  rewrite validate_arrays by (auto; discriminate). cbn [bind].
  unfold closestPointBruteForce. cbn [bind].
  set (I := map snd (map (bruteForceRow norm S (clampNeighbors S 1)) S)).
  set (D := map fst (map (bruteForceRow norm S (clampNeighbors S 1)) S)).
  rewrite (@mapM_map _ _ _ (fun i => (nth i W [], @None blendval))).
  - cbn [bind]. unfold collect. rewrite map_map. cbn [fst].
    rewrite <- HWS, map_nth_seq. f_equal.
    generalize (seq 0 (length W)) as l. induction l; simpl; auto.
  - intros i Hi. apply in_seq in Hi.
    destruct (nth_error S i) as [p|] eqn:Ep; [|apply nth_error_None in Ep; lia].
    assert (Hc : (1 <= clampNeighbors S 1)%Z).
    { apply clampNeighbors_le; [|lia]. intros E. rewrite E in Ep. destruct i; discriminate. }
    destruct (@bruteForceRow_self norm Hnorm S Hdist i p _ Ep Hc)
      as (d0 & drest & irest & Hrow & _).
    assert (HI : nth_error I i = Some (i :: irest)).
    { unfold I. rewrite !nth_error_map, Ep. cbn [option_map]. now rewrite Hrow. }
    apply getitem_Ok in HI as HG. unfold closestPoint_point. rewrite HG. cbn [bind].
    change (getitem (i :: irest) 0) with (Ok i). cbn [bind].
    assert (E : getitem W i = Ok (nth i W [])).
    { apply getitem_Ok. apply nth_error_nth'. lia. }
    now rewrite E.
Qed.

Lemma norm1_definite : definiteNorm norm1.
Proof.
  split; intros [[x y] z]; unfold norm1, vzero.
  - intros (Hx & Hy & Hz). rewrite Hx, Hy, Hz. reflexivity.
  - intros H. pose proof (Qabs_nonneg x). pose proof (Qabs_nonneg y).
    pose proof (Qabs_nonneg z).
    destruct (Qeq_dec x 0) as [Hx|Hx].
    + destruct (Qeq_dec y 0) as [Hy|Hy].
      * destruct (Qeq_dec z 0) as [Hz|Hz]; [tauto|].
        assert (0 < Qabs z); [|lra].
        destruct (Qlt_le_dec 0 (Qabs z)); [assumption|].
        exfalso. apply Hz. apply Qabs_Qle_condition in q. lra.
      * assert (0 < Qabs y); [|lra].
        destruct (Qlt_le_dec 0 (Qabs y)); [assumption|].
        exfalso. apply Hy. apply Qabs_Qle_condition in q. lra.
    + assert (0 < Qabs x); [|lra].
      destruct (Qlt_le_dec 0 (Qabs x)); [assumption|].
      exfalso. apply Hx. apply Qabs_Qle_condition in q. lra.
Qed.

Lemma distinct_example : distinctPoints [(0, 0, 0); (4, 0, 0)].
Proof.
  intros [|[|i]] [|[|j]] a b Ha Hb Hij; simpl in *; try congruence;
    try (destruct i; discriminate); try (destruct j; discriminate).
  - injection Ha as <-. injection Hb as <-. intros (H & _). vm_compute in H. discriminate.
  - injection Ha as <-. injection Hb as <-. intros (H & _). vm_compute in H. discriminate.
Qed.

Lemma closestPointWeights_same_points_witness :
  closestPointWeights norm1 [[1; 0]; [0; 1]] (NdArray [])
    [(0, 0, 0); (4, 0, 0)] [(0, 0, 0); (4, 0, 0)] [] [] None false 0
  = Ok {| weights := [[1; 0]; [0; 1]]; blendWeights := [] |}.
Proof.
  apply (@closestPointWeights_same_points norm1 [[1; 0]; [0; 1]] (NdArray [])
           [(0, 0, 0); (4, 0, 0)] 0).
  - exact norm1_definite.
  - exact distinct_example.
  - reflexivity.
  - discriminate.
Defined.

(** ** Pools of one point *)

Lemma pointPool_with_nearest_only (fmul : Q -> Q -> Q) (N1 N2 : list vec) (tol : Q)
    (D : list (list Q)) (I : list (list nat)) (count : Z) (mult : Q) (i : nat)
    (d0 : Q) (drest : list Q) (i0 : nat) (irest : list nat) :
  getitem D i = Ok (d0 :: drest) -> getitem I i = Ok (i0 :: irest) ->
  length drest = length irest -> (1 <= count)%Z -> ~ fmul d0 mult < d0 ->
  (count = 1%Z \/ match drest with [] => True | d1 :: _ => fmul d0 mult < d1 end) ->
  pointPool_with N1 N2 false tol D I count mult fmul i = Ok ([i0], [d0]).
Proof.
  intros HD HI L Hc Hacc Hnext. unfold pointPool_with. rewrite HD. cbn [bind].
  change (getitem (d0 :: drest) 0) with (Ok d0). cbn [bind length seq walk closestIndices].
  destruct (Z.leb_spec count (Z.of_nat 0)) as [Hle|_]; [simpl in Hle; lia|].
  rewrite HI. cbn [bind]. change (getitem (i0 :: irest) 0) with (Ok i0). cbn [bind].
  rewrite HD. cbn [bind]. change (getitem (d0 :: drest) 0) with (Ok d0). cbn [bind].
  assert (E0 : Qlt_bool (fmul d0 mult) d0 = false).
  { destruct (Qlt_bool (fmul d0 mult) d0) eqn:E; [|reflexivity].
    apply Qlt_bool_iff in E. contradiction. }
  rewrite E0. cbn [andb negb bind app].
  destruct drest as [|d1 drest]; [reflexivity|].
  destruct irest as [|i1 irest]; [discriminate|].
  cbn [length seq walk closestIndices].
  destruct (Z.leb_spec count (Z.of_nat 1)) as [_|Hgt]; [reflexivity|].
  destruct Hnext as [->|Hlt]; [simpl in Hgt; lia|].
  rewrite HI. cbn [bind]. change (getitem (i0 :: i1 :: irest) 1) with (Ok i1). cbn [bind].
  rewrite HD. cbn [bind]. change (getitem (d0 :: d1 :: drest) 1) with (Ok d1). cbn [bind].
  apply Qlt_bool_iff in Hlt. rewrite Hlt. reflexivity.
Qed.

Lemma pointPool_nearest_only (N1 N2 : list vec) (tol : Q) (D : list (list Q))
    (I : list (list nat)) (count : Z) (mult : Q) (i : nat)
    (d0 : Q) (drest : list Q) (i0 : nat) (irest : list nat) :
  getitem D i = Ok (d0 :: drest) -> getitem I i = Ok (i0 :: irest) ->
  length drest = length irest -> (1 <= count)%Z -> ~ d0 * mult < d0 ->
  (count = 1%Z \/ match drest with [] => True | d1 :: _ => d0 * mult < d1 end) ->
  pointPool N1 N2 false tol D I count mult i = Ok ([i0], [d0]).
Proof.
  apply (@pointPool_with_nearest_only Qmult).
Qed.

(** In the closest-neighbors policy without normal filtering, whatever the
    rounding of the product that gives the search distance (the nearest
    distance times the multiplier): a target point whose second candidate
    lies beyond the search distance as the code computes it, or that has a
    single candidate, or for which one neighbour is asked, gets the saved
    weight vector of its nearest candidate, unblended.  The search distance
    is taken not to fall below the nearest distance, as a rounded product
    by a multiplier of at least 1 does not. *)
Theorem neighborsPoint_nearest_only (fmul : Q -> Q -> Q) (W : list (list Q)) (B : pyobj)
    (N1 N2 : list vec) (tol : Q) (D : list (list Q)) (I : list (list nat))
    (count : Z) (mult : Q) (i : nat) (d0 : Q) (drest : list Q) (i0 : nat)
    (irest : list nat) (w : list Q) :
  nth_error D i = Some (d0 :: drest) -> nth_error I i = Some (i0 :: irest) ->
  length drest = length irest -> nth_error W i0 = Some w ->
  (1 <= count)%Z -> d0 <= fmul d0 mult ->
  (count = 1%Z \/ match drest with [] => True | d1 :: _ => fmul d0 mult < d1 end) ->
  neighborsPoint_with W B N1 N2 false tol false D I count mult fmul i = Ok (w, None).
Proof.
  intros HD HI L HW Hc Hd Hnext. unfold neighborsPoint_with.
  rewrite (@pointPool_with_nearest_only fmul N1 N2 tol D I count mult i d0 drest i0 irest);
    auto; try (now apply getitem_Ok).
  - cbn [bind]. rewrite pointWeights_single.
    + f_equal. f_equal. now apply nth_error_nth.
    + apply nth_error_Some. congruence.
  - lra.
Qed.

Lemma neighborsPoint_nearest_only_witness :
  neighborsPoint_with [[1; 0]; [0; 1]] (NdArray []) [] [] false 0 false
    [[1; 9]] [[0; 1]]%nat 2 2 Qmult 0 = Ok ([1; 0], None).
Proof.
  apply (@neighborsPoint_nearest_only Qmult [[1; 0]; [0; 1]] (NdArray []) [] [] 0
           [[1; 9]] [[0; 1]]%nat 2 2 0 1 [9] 0 [1%nat] [1; 0]);
    try reflexivity; try lia.
  - vm_compute. discriminate.
  - right. vm_compute. reflexivity.
Defined.

(** Resampled onto the saved points themselves (all at different places),
    the closest-neighbors policy with the brute-force search gives back the
    saved weight vectors, in order, for every neighbour count and every
    multiplier: all other points are outside a radius of zero. *)
Theorem closestNeighborsWeights_same_points (norm : vec -> Q) (W : list (list Q))
    (B : pyobj) (S : list vec) (count : Z) (mult tol : Q) :
  definiteNorm norm -> distinctPoints S -> length W = length S ->
  B <> BuiltinFunction ->
  closestNeighborsWeights norm W B S S [] [] count mult None false tol
  = Ok {| weights := W; blendWeights := [] |}.
Proof.
  intros Hnorm Hdist HWS HB. unfold closestNeighborsWeights.
  rewrite validate_arrays by (auto; discriminate). cbn [bind].
  set (count' := if (count <? 1)%Z then Z.of_nat (length S) else count).
  unfold closestPointBruteForce. cbn [bind].
  set (I := map snd (map (bruteForceRow norm S (clampNeighbors S count')) S)).
  set (D := map fst (map (bruteForceRow norm S (clampNeighbors S count')) S)).
  rewrite (@mapM_map _ _ _ (fun i => (nth i W [], @None blendval))).
  - cbn [bind]. unfold collect. rewrite map_map. cbn [fst].
    rewrite <- HWS, map_nth_seq. f_equal.
    generalize (seq 0 (length W)) as l. induction l; simpl; auto.
  - intros i Hi. apply in_seq in Hi.
    destruct (nth_error S i) as [p|] eqn:Ep; [|apply nth_error_None in Ep; lia].
    assert (Hc' : (1 <= count')%Z).
    { unfold count'. destruct (Z.ltb_spec count 1); lia. }
    assert (Hc : (1 <= clampNeighbors S count')%Z).
    { apply clampNeighbors_le; [|lia]. intros E. rewrite E in Ep. destruct i; discriminate. }
    destruct (@bruteForceRow_self norm Hnorm S Hdist i p _ Ep Hc)
      as (d0 & drest & irest & Hrow & Hd0 & Hpos & L).
    assert (HI : nth_error I i = Some (i :: irest)).
    { unfold I. rewrite !nth_error_map, Ep. cbn [option_map]. now rewrite Hrow. }
    assert (HD : nth_error D i = Some (d0 :: drest)).
    { unfold D. rewrite !nth_error_map, Ep. cbn [option_map]. now rewrite Hrow. }
    unfold neighborsPoint, neighborsPoint_with. fold_pointPool.
    rewrite (@pointPool_nearest_only [] [] tol D I count' mult i d0 drest i irest);
      auto; try (now apply getitem_Ok).
    + cbn [bind]. apply pointWeights_single. lia.
    + rewrite Hd0. lra.
    + right. destruct drest as [|d1 drest]; [exact Logic.I|].
      inversion Hpos; subst. rewrite Hd0. lra.
Qed.

Lemma closestNeighborsWeights_same_points_witness :
  closestNeighborsWeights norm1 [[1; 0]; [0; 1]] (NdArray [])
    [(0, 0, 0); (4, 0, 0)] [(0, 0, 0); (4, 0, 0)] [] [] 3 2 None false 0
  = Ok {| weights := [[1; 0]; [0; 1]]; blendWeights := [] |}.
Proof.
  apply (@closestNeighborsWeights_same_points norm1 [[1; 0]; [0; 1]] (NdArray [])
           [(0, 0, 0); (4, 0, 0)] 3 2 0).
  - exact norm1_definite.
  - exact distinct_example.
  - reflexivity.
  - discriminate.
Defined.

(** Asked for one neighbour, without normal filtering and with a
    multiplier of at least 1, the closest-neighbors policy is the
    closest-point policy: the two return the same result, or raise the same
    exception, on the same arguments. *)
Theorem closestNeighborsWeights_one_neighbor (norm : vec -> Q) (W : list (list Q))
    (B : pyobj) (P S N1 N2 : list vec) (mult : Q) (f : option closestPoint) (tol : Q) :
  (forall v, 0 <= norm v) ->
  match f with Some g => knnContract g | None => True end ->
  S <> [] -> 1 <= mult ->
  closestNeighborsWeights norm W B P S N1 N2 1 mult f false tol
  = closestPointWeights norm W B P S N1 N2 f false tol.
Proof.
  intros Hnorm Hf HS Hm. unfold closestNeighborsWeights, closestPointWeights.
  destruct (validate W B P N1 false) as [ub|e]; [|reflexivity]. cbn [bind].
  set (g := match f with None => closestPointBruteForce norm | Some h => h end).
  assert (Hg : knnContract g).
  { unfold g. destruct f; [assumption|now apply closestPointBruteForce_contract]. }
  change (if (1 <? 1)%Z then Z.of_nat (length P) else 1%Z) with 1%Z.
  destruct (Hg P S 1%Z HS) as (D & I & -> & LD & HR); [right; lia|]. cbn [bind].
  rewrite (@mapM_ext_in _ _
             (neighborsPoint W B N1 N2 false tol ub D I 1 mult)
             (closestPoint_point W B N1 N2 false tol ub D I)); [reflexivity|].
  intros i Hi. apply in_seq in Hi.
  destruct (@Forall2_getitem _ _ _ D I i HR) as (dr & ir & HD & HI & L & Hne & Hd & _);
    [lia|].
  destruct dr as [|d0 drest]; [congruence|]. destruct ir as [|i0 irest]; [discriminate|].
  inversion Hd; subst. unfold neighborsPoint, neighborsPoint_with. fold_pointPool.
  rewrite (@pointPool_nearest_only N1 N2 tol D I 1 mult i d0 drest i0 irest); auto.
  - cbn [bind]. unfold pointWeights, closestPoint_point. rewrite HI. cbn [bind].
    reflexivity.
  - lia.
  - assert (0 <= d0 * (mult - 1)) by (apply Qmult_le_0_compat; lra). lra.
Qed.

Lemma closestNeighborsWeights_one_neighbor_witness :
  closestNeighborsWeights norm1 [[1; 0]; [0; 1]] (NdArray [])
    [(1, 0, 0)] [(0, 0, 0); (4, 0, 0)] [] [] 1 2 None false 0
  = closestPointWeights norm1 [[1; 0]; [0; 1]] (NdArray [])
      [(1, 0, 0)] [(0, 0, 0); (4, 0, 0)] [] [] None false 0.
Proof.
  apply (@closestNeighborsWeights_one_neighbor norm1 [[1; 0]; [0; 1]] (NdArray [])
           [(1, 0, 0)] [(0, 0, 0); (4, 0, 0)] [] [] 2 None 0).
  - exact norm1_nonneg.
  - exact Logic.I.
  - discriminate.
  - vm_compute. discriminate.
Defined.

(** ** The rows the closest-neighbors policy returns *)

Lemma zipadd_nonneg (a : list Q) :
  forall b, Forall (fun x => 0 <= x) a -> Forall (fun x => 0 <= x) b ->
    Forall (fun x => 0 <= x) (zipadd a b).
Proof.
  unfold zipadd. induction a as [|x a IH]; intros [|y b] Ha Hb; cbn [combine map];
    try constructor.
  - inversion Ha; inversion Hb; subst. cbn [fst snd]. lra.
  - inversion Ha; inversion Hb; subst. now apply IH.
Qed.

Lemma fold_zipadd_shape (c : nat) (rs : list (list Q)) :
  forall acc, length acc = c -> Forall (fun x => 0 <= x) acc ->
    Forall (fun r => length r = c) rs -> Forall (Forall (fun x => 0 <= x)) rs ->
    length (fold_left zipadd rs acc) = c /\
    Forall (fun x => 0 <= x) (fold_left zipadd rs acc).
Proof.
  induction rs as [|r rs IH]; intros acc La Ha Hl Hn; cbn [fold_left]; [auto|].
  inversion Hl; inversion Hn; subst. apply IH; auto.
  - rewrite length_zipadd; congruence.
  - now apply zipadd_nonneg.
Qed.

Lemma columnSums_shape (c : nat) (rows : list (list Q)) :
  rows <> [] -> Forall (fun r => length r = c) rows ->
  Forall (Forall (fun x => 0 <= x)) rows ->
  length (columnSums rows) = c /\ Forall (fun x => 0 <= x) (columnSums rows).
Proof.
  destruct rows as [|r rows]; [congruence|]. intros _ Hl Hn.
  inversion Hl; inversion Hn; subst. unfold columnSums.
  now apply fold_zipadd_shape.
Qed.

Lemma scaledRows_nonneg (rows : list (list Q)) :
  forall nd, Forall (Forall (fun x => 0 <= x)) rows -> Forall (fun x => 0 <= x) nd ->
    Forall (Forall (fun x => 0 <= x)) (scaledRows rows nd).
Proof.
  unfold scaledRows. induction rows as [|r rows IH]; intros [|x nd] Hr Hx;
    cbn [combine map]; try constructor.
  - inversion Hr; inversion Hx; subst. cbn [fst snd].
    apply Forall_forall. intros y Hy. apply in_map_iff in Hy as (w & <- & Hw).
    rewrite Forall_forall in H1. apply H1 in Hw. now apply Qmult_le_0_compat.
  - inversion Hr; inversion Hx; subst. now apply IH.
Qed.

(** What a normalized vector of non-negative entries and positive sum is. *)
Lemma normalizeToOne_shape (c : nat) (v : list Q) :
  length v = c -> Forall (fun x => 0 <= x) v -> 0 < sum v ->
  exists w, normalizeToOne v = Ok w /\
            length w = c /\ Forall (fun x => 0 <= x) w /\ sum w == 1.
Proof.
  intros L Hn Hs. rewrite normalizeToOne_exact by lra. eexists. split; [reflexivity|].
  destruct (Qeq_bool (sum v) 1) eqn:E.
  - apply Qeq_bool_iff in E. auto.
  - rewrite length_map. repeat split; auto.
    + apply Forall_forall. intros y Hy. apply in_map_iff in Hy as (x & <- & Hx).
      rewrite Forall_forall in Hn. apply Hn in Hx. apply Qle_shift_div_l; lra.
    + unfold Qdiv. rewrite sum_map_scale. apply Qmult_inv_r. lra.
Qed.

Lemma pointWeights_row (c : nat) (W : list (list Q)) (B : pyobj)
    (idxs : list nat) (dists : list Q) :
  weightVectors c W -> idxs <> [] -> length dists = length idxs ->
  Forall (fun k => (k < length W)%nat) idxs -> Forall (fun x => 0 <= x) dists ->
  exists w, pointWeights W B false idxs dists = Ok (w, None) /\
            length w = c /\ Forall (fun x => 0 <= x) w /\ (In w W \/ sum w == 1).
Proof.
  intros HW Hne Hlen Hi Hd.
  destruct (length idxs =? 1)%nat eqn:E1.
  - destruct idxs as [|k [|k' idxs]]; try discriminate.
    inversion Hi; subst. exists (nth k W []).
    split; [now apply pointWeights_single|].
    assert (Hin : In (nth k W []) W) by now apply nth_In.
    unfold weightVectors in HW. rewrite Forall_forall in HW.
    destruct (HW _ Hin) as (L & Hn & _). auto.
  - assert (Hdne : dists <> []).
    { intros E. rewrite E in Hlen. destruct idxs; [congruence|discriminate]. }
    destruct (pool_distances Hdne Hd) as (ds & nd & Hds & Hnd & L & Hpos & Hsum & _).
    rewrite (@pointWeights_blend c W B idxs dists ds nd E1 Hne Hi HW Hds Hnd) by congruence.
    assert (P : 0 < sum (columnSums (scaledRows (poolVectors W idxs) (rev nd)))).
    { apply (@blend_sum_pos c W idxs nd Hi HW); auto. congruence. }
    pose proof (poolVectors_weightVectors HW Hi) as HP.
    assert (LR : length (rev nd) = length (poolVectors W idxs)).
    { unfold poolVectors. rewrite length_rev, length_map. congruence. }
    assert (R : Forall (fun r => length r = c) (poolVectors W idxs)).
    { eapply Forall_impl; [|exact HP]. intros r Hr. apply Hr. }
    assert (N : Forall (Forall (fun x => 0 <= x)) (poolVectors W idxs)).
    { eapply Forall_impl; [|exact HP]. intros r Hr. apply Hr. }
    destruct (@scaledRows_shape (poolVectors W idxs) c (rev nd) LR R) as [S1 S2].
    destruct (@columnSums_shape c (scaledRows (poolVectors W idxs) (rev nd)))
      as [C1 C2]; auto.
    { intros E. rewrite E in S2. unfold poolVectors in S2. rewrite length_map in S2.
      destruct idxs; [congruence|discriminate]. }
    { apply scaledRows_nonneg; [assumption|now apply Forall_rev]. }
    destruct (@normalizeToOne_shape c _ C1 C2 P) as (w & -> & Lw & Nw & Sw).
    cbn [bind]. exists w. auto.
Qed.

Lemma mapM_Forall_total {A B} (f : A -> result B) (Q : B -> Prop) (l : list A) :
  (forall a, In a l -> exists b, f a = Ok b /\ Q b) ->
  exists bs, mapM f l = Ok bs /\ length bs = length l /\ Forall Q bs.
Proof.
  induction l as [|a l IH]; intros H; simpl.
  - exists []. auto.
  - destruct (H a (or_introl eq_refl)) as (b & -> & Hb).
    destruct IH as (bs & -> & L & HQ); [intros; apply H; now right|].
    exists (b :: bs). simpl. auto.
Qed.

(** Under the conditions in which the closest-neighbors policy returns
    (saved weight vectors of [c] non-negative entries, none all zero; a
    closest-point function that keeps its contract; normals where normal
    filtering needs them; a multiplier of at least 1), every row it
    returns has the shape of a weight vector again: [c] entries, one per
    influence, and none of them negative. *)
Theorem closestNeighborsWeights_rows (norm : vec -> Q) (c : nat)
    (W : list (list Q)) (B : pyobj) (P S N1 N2 : list vec)
    (count : Z) (mult : Q) (f : option closestPoint) (filter : bool) (tol : Q) :
  (forall v, 0 <= norm v) ->
  match f with Some g => knnContract g | None => True end ->
  S <> [] -> length W = length S -> weightVectors c W ->
  B <> BuiltinFunction ->
  (N1 = [] \/ length N1 = length P) ->
  (filter = true -> N1 <> [] /\ length N2 = length S) ->
  1 <= mult ->
  exists r,
    closestNeighborsWeights norm W B P S N1 N2 count mult f filter tol = Ok r /\
    Forall (fun w => length w = c /\ Forall (fun x => 0 <= x) w) (weights r).
Proof.
  intros Hnorm Hf HS HWS HW HB HN Hfil Hmult. unfold closestNeighborsWeights.
  rewrite validate_arrays by (auto; intros E; now apply Hfil). cbn [bind].
  set (g := match f with None => closestPointBruteForce norm | Some h => h end).
  assert (Hg : knnContract g).
  { unfold g. destruct f; [assumption|now apply closestPointBruteForce_contract]. }
  set (count' := if (count <? 1)%Z then Z.of_nat (length P) else count).
  set (k := if filter then Z.of_nat (length N1) else count').
  assert (Hcount : P <> [] -> (1 <= count')%Z).
  { intros HP. unfold count'. destruct (Z.ltb_spec count 1); [|assumption].
    destruct P; [congruence|]. simpl length. lia. }
  assert (Hk : P = [] \/ (1 <= k)%Z).
  { destruct P as [|p P'] eqn:EP; [now left|right]. unfold k.
    destruct filter eqn:Ef; [|apply Hcount; discriminate].
    destruct (Hfil eq_refl) as [Hne _]. destruct N1; [congruence|]. simpl length. lia. }
  destruct (Hg P S k HS Hk) as (D & I & -> & LD & HR). cbn [bind].
  rewrite <- HWS in HR.
  destruct (@mapM_Forall_total _ _
              (neighborsPoint W B N1 N2 filter tol false D I count' mult)
              (fun wb => length (fst wb) = c /\ Forall (fun x => 0 <= x) (fst wb))
              (seq 0 (length P))) as (bs & -> & Lbs & Hbs).
  { intros i Hi. apply in_seq in Hi.
    assert (HiD : (i < length D)%nat) by lia.
    destruct (Forall2_getitem HR HiD) as (dr & ir & HD & HI & L & Hne & Hd & Hidx).
    destruct (@pointPool_total N1 N2 filter tol D I count' mult (length W) i dr ir
                HD HI L Hd Hidx)
      as (idxs & dists & Hp & Hne' & L' & Hi' & Hd'); auto.
    - intros Ef. destruct (Hfil Ef) as [Hne0 HN2].
      destruct HN as [HN|HN]; [congruence|]. lia.
    - apply Hcount. destruct P; [simpl in Hi; lia|discriminate].
    - unfold neighborsPoint, neighborsPoint_with. fold_pointPool. rewrite Hp. cbn [bind].
      destruct (@pointWeights_row c W B idxs dists) as (w & Hw & Lw & Nw & _); auto.
      exists (w, None). split; [exact Hw|]. split; assumption. }
  cbn [bind]. eexists. split; [reflexivity|].
  unfold collect. cbn [weights]. apply Forall_map. exact Hbs.
Qed.

Lemma closestNeighborsWeights_rows_witness :
  exists r,
    closestNeighborsWeights norm1 [[1; 0]; [0; 1]] (NdArray [])
      [(1, 0, 0)] [(0, 0, 0); (4, 0, 0)] [] [] 2 4 None false 0 = Ok r /\
    Forall (fun w => length w = 2%nat /\ Forall (fun x => 0 <= x) w) (weights r).
Proof.
  apply (@closestNeighborsWeights_rows norm1 2 [[1; 0]; [0; 1]] (NdArray [])
           [(1, 0, 0)] [(0, 0, 0); (4, 0, 0)] [] [] 2 4 None false 0).
  - exact norm1_nonneg.
  - exact Logic.I.
  - discriminate.
  - reflexivity.
  - repeat constructor; vm_compute; try reflexivity; discriminate.
  - discriminate.
  - now left.
  - discriminate.
  - vm_compute. discriminate.
Defined.

(** ** The bounds of a pool *)

Lemma getitem_In {A} (l : list A) (i : nat) (a : A) : getitem l i = Ok a -> In a l.
Proof.
  intros H. apply getitem_Ok in H. eapply nth_error_In; eauto.
Qed.

Lemma walk_bounds (N1 N2 : list vec) (filter : bool) (tol : Q) (D : list (list Q))
    (I : list (list nat)) (count : Z) (i : nat) (dr : list Q) (ir : list nat)
    (sd : Q) (js : list nat) :
  getitem D i = Ok dr -> getitem I i = Ok ir ->
  forall p p', walk N1 N2 filter tol D I count i sd js p = Ok p' ->
    poolBounds filter count sd dr ir p -> poolBounds filter count sd dr ir p'.
Proof.
  intros HD HI. induction js as [|j js IH]; intros p p' Hw Hp; cbn [walk] in Hw.
  - now injection Hw as <-.
  - destruct (Z.leb_spec count (Z.of_nat (length (closestIndices p)))) as [_|Hlt].
    { now injection Hw as <-. }
    rewrite HI in Hw. cbn [bind] in Hw.
    apply bind_Ok in Hw as (checkIndex & Hci & Hw).
    rewrite HD in Hw. cbn [bind] in Hw.
    apply bind_Ok in Hw as (checkDist & Hcd & Hw).
    destruct (Qlt_bool sd checkDist && negb filter) eqn:Eout.
    { now injection Hw as <-. }
    apply bind_Ok in Hw as (b & Hb & Hw).
    apply IH in Hw; [exact Hw|].
    destruct Hp as (P1 & P2 & P3 & P4 & P5).
    apply getitem_In in Hci. apply getitem_In in Hcd.
    destruct b; unfold poolBounds; cbn [closestIndices closestDistances rejectedIndices].
    + repeat split; auto. apply incl_app; [assumption|]. intros x [<-|[]]. assumption.
    + rewrite !length_app. cbn [length]. repeat split; try lia.
      * apply incl_app; [assumption|]. intros x [<-|[]]. assumption.
      * assumption.
      * intros Ef. apply Forall_app. split; [auto|].
        constructor; [|constructor]. split; [assumption|].
        rewrite Ef in Eout. cbn [negb] in Eout. rewrite andb_true_r in Eout.
        destruct (Qlt_le_dec sd checkDist) as [Hlt'|Hle]; [|assumption].
        apply Qlt_bool_iff in Hlt'. congruence.
Qed.

(** Whatever the rounding of the product that gives the search distance:
    the pool of a target point never has more members than the neighbour
    count, its members are candidates of that point (entries of its index
    row), it has one distance per member, and without normal filtering each
    of these is a candidate's distance no larger than the search distance
    as the code computes it from the nearest distance and the
    multiplier. *)
Theorem pointPool_bounds (fmul : Q -> Q -> Q) (N1 N2 : list vec) (filter : bool) (tol : Q)
    (D : list (list Q)) (I : list (list nat)) (count : Z) (mult : Q) (i : nat)
    (dr : list Q) (ir idxs : list nat) (dists : list Q) :
  getitem D i = Ok dr -> getitem I i = Ok ir -> (0 <= count)%Z ->
  pointPool_with N1 N2 filter tol D I count mult fmul i = Ok (idxs, dists) ->
  (Z.of_nat (length idxs) <= count)%Z /\ incl idxs ir /\
  length dists = length idxs /\
  exists d0, hd_error dr = Some d0 /\
    (filter = false -> Forall (fun d => In d dr /\ d <= fmul d0 mult) dists).
Proof.
  intros HD HI Hc Hp. unfold pointPool_with in Hp. rewrite HD in Hp. cbn [bind] in Hp.
  apply bind_Ok in Hp as (d0 & Hd0 & Hp).
  apply bind_Ok in Hp as (p & Hw & Hp).
  apply (@walk_bounds N1 N2 filter tol D I count i dr ir (fmul d0 mult)) in Hw; auto.
  2:{ unfold poolBounds. cbn. repeat split; auto; try lia; intros x []. }
  destruct Hw as (P1 & P2 & P3 & P4 & P5).
  assert (Hhd : hd_error dr = Some d0).
  { apply getitem_Ok in Hd0. destruct dr; [discriminate|exact Hd0]. }
  destruct (closestIndices p) as [|k ks] eqn:Ec.
  - destruct filter.
    + injection Hp as <- <-. unfold slice_to.
      destruct (Z.ltb_spec (Z.min count (Z.of_nat (length (rejectedIndices p)))) 0); [lia|].
      rewrite length_map, length_firstn. repeat split; try lia.
      * intros x Hx. apply In_firstn in Hx. auto.
      * exists d0. split; [assumption|discriminate].
    + injection Hp as <- <-. repeat split; auto; try (intros x []).
      exists d0. auto.
  - injection Hp as <- <-. repeat split; auto. exists d0. auto.
Qed.

Lemma pointPool_bounds_witness :
  (Z.of_nat (length [0; 1]%nat) <= 2)%Z /\ incl [0; 1]%nat [0; 1; 2]%nat /\
  length [1; 3] = length [0; 1]%nat /\
  exists d0, hd_error [1; 3; 5] = Some d0 /\
    (false = false -> Forall (fun d => In d [1; 3; 5] /\ d <= Qmult d0 4) [1; 3]).
Proof.
  apply (@pointPool_bounds Qmult [] [] false 0 [[1; 3; 5]] [[0; 1; 2]]%nat 2 4 0
           [1; 3; 5] [0; 1; 2]%nat [0; 1]%nat [1; 3]).
  - reflexivity.
  - reflexivity.
  - lia.
  - vm_compute. reflexivity.
Defined.

(** ** A pool of two points *)

Lemma map_Qeq {A} (f g : A -> Q) (l : list A) :
  (forall a, f a == g a) -> vec_eq (map f l) (map g l).
Proof.
  intros H. induction l as [|a l IH]; simpl; constructor; auto.
Qed.

Lemma zipadd_scaled (n1 n2 t : Q) (a : list Q) :
  forall b,
    map (fun x => x / t) (zipadd (map (fun w => w * n2) a) (map (fun w => w * n1) b))
    = map (fun ab : Q * Q => (fst ab * n2 + snd ab * n1) / t) (combine a b).
Proof.
  unfold zipadd. induction a as [|x a IH]; intros [|y b]; simpl; auto.
  now rewrite <- IH.
Qed.

Lemma sum_positive_any (v : list Q) : 0 < sum v -> any v = true.
Proof.
  intros H. destruct (any v) eqn:E; [reflexivity|].
  apply any_false_zero in E.
  assert (Z0 : sum v == 0).
  { clear H. induction E as [|x v Hx _ IH]; [reflexivity|].
    rewrite sum_cons, Hx, IH. ring. }
  lra.
Qed.

(** A pool of two saved points at distances [d1] and [d2] (not both zero)
    is blended by inverse distance: each weight of the first point counts
    [d2] times, each weight of the second [d1] times, and the row is
    divided by its sum. With the two saved rows [w1] and [w2], entry by
    entry: [(d2 * w1 + d1 * w2) / (d2 * sum w1 + d1 * sum w2)]. *)
Theorem pointWeights_two_points (c : nat) (W : list (list Q)) (B : pyobj)
    (k1 k2 : nat) (d1 d2 : Q) :
  weightVectors c W -> (k1 < length W)%nat -> (k2 < length W)%nat ->
  0 <= d1 -> 0 <= d2 -> 0 < d1 + d2 ->
  exists w,
    pointWeights W B false [k1; k2] [d1; d2] = Ok (w, None) /\
    vec_eq w (map (fun ab : Q * Q =>
                     (d2 * fst ab + d1 * snd ab)
                     / (d2 * sum (nth k1 W []) + d1 * sum (nth k2 W [])))
                  (combine (nth k1 W []) (nth k2 W []))).
Proof.
  intros HW H1 H2 P1 P2 Ps.
  assert (Hi : Forall (fun k => (k < length W)%nat) [k1; k2]) by (repeat constructor; auto).
  assert (Hs : sum [d1; d2] == d1 + d2) by (unfold sum; simpl; ring).
  assert (Hany : any [d1; d2] = true) by (apply sum_positive_any; lra).
  assert (Hnd : exists n1 n2, normalizeToOne [d1; d2] = Ok [n1; n2] /\
                              n1 == d1 / (d1 + d2) /\ n2 == d2 / (d1 + d2)).
  { rewrite normalizeToOne_exact by lra.
    destruct (Qeq_bool (sum [d1; d2]) 1) eqn:E.
    - apply Qeq_bool_iff in E. rewrite Hs in E. exists d1, d2.
      split; [reflexivity|]. rewrite E. split; field.
    - cbn [map]. eexists; eexists. split; [reflexivity|]. rewrite Hs. split; reflexivity. }
  destruct Hnd as (n1 & n2 & Hnd & En1 & En2).
  rewrite (@pointWeights_blend c W B [k1; k2] [d1; d2] [d1; d2] [n1; n2]);
    auto; try discriminate.
  2:{ rewrite Hany. reflexivity. }
  pose proof (poolVectors_weightVectors HW Hi) as HP.
  unfold poolVectors in *. cbn [map rev app] in *.
  unfold weightVectors in HP.
  inversion HP as [|? ? (L1 & N1 & S1) HP']; subst.
  inversion HP' as [|? ? (L2 & N2 & S2) _]; subst.
  set (w1 := nth k1 W []) in *. set (w2 := nth k2 W []) in *.
  unfold scaledRows. cbn [combine map fst snd columnSums fold_left].
  set (v := zipadd (map (fun weight => weight * n2) w1) (map (fun weight => weight * n1) w2)).
  assert (Hd : 0 < d2 * sum w1 + d1 * sum w2).
  { assert (0 <= d2 * sum w1) by (apply Qmult_le_0_compat; lra).
    assert (0 <= d1 * sum w2) by (apply Qmult_le_0_compat; lra).
    destruct (Qlt_le_dec 0 d1) as [Hp|Hz].
    - assert (0 < d1 * sum w2) by (apply Qmult_lt_0_compat; lra). lra.
    - assert (0 < d2 * sum w1) by (apply Qmult_lt_0_compat; lra). lra. }
  assert (Sv : sum v == (d2 * sum w1 + d1 * sum w2) / (d1 + d2)).
  { unfold v. rewrite sum_zipadd by (rewrite !length_map; congruence).
    rewrite !sum_map_scale, En1, En2. field. lra. }
  assert (Pv : 0 < sum v).
  { rewrite Sv. apply Qlt_shift_div_l; lra. }
  rewrite normalizeToOne_exact by lra.
  cbn [bind]. eexists. split; [reflexivity|].
  apply vec_eq_trans with (renormalized v).
  - destruct (Qeq_bool (sum v) 1) eqn:E; [|apply vec_eq_refl].
    apply Qeq_bool_iff in E. unfold renormalized. rewrite <- (map_id v) at 1.
    apply map_Qeq. intros x. rewrite E. field.
  - unfold renormalized, v. rewrite zipadd_scaled.
    apply map_Qeq. intros [a b]. cbn [fst snd].
    fold v. rewrite Sv, En1, En2. field. split; lra.
Qed.

Lemma pointWeights_two_points_witness :
  exists w,
    pointWeights [[1; 0]; [0; 1]] (NdArray []) false [0; 1]%nat [1; 3] = Ok (w, None) /\
    vec_eq w (map (fun ab : Q * Q =>
                     (3 * fst ab + 1 * snd ab)
                     / (3 * sum (nth 0 [[1; 0]; [0; 1]] [])
                        + 1 * sum (nth 1 [[1; 0]; [0; 1]] [])))
                  (combine (nth 0 [[1; 0]; [0; 1]] []) (nth 1 [[1; 0]; [0; 1]] []))).
Proof.
  apply (@pointWeights_two_points 2 [[1; 0]; [0; 1]] (NdArray []) 0 1 1 3).
  - repeat constructor; vm_compute; try reflexivity; discriminate.
  - simpl. lia.
  - simpl. lia.
  - vm_compute. discriminate.
  - vm_compute. discriminate.
  - vm_compute. reflexivity.
Defined.

(** ** Leaf names *)

Import Chunks.

Lemma split_nonempty (sep : ascii) (s : string) : split sep s <> [].
Proof.
  destruct s as [|c s]; cbn [split]; [discriminate|].
  destruct (Ascii.eqb c sep); [discriminate|].
  destruct (split sep s); discriminate.
Qed.

Lemma last_cons_nonempty {A} (x d : A) (l : list A) : l <> [] -> last (x :: l) d = last l d.
Proof.
  destruct l; [congruence|reflexivity].
Qed.

Lemma lastField_sep (sep : ascii) (s : string) :
  lastField sep (String sep s) = lastField sep s.
Proof.
  unfold lastField. cbn [split]. rewrite Ascii.eqb_refl.
  apply last_cons_nonempty, split_nonempty.
Qed.

Lemma split_single (sep : ascii) (s f : string) :
  split sep s = [f] <-> f = s /\ ~ occurs sep s.
Proof.
  revert f. induction s as [|c s IH]; intros f; cbn [split occurs].
  - split; [intros H; injection H as <-; tauto|intros [-> _]; reflexivity].
  - destruct (Ascii.eqb_spec c sep) as [->|Hc].
    + split.
      * intros H. injection H as _ H. now apply split_nonempty in H.
      * intros [_ H]. tauto.
    + destruct (split sep s) as [|g gs] eqn:E; [now apply split_nonempty in E|].
      split.
      * intros H. injection H as <- ->. destruct (proj1 (IH g) eq_refl) as [-> Hn].
        split; [reflexivity|tauto].
      * intros [-> Hn]. destruct gs as [|g' gs].
        -- destruct (proj1 (IH g) eq_refl) as [-> _]. reflexivity.
        -- exfalso. assert (Hs : g :: g' :: gs = [s]) by (apply IH; tauto).
           discriminate.
Qed.

Lemma lastField_id (sep : ascii) (s : string) : ~ occurs sep s -> lastField sep s = s.
Proof.
  intros H. unfold lastField.
  assert (E : split sep s = [s]) by (apply split_single; auto).
  now rewrite E.
Qed.

Lemma lastField_other (sep c : ascii) (s : string) :
  c <> sep -> occurs sep s -> lastField sep (String c s) = lastField sep s.
Proof.
  intros Hc Ho. unfold lastField. cbn [split].
  destruct (Ascii.eqb_spec c sep) as [|_]; [contradiction|].
  destruct (split sep s) as [|g [|g' gs]] eqn:E.
  - now apply split_nonempty in E.
  - apply split_single in E. tauto.
  - reflexivity.
Qed.

Lemma occurs_app (c : ascii) (p s : string) :
  occurs c (p ++ s) <-> occurs c p \/ occurs c s.
Proof.
  induction p as [|c' p IH]; cbn [append occurs]; [tauto|]. rewrite IH. tauto.
Qed.

Lemma occurs_dec (c : ascii) (s : string) : {occurs c s} + {~ occurs c s}.
Proof.
  induction s as [|c' s IH]; cbn [occurs]; [right; tauto|].
  destruct (ascii_dec c' c); [left; auto|]. destruct IH; [left; auto|right; tauto].
Qed.

Lemma lastField_app_sep (sep : ascii) (p s : string) :
  lastField sep (p ++ String sep s) = lastField sep s.
Proof.
  induction p as [|c p IH]; cbn [append]; [apply lastField_sep|].
  destruct (ascii_dec c sep) as [->|Hc].
  - now rewrite lastField_sep.
  - rewrite lastField_other; auto. apply occurs_app. right. cbn. auto.
Qed.

Lemma occurs_split (c : ascii) (s : string) :
  occurs c s -> exists s1 s2, s = (s1 ++ String c s2)%string.
Proof.
  induction s as [|c' s IH]; cbn [occurs]; [tauto|]. intros [->|H].
  - exists EmptyString, s. reflexivity.
  - destruct (IH H) as (s1 & s2 & ->). exists (String c' s1), s2. reflexivity.
Qed.

Lemma append_assoc' (a b c : string) : ((a ++ b) ++ c = a ++ (b ++ c))%string.
Proof.
  induction a as [|x a IH]; cbn [append]; [reflexivity|]. now rewrite IH.
Qed.

Lemma lastField_app_occurs (sep : ascii) (p s : string) :
  occurs sep s -> lastField sep (p ++ s) = lastField sep s.
Proof.
  intros H. destruct (occurs_split _ _ H) as (s1 & s2 & ->).
  rewrite <- append_assoc', !lastField_app_sep. reflexivity.
Qed.

Lemma lastField_app_clean (sep : ascii) (p s : string) :
  ~ occurs sep s -> lastField sep (p ++ s) = (lastField sep p ++ s)%string.
Proof.
  intros H. induction p as [|c p IH]; cbn [append].
  - now rewrite lastField_id.
  - destruct (ascii_dec c sep) as [->|Hc]; [now rewrite !lastField_sep|].
    destruct (occurs_dec sep p) as [Ho|Hn].
    + rewrite !lastField_other; auto. apply occurs_app. auto.
    + rewrite !lastField_id; [reflexivity| |].
      * cbn [occurs]. tauto.
      * cbn [occurs]. rewrite occurs_app. tauto.
Qed.

Lemma lastField_suffix (sep : ascii) (s : string) :
  exists p, s = (p ++ lastField sep s)%string.
Proof.
  induction s as [|c s IH].
  - exists EmptyString. reflexivity.
  - destruct IH as [p Hp]. destruct (ascii_dec c sep) as [->|Hc].
    + rewrite lastField_sep. exists (String sep p). cbn [append]. now rewrite <- Hp.
    + destruct (occurs_dec sep s) as [Ho|Hn].
      * rewrite lastField_other by auto. exists (String c p). cbn [append]. now rewrite <- Hp.
      * exists EmptyString. rewrite lastField_id; [reflexivity|]. cbn [occurs]. tauto.
Qed.

Lemma lastField_clean (sep : ascii) (s : string) : ~ occurs sep (lastField sep s).
Proof.
  induction s as [|c s IH].
  - cbn. tauto.
  - destruct (ascii_dec c sep) as [->|Hc]; [now rewrite lastField_sep|].
    destruct (occurs_dec sep s) as [Ho|Hn].
    + now rewrite lastField_other by auto.
    + rewrite lastField_id; cbn [occurs]; tauto.
Qed.

(** The leaf name of a node does not depend on how the node is addressed:
    whatever stands before a ["|"] (a path) or before a [":"] (a namespace,
    or more of the path) is dropped.  [hasInfluence], [getByMeshName] and
    the names a new [SkinChunk] stores all go through this expression. *)
Theorem leafName_ignores_path (p s : string) :
  (leafName (p ++ String "|" s) = leafName s /\
   leafName (p ++ String ":" s) = leafName s) /\
  forall self : Chunk,
    hasInfluence self (p ++ String "|" s) = hasInfluence self s /\
    hasInfluence self (p ++ String ":" s) = hasInfluence self s.
Proof.
  assert (H : leafName (p ++ String "|" s) = leafName s /\
              leafName (p ++ String ":" s) = leafName s).
  { unfold leafName. split.
    - now rewrite lastField_app_sep.
    - destruct (occurs_dec "|" s) as [Ho|Hn].
      + rewrite lastField_app_occurs by (cbn [occurs]; auto).
        rewrite lastField_other; auto. discriminate.
      + rewrite lastField_app_clean.
        * rewrite lastField_app_sep. now rewrite (lastField_id _ _ Hn).
        * cbn [occurs]. intros [E|E]; [discriminate|contradiction]. }
  split; [exact H|]. intros self. unfold hasInfluence.
  destruct H as [-> ->]. split; reflexivity.
Qed.

(** A leaf name is the end of the name it is taken from and holds neither
    ["|"] nor [":"]; a name that holds neither is its own leaf name (so
    taking the leaf name twice changes nothing). *)
Theorem leafName_suffix (name : string) :
  (exists p, name = (p ++ leafName name)%string) /\
  ~ occurs "|" (leafName name) /\ ~ occurs ":" (leafName name) /\
  (~ occurs "|" name -> ~ occurs ":" name -> leafName name = name) /\
  leafName (leafName name) = leafName name.
Proof.
  unfold leafName.
  destruct (lastField_suffix "|" name) as [p1 H1].
  destruct (lastField_suffix ":" (lastField "|" name)) as [p2 H2].
  assert (Hbar : ~ occurs "|" (lastField ":" (lastField "|" name))).
  { intros H. apply (lastField_clean "|" name). rewrite H2. apply occurs_app. auto. }
  assert (Hcol : ~ occurs ":" (lastField ":" (lastField "|" name))) by apply lastField_clean.
  split; [|split; [|split; [|split]]]; auto.
  - exists (p1 ++ p2)%string. rewrite append_assoc', <- H2. exact H1.
  - intros Hb Hc. now rewrite (lastField_id _ _ Hb), (lastField_id _ _ Hc).
  - now rewrite (lastField_id _ _ Hbar), (lastField_id _ _ Hcol).
Qed.

(** ** [UberChunk.__init__] *)

Lemma firstSeen_app (acc l1 l2 : list string) :
  firstSeen acc (l1 ++ l2) = firstSeen (firstSeen acc l1) l2.
Proof.
  unfold firstSeen. apply fold_left_app.
Qed.

Lemma firstSeen_In (l : list string) :
  forall acc x, In x (firstSeen acc l) <-> In x acc \/ In x l.
Proof.
  induction l as [|y l IH]; intros acc x; cbn [firstSeen fold_left].
  - simpl. tauto.
  - fold (firstSeen (if contains acc y then acc else acc ++ [y]) l). rewrite IH.
    destruct (contains acc y) eqn:E.
    + apply contains_In in E. simpl. split; [tauto|].
      intros [H|[<-|H]]; auto.
    + rewrite in_app_iff. simpl. tauto.
Qed.

Lemma firstSeen_NoDup (l : list string) :
  forall acc, NoDup acc -> NoDup (firstSeen acc l).
Proof.
  induction l as [|y l IH]; intros acc H; cbn [firstSeen fold_left]; [assumption|].
  fold (firstSeen (if contains acc y then acc else acc ++ [y]) l). apply IH.
  destruct (contains acc y) eqn:E; [assumption|].
  apply contains_not_In in E. apply NoDup_app; auto.
  - repeat constructor. intros [].
  - intros a Ha [<-|[]]. contradiction.
Qed.

Lemma firstSeen_fresh (l : list string) :
  forall acc, NoDup l -> (forall x, In x l -> ~ In x acc) -> firstSeen acc l = acc ++ l.
Proof.
  induction l as [|y l IH]; intros acc Hnd Hf; cbn [firstSeen fold_left].
  - now rewrite app_nil_r.
  - fold (firstSeen (if contains acc y then acc else acc ++ [y]) l).
    inversion Hnd as [|? ? Hy Hl]; subst.
    assert (E : contains acc y = false) by (apply contains_not_In, Hf; now left).
    rewrite E, IH; auto.
    + now rewrite <- app_assoc.
    + intros x Hx Hin. apply in_app_iff in Hin as [Hin|[<-|[]]].
      * apply (Hf x); [now right|assumption].
      * contradiction.
Qed.

Lemma sameData_refl (self : Chunk) : sameData self self.
Proof.
  unfold sameData. tauto.
Qed.

Lemma sameData_trans (a b c : Chunk) : sameData a b -> sameData b c -> sameData a c.
Proof.
  unfold sameData. intros (A1 & A2 & A3 & A4 & A5 & A6) (B1 & B2 & B3 & B4 & B5 & B6).
  repeat split; congruence.
Qed.

Lemma addInfluence_Ok (sc : SkinChunk) (self self' : Chunk) (i : nat) (inf : string) :
  addInfluence sc self (i, inf) = Ok self' ->
  influences self' = firstSeen (influences self) [inf] /\
  (influencesAligned self -> influencesAligned self') /\
  sameData self self'.
Proof.
  unfold addInfluence, firstSeen. cbn [fold_left].
  destruct (contains (influences self) inf); cbn [negb].
  - intros H. injection H as <-. split; [reflexivity|]. split; [auto|apply sameData_refl].
  - intros H.
    apply bind_Ok in H as (m & _ & H). apply bind_Ok in H as (t & _ & H).
    apply bind_Ok in H as (r & _ & H). apply bind_Ok in H as (p & _ & H).
    injection H as <-. cbn. split; [reflexivity|]. split; [|unfold sameData; cbn; tauto].
    unfold influencesAligned. cbn. rewrite !length_app. cbn. lia.
Qed.

Lemma foldM_addInfluence_Ok (sc : SkinChunk) (items : list (nat * string)) :
  forall self self', foldM (addInfluence sc) items self = Ok self' ->
    influences self' = firstSeen (influences self) (map snd items) /\
    (influencesAligned self -> influencesAligned self') /\
    sameData self self'.
Proof.
  induction items as [|[i inf] items IH]; intros self self' H; cbn [foldM] in H.
  - injection H as <-. split; [reflexivity|]. split; [auto|apply sameData_refl].
  - apply bind_Ok in H as (s1 & H1 & H).
    apply addInfluence_Ok in H1 as (I1 & A1 & D1).
    apply IH in H as (I2 & A2 & D2).
    split; [|split; [auto|eapply sameData_trans; eauto]].
    rewrite I2, I1. cbn [map snd]. symmetry. apply (firstSeen_app _ [inf]).
Qed.

Lemma map_snd_enumerate' {A} (l : list A) : map snd (enumerate l) = l.
Proof.
  unfold enumerate. generalize 0%nat. induction l as [|a l IH]; intros s; simpl;
    [reflexivity|]. now rewrite IH.
Qed.

Lemma addPoints_Ok (self self' : Chunk) (sc : SkinChunk) :
  addPoints self sc = Ok self' ->
  influences self' = firstSeen (influences self) (influences sc) /\
  (influencesAligned self -> influencesAligned self') /\
  weights self' = weights self /\ blendWeights self' = blendWeights self /\
  normals self' = normals self ++ normals sc /\
  normalsPreDeformed self' = normalsPreDeformed self ++ normalsPreDeformed sc /\
  vertPositions self' = vertPositions self ++ vertPositions sc /\
  vertPositionsPreDeformed self'
  = vertPositionsPreDeformed self ++ vertPositionsPreDeformed sc.
Proof.
  unfold addPoints. intros H. apply bind_Ok in H as (s1 & H1 & H).
  apply foldM_addInfluence_Ok in H1 as (I1 & A1 & D1 & D2 & D3 & D4 & D5 & D6).
  rewrite map_snd_enumerate' in I1. injection H as <-.
  split; [exact I1|]. split; [|cbn; repeat split; congruence].
  intros Ha. apply A1 in Ha. exact Ha.
Qed.

Lemma foldM_addPoints_Ok (cs : list SkinChunk) :
  forall self self', foldM addPoints cs self = Ok self' ->
    influences self' = firstSeen (influences self) (flat_map (fun c : SkinChunk => influences c) cs) /\
    (influencesAligned self -> influencesAligned self') /\
    weights self' = weights self /\ blendWeights self' = blendWeights self /\
    normals self' = normals self ++ flat_map (fun c : SkinChunk => normals c) cs /\
    normalsPreDeformed self'
    = normalsPreDeformed self ++ flat_map (fun c : SkinChunk => normalsPreDeformed c) cs /\
    vertPositions self' = vertPositions self ++ flat_map (fun c : SkinChunk => vertPositions c) cs /\
    vertPositionsPreDeformed self'
    = vertPositionsPreDeformed self
      ++ flat_map (fun c : SkinChunk => vertPositionsPreDeformed c) cs.
Proof.
  induction cs as [|c cs IH]; intros self self' H; cbn [foldM] in H.
  - injection H as <-. cbn. rewrite !app_nil_r. split; [reflexivity|].
    split; [auto|]. repeat split; reflexivity.
  - apply bind_Ok in H as (s1 & H1 & H).
    apply addPoints_Ok in H1 as (I1 & A1 & W1 & B1 & N1 & N1' & P1 & P1').
    apply IH in H as (I2 & A2 & W2 & B2 & N2 & N2' & P2 & P2').
    cbn [flat_map]. rewrite firstSeen_app, !app_assoc.
    split; [congruence|]. split; [auto|]. repeat split; congruence.
Qed.

Lemma foldM_addInfluence_total (sc : SkinChunk) (items : list (nat * string)) :
  influencesAligned sc ->
  Forall (fun item => (fst item < length (influences sc))%nat) items ->
  forall self, exists self', foldM (addInfluence sc) items self = Ok self'.
Proof.
  intros (A1 & A2 & A3 & A4). induction 1 as [|[i inf] items Hi _ IH]; intros self; cbn [foldM].
  - eexists; reflexivity.
  - cbn [fst] in Hi. unfold addInfluence at 1.
    destruct (contains (influences self) inf); cbn [negb].
    + cbn [bind]. apply IH.
    + destruct (@getitem_lt _ (influenceMatrices sc) i) as (m & -> & _); [lia|].
      destruct (@getitem_lt _ (influenceLocalTransforms sc) i) as (t & -> & _); [lia|].
      destruct (@getitem_lt _ (influenceRotateOrders sc) i) as (r & -> & _); [lia|].
      destruct (@getitem_lt _ (influenceParents sc) i) as (p & -> & _); [lia|].
      cbn [bind]. apply IH.
Qed.

Lemma enumerate_bound {A} (l : list A) :
  Forall (fun item => (fst item < length l)%nat) (enumerate l).
Proof.
  apply Forall_forall. intros [k a] H. apply In_enumerate in H. cbn. tauto.
Qed.

Lemma foldM_addPoints_total (cs : list SkinChunk) :
  Forall (fun c : SkinChunk => influencesAligned c) cs ->
  forall self, exists self', foldM addPoints cs self = Ok self'.
Proof.
  induction 1 as [|c cs Hc _ IH]; intros self; cbn [foldM].
  - eexists; reflexivity.
  - unfold addPoints at 1.
    destruct (@foldM_addInfluence_total c (enumerate (influences c)) Hc
                (enumerate_bound _) self) as [s1 ->].
    cbn [bind]. apply IH.
Qed.

Lemma setitem_position (infs : list string) (g : string -> Q) (s : string) (x : Q) :
  NoDup infs -> In s infs ->
  setitem (map g infs) (position infs s) x
  = map (fun t => if String.eqb s t then x else g t) infs.
Proof.
  induction 1 as [|y infs Hy Hnd IH]; intros Hin; [destruct Hin|].
  cbn [position map]. destruct (String.eqb y s) eqn:E.
  - apply String.eqb_eq in E. subst y. cbn [setitem]. rewrite String.eqb_refl. f_equal.
    apply map_ext_in. intros t Ht. destruct (String.eqb s t) eqn:E'; [|reflexivity].
    apply String.eqb_eq in E'. subst t. contradiction.
  - destruct Hin as [->|Hin]; [rewrite String.eqb_refl in E; discriminate|].
    cbn [setitem]. rewrite (String.eqb_sym s y), E. f_equal. now apply IH.
Qed.

Lemma foldM_shift {S'} (f g : S' -> nat -> result S') (n : nat) :
  forall k, (forall s i, f s (S i) = g s i) ->
    forall s, foldM f (seq (S k) n) s = foldM g (seq k n) s.
Proof.
  induction n as [|n IH]; intros k H s; cbn [seq foldM]; [reflexivity|].
  rewrite H. destruct (g s k); cbn [bind]; [|reflexivity]. now apply IH.
Qed.

Lemma uberWeights_loop (infs : list string) (src : list string) :
  NoDup infs ->
  forall (r : list Q) (g : string -> Q),
    length r = length src -> NoDup src -> incl src infs ->
    foldM (fun weights i =>
             inf <- getitem src i ;;
             weightIndex <- index_of infs inf ;;
             cWeight <- getitem r i ;;
             setitem_checked weights weightIndex cWeight)
          (seq 0 (length r)) (map g infs)
    = Ok (map (fun t => if contains src t then nth (position src t) r 0 else g t) infs).
Proof.
  intros Hinfs. induction src as [|s src IH]; intros r g L Hnd Hincl.
  - destruct r; [|discriminate]. reflexivity.
  - destruct r as [|x r]; [discriminate|]. cbn [length seq foldM].
    change (getitem (s :: src) 0) with (Ok s). cbn [bind].
    assert (Hs : In s infs) by (apply Hincl; now left).
    destruct (index_of_In _ _ Hs) as [-> Hlt]. cbn [bind].
    change (getitem (x :: r) 0) with (Ok x). cbn [bind].
    unfold setitem_checked at 1. rewrite length_map.
    apply Nat.ltb_lt in Hlt. rewrite Hlt. cbn [bind].
    rewrite setitem_position by assumption.
    rewrite (@foldM_shift _ _
               (fun weights i =>
                  inf <- getitem src i ;;
                  weightIndex <- index_of infs inf ;;
                  cWeight <- getitem r i ;;
                  setitem_checked weights weightIndex cWeight)) by reflexivity.
    inversion Hnd as [|? ? Hnotin Hnd']; subst.
    rewrite IH; auto.
    + f_equal. apply map_ext. intros t. unfold contains. cbn [existsb position].
      rewrite (String.eqb_sym t s). destruct (String.eqb s t) eqn:E; cbn [orb nth].
      * apply String.eqb_eq in E. subst t.
        apply contains_not_In in Hnotin. unfold contains in Hnotin. now rewrite Hnotin.
      * reflexivity.
    + intros a Ha. apply Hincl. now right.
Qed.

Lemma map_const_repeat {A} (l : list A) : map (fun _ => 0) l = repeat 0 (length l).
Proof.
  induction l; simpl; congruence.
Qed.

Lemma uberWeights_value (infs src : list string) (r : list Q) :
  NoDup infs -> NoDup src -> incl src infs -> length r = length src ->
  uberWeights infs src (repeat 0 (length infs)) r = Ok (map (column src r) infs).
Proof.
  intros Hinfs Hsrc Hincl L. unfold uberWeights.
  rewrite <- map_const_repeat. now rewrite uberWeights_loop.
Qed.

Lemma addWeights_value (self : Chunk) (sc : SkinChunk) :
  NoDup (influences self) -> chunkOk sc -> incl (influences sc) (influences self) ->
  exists self',
    addWeights (repeat 0 (length (influences self))) self sc = Ok self' /\
    sameInfluences self self' /\
    weights self'
    = weights self
      ++ map (fun r => map (column (influences sc) r) (influences self)) (weights sc) /\
    blendWeights self' = blendWeights self ++ blendWeights sc /\
    normals self' = normals self /\
    normalsPreDeformed self' = normalsPreDeformed self /\
    vertPositions self' = vertPositions self /\
    vertPositionsPreDeformed self' = vertPositionsPreDeformed self.
Proof.
  intros Hnd (Hsc & _ & Hrows) Hincl. unfold addWeights.
  rewrite (@mapM_map _ _ _ (fun r => map (column (influences sc) r) (influences self))).
  - cbn [bind]. eexists. split; [reflexivity|]. unfold sameInfluences. cbn. tauto.
  - intros r Hr. rewrite Forall_forall in Hrows. apply uberWeights_value; auto.
Qed.

Lemma foldM_addWeights_value (cs : list SkinChunk) :
  forall self : Chunk,
    NoDup (influences self) -> Forall chunkOk cs ->
    Forall (fun c : SkinChunk => incl (influences c) (influences self)) cs ->
    exists self',
      foldM (addWeights (repeat 0 (length (influences self)))) cs self = Ok self' /\
      sameInfluences self self' /\
      weights self'
      = weights self
        ++ flat_map (fun c : SkinChunk =>
                       map (fun r => map (column (influences c) r) (influences self))
                           (weights c)) cs /\
      blendWeights self' = blendWeights self ++ flat_map (fun c : SkinChunk => blendWeights c) cs /\
      normals self' = normals self /\
      normalsPreDeformed self' = normalsPreDeformed self /\
      vertPositions self' = vertPositions self /\
      vertPositionsPreDeformed self' = vertPositionsPreDeformed self.
Proof.
  induction cs as [|c cs IH]; intros self Hnd Hok Hincl; cbn [foldM flat_map].
  - exists self. rewrite !app_nil_r. unfold sameInfluences. tauto.
  - inversion Hok as [|? ? Hc Hcs]; subst. inversion Hincl as [|? ? Ic Ics]; subst.
    destruct (@addWeights_value self c Hnd Hc Ic)
      as (s1 & -> & (E1 & E2 & E3 & E4 & E5) & W1 & B1 & N1 & N1' & P1 & P1').
    cbn [bind]. rewrite <- E1 in *.
    destruct (IH s1) as (s2 & -> & (F1 & F2 & F3 & F4 & F5) & W2 & B2 & N2 & N2' & P2 & P2');
      auto.
    exists s2. split; [reflexivity|]. unfold sameInfluences.
    rewrite W2, W1, B2, B1, !app_assoc. repeat split; congruence.
Qed.

Lemma UberChunk_init_value (cs : list SkinChunk) :
  Forall chunkOk cs ->
  exists u : UberChunk,
    UberChunk_init cs = Ok u /\ skinChunks u = cs /\
    influences u = firstSeen [] (flat_map (fun c : SkinChunk => influences c) cs) /\
    influencesAligned u /\
    weights u
    = flat_map (fun c : SkinChunk =>
                  map (fun r => map (column (influences c) r) (influences u)) (weights c)) cs /\
    blendWeights u = flat_map (fun c : SkinChunk => blendWeights c) cs /\
    normals u = flat_map (fun c : SkinChunk => normals c) cs /\
    normalsPreDeformed u = flat_map (fun c : SkinChunk => normalsPreDeformed c) cs /\
    vertPositions u = flat_map (fun c : SkinChunk => vertPositions c) cs /\
    vertPositionsPreDeformed u = flat_map (fun c : SkinChunk => vertPositionsPreDeformed c) cs /\
    totalMeshVerts u = Z.of_nat (length (weights u)).
Proof.
  intros Hok. unfold UberChunk_init.
  destruct (@foldM_addPoints_total cs) with (self := Chunk_init) as [s1 H1].
  { eapply Forall_impl; [|exact Hok]. intros c Hc. apply Hc. }
  rewrite H1. cbn [bind].
  apply foldM_addPoints_Ok in H1 as (I1 & A1 & W1 & B1 & N1 & N1' & P1 & P1').
  cbn in I1, W1, B1, N1, N1', P1, P1'.
  assert (Hnd : NoDup (influences s1)).
  { rewrite I1. apply firstSeen_NoDup. constructor. }
  destruct (@foldM_addWeights_value cs s1 Hnd Hok)
    as (s2 & -> & (E1 & E2 & E3 & E4 & E5) & W2 & B2 & N2 & N2' & P2 & P2').
  { apply Forall_forall. intros c Hc a Ha. rewrite I1. apply firstSeen_In. right.
    apply in_flat_map. exists c. auto. }
  cbn [bind]. eexists. split; [reflexivity|]. cbn.
  rewrite W1, B1 in *. cbn in W2, B2.
  assert (Ha : influencesAligned s1) by (apply A1; unfold influencesAligned; cbn; auto).
  destruct Ha as (L1 & L2 & L3 & L4).
  unfold influencesAligned. cbn.
  repeat split; try congruence.
  now rewrite E1.
Qed.

Lemma transposed_rows (src infs : list string) (rows : list (list Q)) :
  NoDup src -> NoDup infs -> incl src infs ->
  Forall (fun r => length r = length src) rows ->
  Forall2 (fun r o => length o = length infs /\ sum o == sum r)
          rows (map (fun r => map (column src r) infs) rows).
Proof.
  intros Hsrc Hinfs Hincl. induction 1 as [|r rows Hr _ IH]; cbn [map]; constructor; auto.
  split; [apply length_map|]. now apply sum_columns.
Qed.

(** The influences of an UberChunk made from well-formed skin chunks: every
    name once, the names being those of the chunks' influences, in the order
    in which they first occur; and one matrix, dict of local transforms,
    rotate order and parent per name. *)
Theorem UberChunk_init_influences (cs : list SkinChunk) :
  Forall chunkOk cs ->
  exists u : UberChunk,
    UberChunk_init cs = Ok u /\
    NoDup (influences u) /\
    (forall inf, In inf (influences u) <-> exists c : SkinChunk, In c cs /\ In inf (influences c)) /\
    influences u = firstSeen [] (flat_map (fun c : SkinChunk => influences c) cs) /\
    influencesAligned u.
Proof.
  intros Hok. destruct (UberChunk_init_value Hok) as (u & Hu & _ & HI & HA & _).
  exists u. split; [exact Hu|]. rewrite HI. split; [apply firstSeen_NoDup; constructor|].
  split; [|split; [reflexivity|]].
  - intros inf. rewrite firstSeen_In, in_flat_map. simpl. tauto.
  - exact HA.
Qed.

Lemma UberChunk_init_influences_witness :
  exists u : UberChunk,
    UberChunk_init exampleChunks = Ok u /\
    NoDup (influences u) /\
    (forall inf, In inf (influences u)
                 <-> exists c : SkinChunk, In c exampleChunks /\ In inf (influences c)) /\
    influences u
    = firstSeen [] (flat_map (fun c : SkinChunk => influences c) exampleChunks) /\
    influencesAligned u.
Proof.
  apply (@UberChunk_init_influences exampleChunks).
  repeat constructor; simpl; intuition discriminate.
Defined.

(** The weights of an UberChunk made from well-formed skin chunks are the
    rows of the chunks, chunk after chunk, each row re-indexed from its
    chunk's influences to those of the UberChunk: the column of an
    influence holds the weight the row has for it, or zero when its chunk
    does not have that influence.  Every row has one entry per influence of
    the UberChunk and the sum of the row it comes from. *)
Theorem UberChunk_init_weights (cs : list SkinChunk) :
  Forall chunkOk cs ->
  exists u : UberChunk,
    UberChunk_init cs = Ok u /\
    weights u
    = flat_map (fun c : SkinChunk =>
                  map (fun r => map (column (influences c) r) (influences u)) (weights c)) cs /\
    Forall2 (fun r o => length o = length (influences u) /\ sum o == sum r)
            (flat_map (fun c : SkinChunk => weights c) cs) (weights u).
Proof.
  intros Hok. destruct (UberChunk_init_value Hok) as (u & Hu & _ & HI & _ & HW & _).
  exists u. split; [exact Hu|]. split; [exact HW|]. rewrite HW.
  assert (Hnd : NoDup (influences u)) by (rewrite HI; apply firstSeen_NoDup; constructor).
  assert (Hincl : Forall (fun c : SkinChunk => incl (influences c) (influences u)) cs).
  { apply Forall_forall. intros c Hc a Ha. rewrite HI. apply firstSeen_In. right.
    apply in_flat_map. exists c. auto. }
  clear HW HI Hu. induction Hok as [|c cs (Hc & _ & Hrows) _ IH]; cbn [flat_map]; [constructor|].
  inversion Hincl; subst. apply Forall2_app; [|now apply IH].
  now apply transposed_rows.
Qed.

Lemma UberChunk_init_weights_witness :
  exists u : UberChunk,
    UberChunk_init exampleChunks = Ok u /\
    weights u
    = flat_map (fun c : SkinChunk =>
                  map (fun r => map (column (influences c) r) (influences u)) (weights c))
               exampleChunks /\
    Forall2 (fun r o => length o = length (influences u) /\ sum o == sum r)
            (flat_map (fun c : SkinChunk => weights c) exampleChunks) (weights u).
Proof.
  apply (@UberChunk_init_weights exampleChunks).
  repeat constructor; simpl; intuition discriminate.
Defined.

(** An UberChunk made from well-formed skin chunks is their point cloud:
    it keeps the list of chunks; blend weights, positions and normals (as
    saved and pre-deformed) are those of the chunks, chunk after chunk;
    there is one row of weights per saved row, and [totalMeshVerts] is
    their number. *)
Theorem UberChunk_init_points (cs : list SkinChunk) :
  Forall chunkOk cs ->
  exists u : UberChunk,
    UberChunk_init cs = Ok u /\ skinChunks u = cs /\
    totalMeshVerts u = Z.of_nat (length (flat_map (fun c : SkinChunk => weights c) cs)) /\
    length (weights u) = length (flat_map (fun c : SkinChunk => weights c) cs) /\
    blendWeights u = flat_map (fun c : SkinChunk => blendWeights c) cs /\
    vertPositions u = flat_map (fun c : SkinChunk => vertPositions c) cs /\
    vertPositionsPreDeformed u = flat_map (fun c : SkinChunk => vertPositionsPreDeformed c) cs /\
    normals u = flat_map (fun c : SkinChunk => normals c) cs /\
    normalsPreDeformed u = flat_map (fun c : SkinChunk => normalsPreDeformed c) cs.
Proof.
  intros Hok.
  destruct (UberChunk_init_value Hok)
    as (u & Hu & HS & _ & _ & HW & HB & HN & HN' & HP & HP' & HT).
  exists u. split; [exact Hu|]. split; [exact HS|].
  assert (L : length (weights u) = length (flat_map (fun c : SkinChunk => weights c) cs)).
  { rewrite HW. generalize (influences u) as infs. intros infs. clear.
    induction cs as [|c cs IH]; cbn [flat_map]; [reflexivity|].
    now rewrite !length_app, length_map, IH. }
  rewrite HT, L. repeat split; assumption.
Qed.

Lemma UberChunk_init_points_witness :
  exists u : UberChunk,
    UberChunk_init exampleChunks = Ok u /\ skinChunks u = exampleChunks /\
    totalMeshVerts u
    = Z.of_nat (length (flat_map (fun c : SkinChunk => weights c) exampleChunks)) /\
    length (weights u) = length (flat_map (fun c : SkinChunk => weights c) exampleChunks) /\
    blendWeights u = flat_map (fun c : SkinChunk => blendWeights c) exampleChunks /\
    vertPositions u = flat_map (fun c : SkinChunk => vertPositions c) exampleChunks /\
    vertPositionsPreDeformed u
    = flat_map (fun c : SkinChunk => vertPositionsPreDeformed c) exampleChunks /\
    normals u = flat_map (fun c : SkinChunk => normals c) exampleChunks /\
    normalsPreDeformed u
    = flat_map (fun c : SkinChunk => normalsPreDeformed c) exampleChunks.
Proof.
  apply (@UberChunk_init_points exampleChunks).
  repeat constructor; simpl; intuition discriminate.
Defined.

(** The UberChunk of one well-formed skin chunk has that chunk's
    influences, weights, blend weights, positions and normals. *)
Theorem UberChunk_init_single (c : SkinChunk) :
  chunkOk c ->
  exists u : UberChunk,
    UberChunk_init [c] = Ok u /\
    influences u = influences c /\ weights u = weights c /\
    blendWeights u = blendWeights c /\
    vertPositions u = vertPositions c /\ normals u = normals c.
Proof.
  intros Hc.
  destruct (@UberChunk_init_value [c]) as (u & Hu & _ & HI & _ & HW & HB & HN & _ & HP & _);
    [constructor; [assumption|constructor]|].
  exists u. split; [exact Hu|]. cbn [flat_map] in *. rewrite app_nil_r in *.
  destruct Hc as (Hnd & _ & Hrows).
  assert (E : influences u = influences c).
  { rewrite HI. apply firstSeen_fresh; [assumption|]. intros x _ []. }
  repeat split; try assumption.
  rewrite HW, E. clear -Hnd Hrows.
  induction Hrows as [|r rows Hr _ IH]; cbn [map]; [reflexivity|].
  now rewrite IH, column_identity.
Qed.

Lemma UberChunk_init_single_witness :
  exists u : UberChunk,
    UberChunk_init [exampleChunk "legShape" ["knee"; "ankle"]%string [[1 # 4; 3 # 4]]
                                 [(2, 0, 0)]] = Ok u /\
    influences u = ["knee"; "ankle"]%string /\ weights u = [[1 # 4; 3 # 4]] /\
    blendWeights u = [] /\
    vertPositions u = [(2, 0, 0)] /\ normals u = [(0, 0, 1)].
Proof.
  apply (@UberChunk_init_single
           (exampleChunk "legShape" ["knee"; "ankle"]%string [[1 # 4; 3 # 4]] [(2, 0, 0)])).
  repeat constructor; simpl; intuition discriminate.
Defined.

(** [UberChunk.__init__] and [utils.transposeWeights] re-index alike: the
    weights of an UberChunk made from well-formed skin chunks are, chunk
    after chunk, what [transposeWeights] returns for the rows of the chunk,
    from the chunk's influences to those of the UberChunk (nothing for a
    chunk without rows, where [transposeWeights] raises). *)
Theorem UberChunk_init_transposes (cs : list SkinChunk) :
  Forall chunkOk cs ->
  exists (u : UberChunk) (blocks : list (list (list Q))),
    UberChunk_init cs = Ok u /\ weights u = concat blocks /\
    Forall2 (fun (c : SkinChunk) block =>
               if match weights c with [] => true | _ => false end then block = []
               else transposeWeights (weights c) (influences c) (influences u) = Ok block)
            cs blocks.
Proof.
  intros Hok. destruct (UberChunk_init_value Hok) as (u & Hu & _ & HI & _ & HW & _).
  exists u,
    (map (fun c : SkinChunk =>
            map (fun r => map (column (influences c) r) (influences u)) (weights c)) cs).
  split; [exact Hu|]. split; [now rewrite <- flat_map_concat_map|].
  assert (Hincl : Forall (fun c : SkinChunk => incl (influences c) (influences u)) cs).
  { apply Forall_forall. intros c Hc a Ha. rewrite HI. apply firstSeen_In. right.
    apply in_flat_map. exists c. auto. }
  clear HW HI Hu. induction Hok as [|c cs (Hc & _ & Hrows) _ IH]; cbn [map]; constructor.
  - inversion Hincl; subst. destruct (weights c) as [|first rows] eqn:E; [reflexivity|].
    now apply transposeWeights_value.
  - inversion Hincl; subst. now apply IH.
Qed.

Lemma UberChunk_init_transposes_witness :
  exists (u : UberChunk) (blocks : list (list (list Q))),
    UberChunk_init exampleChunks = Ok u /\ weights u = concat blocks /\
    Forall2 (fun (c : SkinChunk) block =>
               if match weights c with [] => true | _ => false end then block = []
               else transposeWeights (weights c) (influences c) (influences u) = Ok block)
            exampleChunks blocks.
Proof.
  apply (@UberChunk_init_transposes exampleChunks).
  repeat constructor; simpl; intuition discriminate.
Defined.

(** ** Looking chunks and vertices up *)

(** [getByMeshName] looks a mesh up by its leaf name, so a path in front
    of the name changes nothing; it returns the first chunk saved under
    that leaf name, and [None] when there is none. *)
Theorem getByMeshName_first_match (p name : string) (cs : list SkinChunk) :
  getByMeshName (p ++ String "|" name) cs = getByMeshName name cs /\
  match getByMeshName name cs with
  | Some c => exists pre post, cs = pre ++ c :: post /\
                               meshShape c = leafName name /\
                               Forall (fun c' => meshShape c' <> leafName name) pre
  | None => Forall (fun c' => meshShape c' <> leafName name) cs
  end.
Proof.
  unfold getByMeshName. split.
  { unfold leafName. now rewrite lastField_app_sep. }
  induction cs as [|c cs IH]; cbn [getByMeshName_loop]; [constructor|].
  destruct (String.eqb_spec (leafName name) (meshShape c)) as [E|E].
  - exists [], cs. auto.
  - destruct (getByMeshName_loop (leafName name) cs) as [c'|].
    + destruct IH as (pre & post & -> & Hm & Hpre). exists (c :: pre), post.
      repeat split; auto.
    + constructor; auto.
Qed.

Lemma contains_id_In (l : list Z) (x : Z) : contains_id l x = true <-> In x l.
Proof.
  unfold contains_id. rewrite existsb_exists. split.
  - intros (y & Hy & E). apply Z.eqb_eq in E. now subst.
  - intros H. exists x. split; [assumption|apply Z.eqb_refl].
Qed.

Lemma index_id_nth (l : list Z) :
  NoDup l -> forall k v, nth_error l k = Some v -> index_id l v = Ok k.
Proof.
  induction 1 as [|y l Hy Hnd IH]; intros [|k] v H; try discriminate; cbn [index_id].
  - injection H as ->. now rewrite Z.eqb_refl.
  - cbn in H. destruct (Z.eqb_spec y v) as [->|_].
    + apply nth_error_In in H. contradiction.
    + now rewrite (IH k v H).
Qed.

Lemma Forall2_nth_error {A B} (R : A -> B -> Prop) (l : list A) :
  forall l', length l = length l' ->
    (forall k a b, nth_error l k = Some a -> nth_error l' k = Some b -> R a b) ->
    Forall2 R l l'.
Proof.
  induction l as [|a l IH]; intros [|b l'] L H; try discriminate; constructor.
  - apply (H 0%nat); reflexivity.
  - apply IH; [now injection L|]. intros k. apply (H (S k)).
Qed.

(** A skin chunk with one row of weights per saved vertex id, and no id
    saved twice, gives back for each saved id its own row; for an id that
    was not saved [getVertWeight] raises [Exception]. *)
Theorem getVertWeight_round_trip (self : SkinChunk) :
  NoDup (vertIds self) -> length (weights self) = length (vertIds self) ->
  Forall2 (fun v w => getVertWeight self v = Ok w) (vertIds self) (weights self) /\
  forall v, ~ In v (vertIds self) -> getVertWeight self v = Raise Exception.
Proof.
  intros Hnd L. split.
  - apply Forall2_nth_error; [congruence|]. intros k v w Hv Hw.
    unfold getVertWeight.
    assert (E : contains_id (vertIds self) v = true).
    { apply contains_id_In. eapply nth_error_In; eauto. }
    rewrite E. cbn [negb]. rewrite (index_id_nth Hnd _ Hv). cbn [bind].
    now apply getitem_Ok.
  - intros v Hv. unfold getVertWeight.
    destruct (contains_id (vertIds self) v) eqn:E; [|reflexivity].
    apply contains_id_In in E. contradiction.
Qed.

Lemma getVertWeight_round_trip_witness :
  Forall2 (fun v w => getVertWeight (exampleChunk "bodyShape" ["hip"; "knee"]%string
                                       [[1; 0]; [1 # 2; 1 # 2]] [(0, 0, 0); (1, 0, 0)]) v
                      = Ok w)
          [0; 1]%Z [[1; 0]; [1 # 2; 1 # 2]] /\
  forall v, ~ In v [0; 1]%Z ->
    getVertWeight (exampleChunk "bodyShape" ["hip"; "knee"]%string
                     [[1; 0]; [1 # 2; 1 # 2]] [(0, 0, 0); (1, 0, 0)]) v
    = Raise Exception.
Proof.
  apply (@getVertWeight_round_trip
           (exampleChunk "bodyShape" ["hip"; "knee"]%string
              [[1; 0]; [1 # 2; 1 # 2]] [(0, 0, 0); (1, 0, 0)])).
  - repeat constructor; simpl; intuition discriminate.
  - reflexivity.
Defined.
